(** * Hazard pointers and the split-ordered list of [hazard_pointer.hpp]

    A shallow embedding of the hazard-pointer domain (chunks, reservation,
    snapshot, per-thread context) and of the split-ordered list with its
    accessor, as executed by one thread: every compare-and-swap is the
    sequential one (it succeeds exactly when the cell holds the expected
    word), every loop carries fuel, and a run ends in [Done], in [Fault]
    (a failed assertion or undefined behaviour, with its kind) or in [Spin] (the loop was
    still running when the fuel ran out). *)

From stdpp Require Import gmap list sorting numbers.

(** ** Outcomes of a run *)

(** Why a run faulted. *)
Inductive fault : Type :=
  | AssertFailed      (* an [assert] does not hold *)
  | OutOfBounds       (* an array is read or written outside its bounds *)
  | BadPointer        (* a null or freed pointer is dereferenced or deleted *)
  | DivByZero         (* [%] by zero *)
  | NoReturnValue.    (* a non-void function ends without [return] *)

Inductive outcome (A : Type) : Type :=
  | Done (a : A)
  | Fault (e : fault)
  | Spin.
Arguments Done {A} a.
Arguments Fault {A} e.
Arguments Spin {A}.

(** Unsigned 32-bit wrap-around ([unsigned], [uint32_t]). *)
Definition u32 (x : N) : N := (x mod 4294967296)%N.

(** Pointer values are machine words; [nullptr] is the word 0. *)
Definition generic_hazptr_t : Type := N.
Definition nullptr : N := 0%N.

(** Modelled from the spec: [mark_bits_maskoff] of mark_ptr_type.hpp, which is
    not part of the sources. The lowest bit of a pointer word is the mark;
    AND-ing a word with the mask clears it ([w & ~1]). *)
Definition clear_mark_of_word (w : N) : N := N.ldiff w 1.

Module Hazp.

(** *** hazp_chunk_generic *)

Definition NUM_HAZP_CHUNK_BLOCKS : N := 32%N.
Definition FULL : N := 4294967295%N.

Record hazp_chunk : Type := mk_chunk {
  blk_size : N;
  hp_count : N;
  bitmap : N;
  haz_ptrs : list generic_hazptr_t
}.

Definition hazp_chunk_new (blocksize : N) : hazp_chunk :=
  let cnt := u32 (blocksize * NUM_HAZP_CHUNK_BLOCKS) in
  {| blk_size := blocksize; hp_count := cnt; bitmap := 0%N;
     haz_ptrs := replicate (N.to_nat cnt) nullptr |}.

Definition set_bitmap (c : hazp_chunk) (b : N) : hazp_chunk :=
  {| blk_size := blk_size c; hp_count := hp_count c; bitmap := b;
     haz_ptrs := haz_ptrs c |}.

(** The inner scan of [reserve_impl]:
    [while (0 != (expected & mask) && ix < NUM_HAZP_CHUNK_BLOCKS)].
    It runs at most 32 times, so 32 is an exact bound for [n]. *)
Fixpoint first_clear (n : nat) (expected mask ix : N) : N * N :=
  match n with
  | O => (mask, ix)
  | S n' =>
      if negb (N.land expected mask =? 0)%N && (ix <? NUM_HAZP_CHUNK_BLOCKS)%N
      then first_clear n' expected (u32 (N.shiftl mask 1)) (ix + 1)%N
      else (mask, ix)
  end.

(** The outer loop of [reserve_impl],
    [while (expected != FULL && nullptr == reserved)]; the result is the chunk
    and the index of the first slot of the reserved block ([None] is
    [nullptr]). *)
Fixpoint reserve_loop (fuel : nat) (c : hazp_chunk) (expected : N)
  : outcome (hazp_chunk * option N) :=
  match fuel with
  | O => Spin
  | S f =>
      if (expected =? FULL)%N then Done (c, None)
      else
        let '(mask, ix) := first_clear 32 expected 1%N 0%N in
        if (ix <? NUM_HAZP_CHUNK_BLOCKS)%N then
          let desired := N.lor expected mask in
          if (bitmap c =? expected)%N
          then Done (set_bitmap c desired, Some (u32 (ix * blk_size c)))
          else reserve_loop f c (bitmap c)
        else reserve_loop f c expected
  end.

Definition reserve_impl (fuel : nat) (c : hazp_chunk) (len : N)
  : outcome (hazp_chunk * option N) :=
  let expected := bitmap c in
  if negb (len =? blk_size c)%N then Done (c, None)
  else reserve_loop fuel c expected.

(** *** hazard_pointer_domain *)

(** A reserved block: the chunk (numbered from the tail of the pool, that is
    in order of creation) and the index of its first slot. *)
Record hazp_block : Type := mk_block { hb_chunk : nat; hb_slot : N }.

(** The pool is the list of chunks from [pools_head] on; a chunk pointer is a
    position in it and positions past the end are [nullptr]. *)
Record hazard_pointer_domain : Type := mk_domain {
  pools_head : list hazp_chunk;
  delete_head : list N
}.

Definition domain_new : hazard_pointer_domain :=
  {| pools_head := []; delete_head := [] |}.

Definition pools_new (pools : list hazp_chunk) (blocklen : N) : list hazp_chunk :=
  hazp_chunk_new blocklen :: pools.

(** [pools_reserve]: the loop
    [for(auto p = head; nullptr != p && nullptr == reservation; )] has no
    step expression and its body is [reservation = p->reserve(blocklen)]:
    [p] stays where it is. *)
Fixpoint pools_reserve (fuel : nat) (pools : list hazp_chunk) (p : nat)
    (blocklen : N) : outcome (list hazp_chunk * option hazp_block) :=
  match fuel with
  | O => Spin
  | S f =>
      match pools !! p with
      | None => Done (pools, None)
      | Some c =>
          match reserve_impl f c blocklen with
          | Done (c', Some slot) =>
              Done (<[p := c']> pools,
                    Some {| hb_chunk := length pools - 1 - p; hb_slot := slot |})
          | Done (c', None) => pools_reserve f (<[p := c']> pools) p blocklen
          | Fault e => Fault e
          | Spin => Spin
          end
      end
  end.

(** [release_impl]. A pointer to a hazard slot is the pair of its chunk and
    its index; it lies in [&haz_ptrs[0], &haz_ptrs[hp_count]) when the chunk
    is this one and the index is below [hp_count].

    The loop [for(auto x = 0; x < blk_size; x++)] that zeroes the block;
    [*(ptr + x)] beyond the array is a [Fault]. *)
Fixpoint release_clear (xs : list nat) (hp : list generic_hazptr_t)
    (first : nat) : outcome (list generic_hazptr_t) :=
  match xs with
  | [] => Done hp
  | x :: xs' =>
      match hp !! (first + x) with
      | None => Fault OutOfBounds
      | Some v =>
          release_clear xs'
            (if negb (v =? nullptr)%N then <[first + x := nullptr]> hp else hp)
            first
      end
  end.

(** The loop [for(unsigned ix = 0; ix < NUM_HAZP_CHUNK_BLOCKS; ++ix)] that
    looks for the block starting at [ptr]; the result is the new bitmap. *)
Fixpoint release_scan (n : nat) (c : hazp_chunk) (slot ix mask : N)
  : outcome N :=
  match n with
  | O => Done (bitmap c)
  | S n' =>
      if (slot =? u32 (ix * blk_size c))%N then
        if (mask =? N.land (bitmap c) mask)%N
        then Done (N.lxor (bitmap c) mask)
        else Fault AssertFailed
      else release_scan n' c slot (ix + 1)%N (u32 (N.shiftl mask 1))
  end.

Definition release_impl (c : hazp_chunk) (chunk_no : nat) (b : hazp_block)
  : outcome (hazp_chunk * bool) :=
  if negb (Nat.eqb (hb_chunk b) chunk_no) || (hp_count c <=? hb_slot b)%N
  then Done (c, false)
  else
    match release_clear (seq 0 (N.to_nat (blk_size c))) (haz_ptrs c)
                        (N.to_nat (hb_slot b)) with
    | Done cleared =>
        match release_scan 32 c (hb_slot b) 0%N 1%N with
        | Done bm =>
            Done ({| blk_size := blk_size c; hp_count := hp_count c;
                     bitmap := bm; haz_ptrs := cleared |}, true)
        | Fault e => Fault e
        | Spin => Spin
        end
    | Fault e => Fault e
    | Spin => Spin
    end.

(** [pools_release]: here the loop does step, [p = pnext]. *)
Fixpoint pools_release (pools : list hazp_chunk) (b : hazp_block)
  : outcome (list hazp_chunk * bool) :=
  match pools with
  | [] => Done ([], false)
  | c :: rest =>
      match release_impl c (length rest) b with
      | Done (c', true) => Done (c' :: rest, true)
      | Done (c', false) =>
          match pools_release rest b with
          | Done (rest', r) => Done (c' :: rest', r)
          | Fault e => Fault e
          | Spin => Spin
          end
      | Fault e => Fault e
      | Spin => Spin
      end
  end.

Definition reserve (fuel : nat) (d : hazard_pointer_domain) (blocklen : N)
  : outcome (hazard_pointer_domain * hazp_block) :=
  match pools_reserve fuel (pools_head d) 0 blocklen with
  | Done (pools, Some r) =>
      Done ({| pools_head := pools; delete_head := delete_head d |}, r)
  | Done (pools, None) =>
      let pools1 := pools_new pools blocklen in
      match pools_reserve fuel pools1 0 blocklen with
      | Done (pools2, Some r) =>
          Done ({| pools_head := pools2; delete_head := delete_head d |}, r)
      | Done (_, None) => Fault AssertFailed
      | Fault e => Fault e
      | Spin => Spin
      end
  | Fault e => Fault e
  | Spin => Spin
  end.

(** [n] reservations of [blocklen] in a row. *)
Fixpoint reserve_many (fuel : nat) (n : nat) (d : hazard_pointer_domain)
    (blocklen : N) : outcome hazard_pointer_domain :=
  match n with
  | O => Done d
  | S n' =>
      match reserve fuel d blocklen with
      | Done (d', _) => reserve_many fuel n' d' blocklen
      | Fault e => Fault e
      | Spin => Spin
      end
  end.

(** [push_delete_node] and the two [enqueue_for_delete]: a delete node is
    pushed at the head of the delete list (the compare-and-swap of one thread
    succeeds at once); the list of payloads stands for the list of nodes. *)
Definition push_delete_node (d : hazard_pointer_domain) (payload : N)
  : hazard_pointer_domain :=
  {| pools_head := pools_head d; delete_head := payload :: delete_head d |}.

Definition enqueue_for_delete (d : hazard_pointer_domain) (item_ptr : N)
  : hazard_pointer_domain :=
  push_delete_node d item_ptr.

Fixpoint enqueue_for_delete_n (xs : list nat) (d : hazard_pointer_domain)
    (items : list N) : outcome (hazard_pointer_domain * list N) :=
  match xs with
  | [] => Done (d, items)
  | x :: xs' =>
      match items !! x with
      | None => Fault OutOfBounds
      | Some v =>
          if negb (v =? nullptr)%N
          then enqueue_for_delete_n xs' (enqueue_for_delete d v)
                                    (<[x := nullptr]> items)
          else enqueue_for_delete_n xs' d items
      end
  end.

(** *** hazard_pointers_snapshot *)

Record hazard_pointers_snapshot : Type := mk_snapshot {
  ptrvalues : list N;
  snap_begin : nat;
  snap_end : nat
}.

(** First loop of the constructor: [size += p->count()] in [unsigned]. *)
Definition snapshot_size (pools : list hazp_chunk) : N :=
  fold_left (fun sz c => u32 (sz + hp_count c)) pools 0%N.

(** Second loop: every chunk copies its [hp_count] slots, one chunk after the
    other. *)
Definition copy_hazard_pointers (c : hazp_chunk) : list N :=
  take (N.to_nat (hp_count c)) (haz_ptrs c).

Definition snapshot_copy (pools : list hazp_chunk) : list N :=
  flat_map copy_hazard_pointers pools.

(** The [do ... while(count > 1)] loop that moves [begin]. Reading
    [begin[halfc]] outside the array is a [Fault]. *)
Fixpoint skip_nulls (fuel : nat) (vals : list N) (begin count : nat)
  : outcome nat :=
  match fuel with
  | O => Spin
  | S f =>
      let halfc := Nat.div2 count in
      match vals !! (begin + halfc) with
      | None => Fault OutOfBounds
      | Some v =>
          let '(begin', count') :=
            if (v =? nullptr)%N then (begin + halfc, count - halfc)
            else (begin, halfc) in
          if 1 <? count' then skip_nulls f vals begin' count'
          else Done begin'
      end
  end.

(** [*p &= mark_bits_maskoff] for [p] in [begin, end). *)
Definition mask_range (vals : list N) (begin : nat) : list N :=
  take begin vals ++ (clear_mark_of_word <$> drop begin vals).

Definition snapshot_new (fuel : nat) (d : hazard_pointer_domain)
  : outcome hazard_pointers_snapshot :=
  let pools := pools_head d in
  let size := snapshot_size pools in
  let copied := snapshot_copy pools in
  (* the copy fills exactly the [size] allocated entries, [assert(count == size)] *)
  if negb (N.of_nat (length copied) =? size)%N then Fault AssertFailed
  else
    let sorted := merge_sort N.le copied in
    match skip_nulls fuel sorted 0 (N.to_nat size) with
    | Done begin =>
        Done {| ptrvalues := mask_range sorted begin;
                snap_begin := begin; snap_end := N.to_nat size |}
    | Fault e => Fault e
    | Spin => Spin
    end.

(** [std::lower_bound] and [std::binary_search] on [first, first + len). *)
Fixpoint lower_bound (fuel : nat) (vals : list N) (first len : nat) (val : N)
  : outcome nat :=
  match fuel with
  | O => Spin
  | S f =>
      if len =? 0 then Done first
      else
        let half := Nat.div2 len in
        let middle := first + half in
        match vals !! middle with
        | None => Fault OutOfBounds
        | Some m =>
            if (m <? val)%N
            then lower_bound f vals (middle + 1) (len - half - 1) val
            else lower_bound f vals first half val
        end
  end.

Definition binary_search (vals : list N) (first last : nat) (val : N)
  : outcome bool :=
  match lower_bound (S (last - first)) vals first (last - first) val with
  | Done i =>
      if i =? last then Done false
      else match vals !! i with
           | None => Fault OutOfBounds
           | Some m => Done (negb (val <? m)%N)
           end
  | Fault e => Fault e
  | Spin => Spin
  end.

Definition search (hps : hazard_pointers_snapshot) (p : N) : outcome bool :=
  binary_search (ptrvalues hps) (snap_begin hps) (snap_end hps) p.

(** The values in the search range [begin, end). *)
Definition search_range (hps : hazard_pointers_snapshot) : list N :=
  take (snap_end hps - snap_begin hps) (drop (snap_begin hps) (ptrvalues hps)).

(** *** hazard_pointer_context<T, S, R> *)

Record hazard_pointer_context : Type := mk_context {
  deleted : list N;
  del_index : N
}.

(** What a context operation works on: its domain, itself, and the objects
    handed to [delete] so far. *)
Record smr_state : Type := mk_smr {
  domain : hazard_pointer_domain;
  context : hazard_pointer_context;
  freed : list N
}.

(** The [for] loop of [reclaim] over the [R] slots. *)
Fixpoint reclaim_scan (hps : hazard_pointers_snapshot) (ixs : list nat)
    (ctx : hazard_pointer_context) (fr : list N)
  : outcome (hazard_pointer_context * list N) :=
  match ixs with
  | [] => Done (ctx, fr)
  | ix :: ixs' =>
      match deleted ctx !! ix with
      | None => Fault OutOfBounds
      | Some v =>
          match search hps v with
          | Done false =>
              reclaim_scan hps ixs'
                {| deleted := <[ix := nullptr]> (deleted ctx);
                   del_index := u32 (del_index ctx + 4294967295) |}
                (if (v =? nullptr)%N then fr else fr ++ [v])
          | Done true => reclaim_scan hps ixs' ctx fr
          | Fault e => Fault e
          | Spin => Spin
          end
      end
  end.

(** [while(nullptr != deleted[ixd] && ixd < ixs) ++ixd;] *)
Fixpoint skip_live (fuel : nat) (del : list N) (ixd ixs : nat) : outcome nat :=
  match fuel with
  | O => Spin
  | S f =>
      match del !! ixd with
      | None => Fault OutOfBounds
      | Some v =>
          if negb (v =? nullptr)%N && (ixd <? ixs)
          then skip_live f del (ixd + 1) ixs
          else Done ixd
      end
  end.

(** [while(nullptr == deleted[ixs] && ixd < ixs) --ixs;] *)
Fixpoint skip_dead (fuel : nat) (del : list N) (ixd ixs : nat) : outcome nat :=
  match fuel with
  | O => Spin
  | S f =>
      match del !! ixs with
      | None => Fault OutOfBounds
      | Some v =>
          if (v =? nullptr)%N && (ixd <? ixs)
          then skip_dead f del ixd (ixs - 1)
          else Done ixs
      end
  end.

(** The compaction loop [while(ixd < ixs)] with its swap. *)
Fixpoint compact (fuel : nat) (del : list N) (ixd ixs : nat)
  : outcome (list N) :=
  match fuel with
  | O => Spin
  | S f =>
      if negb (ixd <? ixs) then Done del
      else
        match skip_live f del ixd ixs with
        | Done ixd1 =>
            match skip_dead f del ixd1 ixs with
            | Done ixs1 =>
                match del !! ixs1, del !! ixd1 with
                | Some vs, Some vd =>
                    if negb (vs =? nullptr)%N && (vd =? nullptr)%N
                    then compact f (<[ixd1 := vs]> (<[ixs1 := vd]> del))
                                 (ixd1 + 1) (ixs1 - 1)
                    else compact f del ixd1 ixs1
                | _, _ => Fault OutOfBounds
                end
            | Fault e => Fault e
            | Spin => Spin
            end
        | Fault e => Fault e
        | Spin => Spin
        end
  end.

(** [reclaim]; [R] is the template parameter, the length of [deleted] (an
    array type, so at least 1). *)
Definition reclaim (fuel : nat) (R : nat) (s : smr_state) : outcome smr_state :=
  match snapshot_new fuel (domain s) with
  | Done hps =>
      match reclaim_scan hps (seq 0 R) (context s) (freed s) with
      | Done (ctx, fr) =>
          if (del_index ctx =? N.of_nat R)%N then
            match enqueue_for_delete_n (seq 0 R) (domain s) (deleted ctx) with
            | Done (d', del') =>
                Done {| domain := d';
                        context := {| deleted := del'; del_index := 0%N |};
                        freed := fr |}
            | Fault e => Fault e
            | Spin => Spin
            end
          else
            match compact fuel (deleted ctx) 0 (R - 1) with
            | Done del' =>
                Done {| domain := domain s;
                        context := {| deleted := del';
                                      del_index := del_index ctx |};
                        freed := fr |}
            | Fault e => Fault e
            | Spin => Spin
            end
      | Fault e => Fault e
      | Spin => Spin
      end
  | Fault e => Fault e
  | Spin => Spin
  end.

(** [delete_item]. *)
Definition delete_item (fuel : nat) (R : nat) (s : smr_state) (item_ptr : N)
  : outcome smr_state :=
  let ctx := context s in
  if negb (del_index ctx <=? N.of_nat R)%N then Fault AssertFailed
  else if negb (N.to_nat (del_index ctx) <? R) then Fault OutOfBounds
  else
    let ctx' := {| deleted := <[N.to_nat (del_index ctx) := item_ptr]> (deleted ctx);
                   del_index := u32 (del_index ctx + 1) |} in
    let s' := {| domain := domain s; context := ctx'; freed := freed s |} in
    if (del_index ctx' =? N.of_nat R)%N then reclaim fuel R s' else Done s'.

(** The pool after 32 reservations of one slot: one chunk, every block taken. *)
Definition full_chunk : hazp_chunk :=
  {| blk_size := 1%N; hp_count := 32%N; bitmap := FULL;
     haz_ptrs := replicate 32 nullptr |}.
Definition full_domain : hazard_pointer_domain :=
  {| pools_head := [full_chunk]; delete_head := [] |}.

(** Sortedness of an array from index [a] on, by positions. *)
Definition sorted_from (vals : list N) (a : nat) : Prop :=
  ∀ i j x y, a ≤ i → i ≤ j →
    vals !! i = Some x → vals !! j = Some y → (x ≤ y)%N.

(** The copy fills the array exactly: no wrap-around of the slot count. *)
Definition snapshot_fits (pools : list hazp_chunk) : Prop :=
  N.of_nat (length (snapshot_copy pools)) = snapshot_size pools.

(** A domain right after its first reservation: 32 slots, all null. *)
Definition fresh_domain : hazard_pointer_domain :=
  {| pools_head := [set_bitmap (hazp_chunk_new 1) 1%N]; delete_head := [] |}.

Definition is_protected (hps : hazard_pointers_snapshot) (p : N) : bool :=
  match search hps p with Done true => true | _ => false end.

(** What the scan of [reclaim] leaves in a slot. *)
Definition scan_slot (hps : hazard_pointers_snapshot) (v : N) : N :=
  if is_protected hps v then v else nullptr.

Definition dec32 (x : N) : N := u32 (x + 4294967295).

(** A context of [R = 3] whose buffer is full, on a pool of four slots of
    which two hold the pointers 8 and 6. *)
Definition retire_sample : smr_state :=
  {| domain := {| pools_head := [ {| blk_size := 1%N; hp_count := 4%N;
                                     bitmap := 1%N;
                                     haz_ptrs := [0; 8; 0; 6]%N |} ];
                  delete_head := [] |};
     context := {| deleted := [8; 2; 6]%N; del_index := 3%N |};
     freed := [] |}.

Definition live_before (del : list N) (k : nat) : Prop :=
  ∀ i v, i < k → del !! i = Some v → v ≠ nullptr.
Definition dead_from (del : list N) (k : nat) : Prop :=
  ∀ i v, k ≤ i → del !! i = Some v → v = nullptr.

(** *** The rest of the domain and of the context *)

(** [has_reservations] *)
Definition has_reservations (c : hazp_chunk) : bool :=
  negb (bitmap c =? 0)%N.

(** [release] *)
Definition release (d : hazard_pointer_domain) (b : hazp_block)
  : outcome hazard_pointer_domain :=
  match pools_release (pools_head d) b with
  | Done (pools, released) =>
      if released
      then Done {| pools_head := pools; delete_head := delete_head d |}
      else Fault AssertFailed
  | Fault e => Fault e
  | Spin => Spin
  end.

(** The first loop of [collect] over the local delete list: a node whose
    payload the snapshot does not hold is unlinked and its payload deleted
    ([delete] of a null pointer does nothing); the others stay, in order. *)
Fixpoint collect_scan (hps : hazard_pointers_snapshot) (local : list N)
    (fr : list N) : outcome (list N * list N) :=
  match local with
  | [] => Done ([], fr)
  | payload :: rest =>
      match search hps payload with
      | Done false =>
          collect_scan hps rest
            (if (payload =? nullptr)%N then fr else fr ++ [payload])
      | Done true =>
          match collect_scan hps rest fr with
          | Done (kept, fr') => Done (payload :: kept, fr')
          | Fault e => Fault e
          | Spin => Spin
          end
      | Fault e => Fault e
      | Spin => Spin
      end
  end.

(** [collect]: the delete list is swapped out for the empty one, the
    snapshot is taken, the list is scanned, and what is left is pushed back
    node by node. The second component is the list of freed objects. *)
Definition collect (fuel : nat) (d : hazard_pointer_domain) (fr : list N)
  : outcome (hazard_pointer_domain * list N) :=
  let local_delete_head := delete_head d in
  let d0 := {| pools_head := pools_head d; delete_head := [] |} in
  match snapshot_new fuel d0 with
  | Done hps =>
      match collect_scan hps local_delete_head fr with
      | Done (kept, fr') => Done (fold_left push_delete_node kept d0, fr')
      | Fault e => Fault e
      | Spin => Spin
      end
  | Fault e => Fault e
  | Spin => Spin
  end.

(** [~hazard_pointer_domain]: the result is the list of freed objects. *)
Definition hazard_pointer_domain_dtor (fuel : nat) (d : hazard_pointer_domain)
    (fr : list N) : outcome (list N) :=
  match collect fuel d fr with
  | Done (d', fr') =>
      match delete_head d' with
      | [] =>
          if forallb (λ c, negb (has_reservations c)) (pools_head d')
          then Done fr' else Fault AssertFailed
      | _ :: _ => Fault AssertFailed
      end
  | Fault e => Fault e
  | Spin => Spin
  end.

(** Slot [index] of the block [b]: [*(hp_block + index)]. *)
Definition hp_read (pools : list hazp_chunk) (b : hazp_block) (index : N)
  : outcome N :=
  if length pools <=? hb_chunk b then Fault BadPointer
  else
    match pools !! (length pools - 1 - hb_chunk b) with
    | None => Fault BadPointer
    | Some c =>
        match haz_ptrs c !! N.to_nat (hb_slot b + index) with
        | None => Fault OutOfBounds
        | Some v => Done v
        end
    end.

Definition hp_write (pools : list hazp_chunk) (b : hazp_block) (index : N)
    (v : N) : outcome (list hazp_chunk) :=
  if length pools <=? hb_chunk b then Fault BadPointer
  else
    let p := length pools - 1 - hb_chunk b in
    match pools !! p with
    | None => Fault BadPointer
    | Some c =>
        if N.to_nat (hb_slot b + index) <? length (haz_ptrs c) then
          Done (<[p := {| blk_size := blk_size c; hp_count := hp_count c;
                          bitmap := bitmap c;
                          haz_ptrs := <[N.to_nat (hb_slot b + index) := v]>
                                        (haz_ptrs c) |}]> pools)
        else Fault OutOfBounds
    end.

(** [store(index, ptr)] and [at(index)] of a context with [S] hazard
    pointers whose block is [hp_block]. *)
Definition store (S : N) (hp_block : hazp_block) (d : hazard_pointer_domain)
    (index : N) (ptr : N) : outcome hazard_pointer_domain :=
  if negb (index <? S)%N then Fault AssertFailed
  else
    match hp_write (pools_head d) hp_block index ptr with
    | Done pools => Done {| pools_head := pools; delete_head := delete_head d |}
    | Fault e => Fault e
    | Spin => Spin
    end.

Definition at_ (S : N) (hp_block : hazp_block) (d : hazard_pointer_domain)
    (index : N) : outcome N :=
  if negb (index <? S)%N then Fault AssertFailed
  else hp_read (pools_head d) hp_block index.

(** The loops [for(int i = 0; i < S; ++i)] of the constructor and of the
    destructor of the context: each hazard pointer of the block is set to
    null. *)
Fixpoint clear_slots (ixs : list nat) (pools : list hazp_chunk)
    (hp_block : hazp_block) : outcome (list hazp_chunk) :=
  match ixs with
  | [] => Done pools
  | i :: ixs' =>
      match hp_write pools hp_block (N.of_nat i) nullptr with
      | Done pools' => clear_slots ixs' pools' hp_block
      | Fault e => Fault e
      | Spin => Spin
      end
  end.

(** [hazard_pointer_context(dom)]: the context and its block. *)
Definition hazard_pointer_context_ctor (fuel : nat) (S R : nat)
    (d : hazard_pointer_domain) (fr : list N)
  : outcome (smr_state * hazp_block) :=
  match reserve fuel d (N.of_nat S) with
  | Done (d1, hp_block) =>
      match clear_slots (seq 0 S) (pools_head d1) hp_block with
      | Done pools =>
          Done ({| domain := {| pools_head := pools;
                                delete_head := delete_head d1 |};
                   context := {| deleted := replicate R nullptr;
                                 del_index := 0%N |};
                   freed := fr |}, hp_block)
      | Fault e => Fault e
      | Spin => Spin
      end
  | Fault e => Fault e
  | Spin => Spin
  end.


(** *** Well-formed chunks and buffers *)

(** A chunk as its constructor makes it and the operations keep it. *)
Record chunk_ok (c : hazp_chunk) : Prop := mk_chunk_ok {
  ck_blk : (0 < blk_size c)%N;
  ck_count : hp_count c = (blk_size c * NUM_HAZP_CHUNK_BLOCKS)%N;
  ck_fits : (hp_count c < 4294967296)%N;
  ck_len : length (haz_ptrs c) = N.to_nat (hp_count c);
  ck_bitmap : (bitmap c < 4294967296)%N
}.

(** The mask the scans carry at index [ix]: [1 << ix] in 32 bits. *)
Definition mask_at (ix : N) : N := if (ix <? 32)%N then (2 ^ ix)%N else 0%N.

(** Block [ix] of a chunk is reserved. *)
Definition block_reserved (c : hazp_chunk) (ix : N) : bool :=
  N.testbit (bitmap c) ix.

(** The hazard-pointer values held in the slots of a pool. *)
Definition hazard_values (pools : list hazp_chunk) : list N :=
  flat_map haz_ptrs pools.

(** The retire buffer of a context between two calls: [del_index] is below
    [R], the pointers wait in [deleted[0 .. del_index)], the rest is null. *)
Record buffer_ok (R : nat) (ctx : hazard_pointer_context) : Prop :=
  mk_buffer_ok {
  bo_len : length (deleted ctx) = R;
  bo_index : (del_index ctx < N.of_nat R)%N;
  bo_live : live_before (deleted ctx) (N.to_nat (del_index ctx));
  bo_dead : dead_from (deleted ctx) (N.to_nat (del_index ctx))
}.

(** A context of [R = 3] with two pointers waiting and room for one more,
    on the pool of [retire_sample]. *)
Definition retire_room : smr_state :=
  {| domain := domain retire_sample;
     context := {| deleted := [8; 2; 0]%N; del_index := 2%N |};
     freed := [] |}.

(** [hp_block] is a reserved block of [S] slots of the pool: block [ix] of
    the chunk numbered [hb_chunk]. *)
Definition block_in (pools : list hazp_chunk) (hp_block : hazp_block) (S : N)
    (reserved : bool) : Prop :=
  ∃ pre c post ix,
    pools = pre ++ c :: post ∧ length post = hb_chunk hp_block ∧
    (ix < 32)%N ∧ hb_slot hp_block = (ix * blk_size c)%N ∧
    blk_size c = S ∧ block_reserved c ix = reserved.



End Hazp.


(** ** The split-ordered list *)

Module SoList.

(** [hash_t] and [so_key] are [uint32_t]. *)
Definition DATABIT : N := 1%N.

(** Modelled from the spec: [reverse_hasht_bits], declared in the sources but
    defined elsewhere; the spec gives [reverse_bits(h: u32) -> u32], the
    bit-reversed hash, a pure function. Bit [i] of the argument becomes bit
    [31 - i] of the result. *)
Fixpoint rev_bits (n : nat) (h : N) : N :=
  match n with
  | O => 0%N
  | S i =>
      ((if N.testbit h (N.of_nat i) then N.shiftl 1 (31 - N.of_nat i) else 0)
       + rev_bits i h)%N
  end.

Definition reverse_hasht_bits (hashv : N) : N := rev_bits 32 hashv.

Definition sol_node_key (hashv : N) : N :=
  N.lor (reverse_hasht_bits hashv) DATABIT.

Definition sol_bucket_key (hashv : N) : outcome N :=
  let bucket_key := reverse_hasht_bits hashv in
  if (N.land bucket_key DATABIT =? 0)%N then Done bucket_key
  else Fault AssertFailed.

(** Modelled from the spec: [mark_ptr_type<T>] of mark_ptr_type.hpp, which is
    not part of the sources. A word holding a pointer and, in its lowest bit,
    the mark; [operator()] gives the pointer with the mark cleared;
    [CAS(expected, new)] compares the full word with mark 0;
    [CAS(expected, new, mark)] compares the pointer bits only and writes
    pointer and mark; assigning a pointer stores it with mark 0. *)
Record mark_ptr_type : Type := mk_mark_ptr { mp_ptr : N; mp_mark : bool }.

Definition mp_of (p : N) : mark_ptr_type := {| mp_ptr := p; mp_mark := false |}.

Definition mp_CAS (m : mark_ptr_type) (expected new : N) : mark_ptr_type * bool :=
  if (mp_ptr m =? expected)%N && negb (mp_mark m)
  then (mp_of new, true) else (m, false).

Definition mp_CAS_mark (m : mark_ptr_type) (expected new : N) (mark : bool)
  : mark_ptr_type * bool :=
  if (mp_ptr m =? expected)%N
  then ({| mp_ptr := new; mp_mark := mark |}, true) else (m, false).

Section WithPayload.
Context {T : Type}.

(** [solist_bucket] and [solist_node<T>]: a data node is a bucket with a
    payload; the dynamic type is told by [b_payload]. *)
Record solist_bucket : Type := mk_bucket {
  b_hashv : N;
  b_key : N;
  b_next : mark_ptr_type;
  b_payload : option T
}.

Definition is_node (b : solist_bucket) : bool :=
  (DATABIT =? N.land (b_key b) DATABIT)%N.

Definition set_next (b : solist_bucket) (m : mark_ptr_type) : solist_bucket :=
  {| b_hashv := b_hashv b; b_key := b_key b; b_next := m;
     b_payload := b_payload b |}.

(** [solist<T>] *)
Record solist : Type := mk_solist {
  so_size : N;
  so_max_bucket_length : N;
  so_n_items : N;
  so_buckets : list N
}.

(** The cursor of [solist_accessor<T>]. *)
Record cursor : Type := mk_cursor {
  cur : N;
  next : N;
  prev : N;
  steps : N
}.

(** The memory the accessor works on: the nodes by address, the next fresh
    address of [new], the addresses given to [delete], the list and the
    accessor's cursor. *)
Record state : Type := mk_state {
  heap : gmap N solist_bucket;
  brk : N;
  freed : list N;
  so_list : solist;
  acc : cursor
}.

Definition set_heap (w : state) (h : gmap N solist_bucket) : state :=
  {| heap := h; brk := brk w; freed := freed w; so_list := so_list w;
     acc := acc w |}.
Definition set_list (w : state) (l : solist) : state :=
  {| heap := heap w; brk := brk w; freed := freed w; so_list := l;
     acc := acc w |}.
Definition set_acc (w : state) (a : cursor) : state :=
  {| heap := heap w; brk := brk w; freed := freed w; so_list := so_list w;
     acc := a |}.

(** *** The state and error monad of the model *)

Definition M (A : Type) : Type := state → outcome (A * state).

Definition ret {A} (a : A) : M A := λ w, Done (a, w).
Definition bind {A B} (m : M A) (k : A → M B) : M B :=
  λ w, match m w with
       | Done (a, w') => k a w'
       | Fault e => Fault e
       | Spin => Spin
       end.
Definition fail {A} (e : fault) : M A := λ _, Fault e.
Definition spin {A} : M A := λ _, Spin.
Definition get : M state := λ w, Done (w, w).
Definition put (w : state) : M unit := λ _, Done (tt, w).
Definition lift {A} (o : outcome A) : M A :=
  λ w, match o with
       | Done a => Done (a, w)
       | Fault e => Fault e
       | Spin => Spin
       end.

Notation "'let*' x ':=' m 'in' k" := (bind m (λ x, k))
  (at level 10, x pattern, m at level 100, k at level 200, only parsing).
Notation "m ';;' k" := (bind m (λ _, k))
  (at level 100, k at level 200, right associativity, only parsing).

Definition assert (b : bool) : M unit :=
  if b then ret tt else fail AssertFailed.

(** *** Memory *)

(** [p->...]: the node at [p]. *)
Definition deref (p : N) : M solist_bucket :=
  λ w, match heap w !! p with
       | Some b => Done (b, w)
       | None => Fault BadPointer
       end.

Definition store (p : N) (b : solist_bucket) : M unit :=
  λ w, Done (tt, set_heap w (<[p := b]> (heap w))).

(** [new]: the node is placed at the fresh address [brk]. *)
Definition new_bucket (b : solist_bucket) : M N :=
  λ w, Done (brk w,
             {| heap := <[brk w := b]> (heap w); brk := (brk w + 1)%N;
                freed := freed w; so_list := so_list w; acc := acc w |}).

(** [delete p]. *)
Definition delete_bucket (p : N) : M unit :=
  λ w, if (p =? nullptr)%N then Done (tt, w)
       else match heap w !! p with
            | Some _ =>
                Done (tt, {| heap := delete p (heap w); brk := brk w;
                             freed := freed w ++ [p];
                             so_list := so_list w; acc := acc w |})
            | None => Fault BadPointer
            end.

(** [explicit solist_bucket(hash_t hashv)] *)
Definition solist_bucket_ctor (hashv : N) : outcome solist_bucket :=
  match sol_bucket_key hashv with
  | Done k => Done {| b_hashv := hashv; b_key := k; b_next := mp_of nullptr;
                      b_payload := None |}
  | Fault e => Fault e
  | Spin => Spin
  end.

(** [explicit solist_node(T data, hash_t hashv)]: the base constructor, then
    [key |= DATABIT]. *)
Definition solist_node_ctor (data : T) (hashv : N) : outcome solist_bucket :=
  match solist_bucket_ctor hashv with
  | Done b => Done {| b_hashv := b_hashv b; b_key := N.lor (b_key b) DATABIT;
                      b_next := b_next b; b_payload := Some data |}
  | Fault e => Fault e
  | Spin => Spin
  end.

(** *** solist<T> *)

(** [buckets[slot]] *)
Definition bucket_at (slot : N) : M N :=
  λ w, match so_buckets (so_list w) !! N.to_nat slot with
       | Some p => Done (p, w)
       | None => Fault OutOfBounds
       end.

(** [buckets[slot] = p] *)
Definition set_bucket (slot : N) (p : N) : M unit :=
  λ w, let l := so_list w in
       if N.to_nat slot <? length (so_buckets l)
       then Done (tt, set_list w
              {| so_size := so_size l;
                 so_max_bucket_length := so_max_bucket_length l;
                 so_n_items := so_n_items l;
                 so_buckets := <[N.to_nat slot := p]> (so_buckets l) |})
       else Fault OutOfBounds.

Definition inc_item_count : M unit :=
  λ w, let l := so_list w in
       Done (tt, set_list w
              {| so_size := so_size l;
                 so_max_bucket_length := so_max_bucket_length l;
                 so_n_items := u32 (so_n_items l + 1);
                 so_buckets := so_buckets l |}).

Definition dec_item_count : M unit :=
  λ w, let l := so_list w in
       Done (tt, set_list w
              {| so_size := so_size l;
                 so_max_bucket_length := so_max_bucket_length l;
                 so_n_items := u32 (so_n_items l + 4294967295);
                 so_buckets := so_buckets l |}).

(** [solist(uint32_t size, uint32_t bucket_length)], then the accessor's
    [hazp_init], which is [zap]. *)
Definition solist_new (size bucket_length : N) : outcome state :=
  if (size =? 0)%N then Fault OutOfBounds
  else
    match solist_bucket_ctor 0 with
    | Done b =>
        Done {| heap := {[ 1%N := b ]}; brk := 2%N; freed := [];
                so_list :=
                  {| so_size := size; so_max_bucket_length := bucket_length;
                     so_n_items := 0%N;
                     so_buckets := <[0 := 1%N]> (replicate (N.to_nat size) nullptr) |};
                acc := {| cur := nullptr; next := nullptr; prev := nullptr;
                          steps := 0%N |} |}
    | Fault e => Fault e
    | Spin => Spin
    end.

(** [expand] *)
Definition expand (curr_size : N) : M unit :=
  λ w, let l := so_list w in
       if (curr_size <? so_size l)%N then Done (tt, w)
       else
         let new_size := u32 (so_size l * 2) in
         if (new_size <? so_size l)%N
            || (length (so_buckets l) <? N.to_nat (so_size l))
         then Fault OutOfBounds
         else
           Done (tt, set_list w
             {| so_size := new_size;
                so_max_bucket_length := so_max_bucket_length l;
                so_n_items := so_n_items l;
                so_buckets :=
                  take (N.to_nat (so_size l)) (so_buckets l)
                  ++ replicate (N.to_nat (new_size - so_size l)) nullptr |}).

(** *** solist_accessor<T> *)

Definition set_cursor (c n p : N) : M unit :=
  λ w, Done (tt, set_acc w {| cur := c; next := n; prev := p;
                              steps := steps (acc w) |}).
Definition set_next_field (n : N) : M unit :=
  λ w, Done (tt, set_acc w {| cur := cur (acc w); next := n;
                              prev := prev (acc w); steps := steps (acc w) |}).
Definition set_steps (s : N) : M unit :=
  λ w, Done (tt, set_acc w {| cur := cur (acc w); next := next (acc w);
                              prev := prev (acc w); steps := s |}).

Definition advance : M unit :=
  let* w := get in
  let c := next (acc w) in
  set_cursor c (next (acc w)) (cur (acc w));;
  if (c =? nullptr)%N then ret tt
  else let* b := deref c in set_next_field (mp_ptr (b_next b)).

Definition zap : M unit := set_cursor nullptr nullptr nullptr.

(** The three traversal loops,
    [while(nullptr != next && cond(next)) { advance(); (++steps;) }]. *)
Fixpoint walk_while (fuel : nat) (cond : solist_bucket → bool) (count : bool)
  : M unit :=
  match fuel with
  | O => spin
  | S f =>
      let* w := get in
      if (next (acc w) =? nullptr)%N then ret tt
      else
        let* b := deref (next (acc w)) in
        if cond b then
          advance;;
          (if count then let* w1 := get in set_steps (u32 (steps (acc w1) + 1))
           else ret tt);;
          walk_while f cond count
        else ret tt
  end.

(** The downward scan of [get_parent],
    [while(slot-- != 0) if (buckets[slot]) prev = cur = buckets[slot];]. *)
Fixpoint get_parent_scan (slot : nat) (buckets : list N) (c : N) : outcome N :=
  match slot with
  | O => Done c
  | S s =>
      match buckets !! s with
      | None => Fault OutOfBounds
      | Some b => get_parent_scan s buckets (if (b =? nullptr)%N then c else b)
      end
  end.

Definition get_parent (fuel : nat) (slot : N) (key : N) : M unit :=
  let* b0 := bucket_at 0 in
  let* w := get in
  let* c := lift (get_parent_scan (N.to_nat slot) (so_buckets (so_list w)) b0) in
  let* b := deref c in
  set_cursor c (mp_ptr (b_next b)) c;;
  walk_while fuel (λ n, (b_key n <? key)%N) false.

(** The [do ... while] of [initialise_bucket]. *)
Fixpoint initialise_bucket_loop (fuel : nat) (slot node key : N) : M unit :=
  match fuel with
  | O => spin
  | S f =>
      get_parent f slot key;;
      let* w := get in
      let* nb := deref node in
      store node (set_next nb (mp_of (next (acc w))));;
      let* b := bucket_at slot in
      if negb (b =? nullptr)%N then ret tt
      else
        let* same_key :=
          (if (next (acc w) =? nullptr)%N then ret false
           else let* n := deref (next (acc w)) in ret (b_key n =? key)%N) in
        if same_key then ret tt
        else
          let* c := deref (cur (acc w)) in
          let '(m, ok) := mp_CAS (b_next c) (next (acc w)) node in
          store (cur (acc w)) (set_next c m);;
          if ok then ret tt else initialise_bucket_loop f slot node key
  end.

Definition initialise_bucket (fuel : nat) (slot : N) : M unit :=
  let* w := get in
  assert (slot <? so_size (so_list w))%N;;
  let* b := bucket_at slot in
  if negb (b =? nullptr)%N then ret tt
  else
    let* nb := lift (solist_bucket_ctor slot) in
    let* node := new_bucket nb in
    let key := b_key nb in
    initialise_bucket_loop fuel slot node key;;
    let* b1 := bucket_at slot in
    (if (b1 =? nullptr)%N then
       let* w1 := get in
       let* c := deref (cur (acc w1)) in
       if (mp_ptr (b_next c) =? node)%N then
         set_bucket slot node;; set_next_field node
       else
         set_bucket slot (next (acc w1));;
         let* n := deref (next (acc w1)) in
         assert (b_key n =? key)%N;;
         delete_bucket node
     else delete_bucket node);;
    let* b2 := bucket_at slot in
    assert (negb (b2 =? nullptr)%N);;
    let* n2 := deref b2 in
    assert (b_key n2 =? key)%N.

Definition find_node (fuel : nat) (hashv : N) : M bool :=
  let* w := get in
  if (so_size (so_list w) =? 0)%N then fail DivByZero
  else
    let slot := (hashv mod so_size (so_list w))%N in
    let key := sol_node_key hashv in
    let* b := bucket_at slot in
    (if (b =? nullptr)%N then initialise_bucket fuel slot else ret tt);;
    let* b1 := bucket_at slot in
    let* n1 := deref b1 in
    set_cursor b1 (mp_ptr (b_next n1)) b1;;
    set_steps 0;;
    walk_while fuel (λ n, (b_key n <=? key)%N) true;;
    let* w1 := get in
    if (cur (acc w1) =? nullptr)%N then ret false
    else
      let* c := deref (cur (acc w1)) in
      if negb (b_key c =? key)%N then ret false else ret true.

(** The [while(true)] of [insert_node]; the result is [result]. *)
Fixpoint insert_loop (fuel : nat) (hashv dnode : N) : M bool :=
  match fuel with
  | O => spin
  | S f =>
      let* found := find_node f hashv in
      if found then ret false
      else
        let* w := get in
        let* d := deref dnode in
        store dnode (set_next d (mp_of (next (acc w))));;
        let* c := deref (cur (acc w)) in
        let '(m, ok) := mp_CAS (b_next c) (next (acc w)) dnode in
        store (cur (acc w)) (set_next c m);;
        if ok then inc_item_count;; ret true
        else insert_loop f hashv dnode
  end.

Definition insert_node (fuel : nat) (hashv : N) (payload : T) : M bool :=
  let* w0 := get in
  let nbuckets := so_size (so_list w0) in
  let* d := lift (solist_node_ctor payload hashv) in
  let* dnode := new_bucket d in
  let* result := insert_loop fuel hashv dnode in
  (if negb result then delete_bucket dnode
   else
     let* w := get in
     let* c := deref (cur (acc w)) in
     set_next_field (mp_ptr (b_next c));;
     walk_while fuel is_node true;;
     let* w1 := get in
     let l := so_list w1 in
     if (so_max_bucket_length l <? steps (acc w1))%N then
       if (so_size l =? 0)%N then fail DivByZero
       else
         let slot := (hashv mod so_size l)%N in
         if (u32 (so_max_bucket_length l * 2) <=? steps (acc w1))%N
            || (u32 (so_max_bucket_length l * so_size l) <=? so_n_items l)%N
         then
           expand nbuckets;;
           initialise_bucket fuel (u32 (slot + nbuckets))
         else
           initialise_bucket fuel (u32 (slot + nbuckets / 2))
     else ret tt);;
  zap;;
  ret result.

(** The [while(true)] of [delete_node]. *)
Fixpoint delete_loop (fuel : nat) (hashv : N) : M bool :=
  match fuel with
  | O => spin
  | S f =>
      let* found := find_node f hashv in
      if negb found then ret false
      else
        let* w := get in
        let* c := deref (cur (acc w)) in
        let '(m, marked) :=
          mp_CAS_mark (b_next c) (next (acc w)) (next (acc w)) true in
        store (cur (acc w)) (set_next c m);;
        if negb marked then delete_loop f hashv
        else
          let* p := deref (prev (acc w)) in
          let '(m', ok) := mp_CAS (b_next p) (cur (acc w)) (next (acc w)) in
          store (prev (acc w)) (set_next p m');;
          if ok then
            dec_item_count;;
            delete_bucket (cur (acc w));;
            ret true
          else delete_loop f hashv
  end.

Definition delete_node (fuel : nat) (hashv : N) : M bool :=
  let* result := delete_loop fuel hashv in
  zap;;
  ret result.

(** [find_item_node]: the pointer to the payload is the address of its node.
    When [find_node] fails no [return] is executed. *)
Definition find_item_node (fuel : nat) (hashv : N) : M N :=
  let* found := find_node fuel hashv in
  if found then
    let* w := get in
    let* c := deref (cur (acc w)) in
    match b_payload c with
    | Some _ => ret (cur (acc w))
    | None => fail BadPointer
    end
  else fail NoReturnValue.

End WithPayload.

Arguments solist_bucket : clear implicits.
Arguments state : clear implicits.
Arguments M : clear implicits.


(** *** Scenarios *)

(** A run of inserts, with the results in order. *)
Fixpoint insert_all {T} (fuel : nat) (items : list (N * T)) : M T (list bool) :=
  match items with
  | [] => ret []
  | (h, v) :: rest =>
      bind (insert_node fuel h v) (λ r,
      bind (insert_all fuel rest) (λ rs, ret (r :: rs)))
  end.

(** The mark step of [delete_node] alone: [find_node], then the
    compare-and-swap that sets the mark on [cur->next]; the thread stops
    before the unlinking compare-and-swap. *)
Definition delete_node_mark_only {T} (fuel : nat) (hashv : N) : M T bool :=
  bind (find_node fuel hashv) (λ found,
  if negb found then ret false
  else
    bind get (λ w,
    bind (deref (cur (acc w))) (λ c,
    let '(m, marked) :=
      mp_CAS_mark (b_next c) (next (acc w)) (next (acc w)) true in
    bind (store (cur (acc w)) (set_next c m)) (λ _, ret marked)))).

(** The list of the expansion scenario before the fourth insert. *)
Definition three_inserted {T} (v0 v2 v4 : T) : outcome (list bool * state T) :=
  match solist_new 2 2 with
  | Done w => insert_all 20 [(0, v0); (2, v2); (4, v4)]%N w
  | Fault e => Fault e
  | Spin => Spin
  end.

(** A list holding the hash 5 alone, and the same list after removing it. *)
Definition one_inserted : outcome (bool * state unit) :=
  match solist_new 1 4 with
  | Done w => insert_node 20 5 tt w
  | Fault e => Fault e
  | Spin => Spin
  end.

Definition inserted_then_removed : outcome (bool * state unit) :=
  match one_inserted with
  | Done (_, w) => delete_node 20 5 w
  | Fault e => Fault e
  | Spin => Spin
  end.


(** *** The well-formed list *)

Section WellFormed.
Context {T : Type}.

(** [lseg h p q l]: following [next] from [p] in [h] visits the nodes [l]
    (address and contents, in order) and arrives at [q]. *)
Inductive lseg (h : gmap N (solist_bucket T))
  : N → N → list (N * solist_bucket T) → Prop :=
  | lseg_nil p : lseg h p p []
  | lseg_cons p q b l :
      p ≠ nullptr → h !! p = Some b →
      lseg h (mp_ptr (b_next b)) q l →
      lseg h p q ((p, b) :: l).

(** The keys along a chain. *)
Definition keys (l : list (N * solist_bucket T)) : list N :=
  (λ x, b_key x.2) <$> l.

(** The data nodes of a chain, as address and key. *)
Definition data_items (l : list (N * solist_bucket T)) : list (N * N) :=
  (λ x, (x.1, b_key x.2)) <$> filter (λ x, is_node x.2) l.

(** The keys along the [next]-chain from [buckets[0]] increase strictly. *)
Definition keys_increasing (w : state T) : Prop :=
  ∃ b0 l, so_buckets (so_list w) !! 0 = Some b0 ∧ b0 ≠ nullptr ∧
          lseg (heap w) b0 nullptr l ∧ StronglySorted N.lt (keys l).

(** [n_items] is the number of data nodes reachable from [buckets[0]]. *)
Definition items_counted (w : state T) : Prop :=
  ∃ b0 l, so_buckets (so_list w) !! 0 = Some b0 ∧ b0 ≠ nullptr ∧
          lseg (heap w) b0 nullptr l ∧
          so_n_items (so_list w) = N.of_nat (length (data_items l)).

(** The invariant of the list between operations of one thread; [l] is the
    chain from [buckets[0]]. *)
Record wf (w : state T) (l : list (N * solist_bucket T)) : Prop := mk_wf {
  wf_chain : ∃ b0, so_buckets (so_list w) !! 0 = Some b0 ∧ b0 ≠ nullptr ∧
                   lseg (heap w) b0 nullptr l;
  wf_sorted : StronglySorted N.lt (keys l);
  wf_unmarked : Forall (λ x, mp_mark (b_next x.2) = false) l;
  wf_key32 : Forall (λ k, (k < 4294967296)%N) (keys l);
  wf_buckets : ∀ slot p,
      so_buckets (so_list w) !! slot = Some p → p ≠ nullptr →
      ∃ b, (p, b) ∈ l ∧ b_key b = reverse_hasht_bits (N.of_nat slot) ∧
           is_node b = false;
  wf_size : ∃ k, (k ≤ 31)%N ∧ so_size (so_list w) = (2 ^ k)%N;
  wf_len : length (so_buckets (so_list w)) = N.to_nat (so_size (so_list w));
  wf_brk : (0 < brk w)%N ∧ ∀ p, (brk w ≤ p)%N → heap w !! p = None;
  wf_count : so_n_items (so_list w) = N.of_nat (length (data_items l))
}.

(** What an operation that neither inserts nor removes an item keeps: the
    data nodes, the counters, and every allocated node outside the chain. *)
Record same_items (w : state T) (l : list (N * solist_bucket T))
    (w' : state T) (l' : list (N * solist_bucket T)) : Prop := mk_same_items {
  si_items : data_items l' = data_items l;
  si_n_items : so_n_items (so_list w') = so_n_items (so_list w);
  si_max : so_max_bucket_length (so_list w')
           = so_max_bucket_length (so_list w);
  si_outside : ∀ p b, heap w !! p = Some b → p ∉ l.*1 →
                      heap w' !! p = Some b ∧ p ∉ l'.*1
}.

(** An operation of the accessor's public interface. *)
Inductive list_op : Type :=
  | OpInsert (hashv : N) (payload : T)
  | OpDelete (hashv : N)
  | OpInitialise (slot : N).

Definition run_op (fuel : nat) (o : list_op) : M T bool :=
  match o with
  | OpInsert h v => insert_node fuel h v
  | OpDelete h => delete_node fuel h
  | OpInitialise slot => bind (initialise_bucket fuel slot) (λ _, ret true)
  end.

Fixpoint run_ops (fuel : nat) (os : list list_op) : M T (list bool) :=
  match os with
  | [] => ret []
  | o :: rest =>
      bind (run_op fuel o) (λ r,
      bind (run_ops fuel rest) (λ rs, ret (r :: rs)))
  end.

End WellFormed.

(** *** The destructor of the list *)

Section Destructor.
Context {T : Type}.

(** The loop of [~solist], [while(nullptr != cur)]: the successor is read,
    the node is deleted. *)
Fixpoint solist_dtor_loop (fuel : nat) (c : N) : M T unit :=
  match fuel with
  | O => spin
  | S f =>
      if (c =? nullptr)%N then ret tt
      else
        bind (deref c) (λ b,
        bind (delete_bucket c) (λ _,
        solist_dtor_loop f (mp_ptr (b_next b))))
  end.

Definition solist_dtor (fuel : nat) : M T unit :=
  bind (bucket_at 0) (λ b0, solist_dtor_loop fuel b0).

End Destructor.

(** *** What the operations keep of a node *)

Section Frame.
Context {T : Type}.

(** The items of a chain as the user sees them: key and payload of the data
    nodes, in order. *)
Definition entries (l : list (N * solist_bucket T)) : list (N * option T) :=
  (λ x, (b_key x.2, b_payload x.2)) <$> filter (λ x, is_node x.2) l.

(** The fields of a node that are set by its constructor. *)
Definition node_same (b b' : solist_bucket T) : Prop :=
  b_key b' = b_key b ∧ b_hashv b' = b_hashv b ∧ b_payload b' = b_payload b.

(** From [w0] to [w] at most [n] nodes were allocated, and every node that
    was allocated in [w0] is either freed or has the fields it had. *)
Definition fields_kept (w0 : state T) (n : N) (w : state T) : Prop :=
  (brk w0 ≤ brk w ≤ brk w0 + n)%N ∧
  ∀ p b, (p < brk w0)%N → heap w0 !! p = Some b →
         heap w !! p = None ∨ ∃ b', heap w !! p = Some b' ∧ node_same b b'.

(** Partial correctness of a run: if it returns, the result and the final
    state satisfy [Q]. *)
Definition post {A} (m : M T A) (w : state T) (Q : A → state T → Prop)
  : Prop :=
  ∀ a w', m w = Done (a, w') → Q a w'.

End Frame.


End SoList.
(** ** Reservation *)

Section Reserve.
Import Hazp.

Lemma reserve_impl_refuses fuel c len :
  blk_size c ≠ len ∨ bitmap c = FULL →
  reserve_impl fuel c len = Spin ∨ reserve_impl fuel c len = Done (c, None).
Proof.
  intros Hc. unfold reserve_impl.
  destruct (N.eqb_spec len (blk_size c)) as [Heq|Hne]; simpl; [|by right].
  destruct Hc as [Hc|Hc]; [congruence|].
  destruct fuel as [|f]; simpl; [by left|].
  rewrite Hc. by right.
Qed.

Lemma pools_reserve_spins fuel c rest len :
  blk_size c ≠ len ∨ bitmap c = FULL →
  pools_reserve fuel (c :: rest) 0 len = Spin.
Proof.
  intros Hc. induction fuel as [|f IH]; [done|].
  simpl. destruct (reserve_impl_refuses f c len Hc) as [-> | ->]; [done|].
  simpl. apply IH.
Qed.

(** On an empty pool the first reservation creates a chunk and succeeds. *)
Lemma reserve_first fuel len :
  reserve (S (S fuel)) domain_new len =
    Done ({| pools_head := [set_bitmap (hazp_chunk_new len) 1%N];
             delete_head := [] |},
          {| hb_chunk := 0; hb_slot := 0%N |}).
Proof.
  unfold reserve. simpl. unfold reserve_impl. simpl.
  rewrite N.eqb_refl. simpl. reflexivity.
Qed.

(** C1 (the code does not do what the claim says): [reserve] does not
    terminate whenever the chunk at [pools_head] cannot serve the request,
    because its block size differs or because all 32 of its blocks are
    taken: [pools_reserve] retries that one chunk for ever, whatever the
    fuel, and never reaches another chunk or [pools_new]. *)
Theorem reserve_spins_on_head_chunk fuel d c rest len :
  pools_head d = c :: rest →
  blk_size c ≠ len ∨ bitmap c = FULL →
  reserve fuel d len = Spin.
Proof.
  intros Hd Hc. unfold reserve. rewrite Hd.
  by rewrite pools_reserve_spins.
Qed.

(** After 32 reservations of one slot each the only chunk is full; the 33rd
    reservation spins. *)
Lemma reserve_spins_on_head_chunk_witness :
  reserve_many 40 32 domain_new 1%N = Done full_domain ∧
  ∀ fuel, reserve fuel full_domain 1%N = Spin.
Proof.
  split; [vm_compute; reflexivity|].
  intros fuel.
  apply (reserve_spins_on_head_chunk fuel full_domain full_chunk [] 1%N);
    [reflexivity | right; reflexivity].
Defined.

End Reserve.

(** ** Snapshot *)

Section Snapshot.
Import Hazp.

Lemma lower_bound_spec a last val vals :
  sorted_from vals a → last ≤ length vals →
  ∀ fuel first len,
    len < fuel → a ≤ first → first + len ≤ last →
    (∀ i x, a ≤ i → i < first → vals !! i = Some x → (x < val)%N) →
    (∀ i x, first + len ≤ i → i < last → vals !! i = Some x → (val ≤ x)%N) →
    ∃ r, lower_bound fuel vals first len val = Done r ∧
         a ≤ r ∧ r ≤ last ∧
         (∀ i x, a ≤ i → i < r → vals !! i = Some x → (x < val)%N) ∧
         (∀ i x, r ≤ i → i < last → vals !! i = Some x → (val ≤ x)%N).
Proof.
  intros Hs Hlast. induction fuel as [|f IH]; intros first len Hf Ha Hb Hlo Hhi;
    [lia|].
  simpl. destruct (Nat.eqb_spec len 0) as [->|Hlen].
  - exists first. rewrite Nat.add_0_r in Hhi. repeat split; auto; lia.
  - assert (Hhalf : Nat.div2 len < len) by (apply Nat.lt_div2; lia).
    generalize dependent (Nat.div2 len). intros half Hhalf.
    destruct (lookup_lt_is_Some_2 vals (first + half)) as [m Hm]; [lia|].
    rewrite Hm. destruct (N.ltb_spec m val) as [Hlt|Hge].
    + apply IH; try lia.
      * intros i x Hai Hi Hx.
        assert (x ≤ m)%N by (apply (Hs i (first + half) x m); auto; lia).
        lia.
      * intros i x Hi1 Hi2 Hx. apply (Hhi i x); auto; lia.
    + apply IH; try lia; [done|].
      intros i x Hi1 Hi2 Hx.
      assert (m ≤ x)%N by (apply (Hs (first + half) i m x); auto; lia).
      lia.
Qed.

Lemma binary_search_spec a last val vals :
  sorted_from vals a → a ≤ last → last ≤ length vals →
  ∃ b, binary_search vals a last val = Done b ∧
       (b = true ↔ ∃ i, a ≤ i ∧ i < last ∧ vals !! i = Some val).
Proof.
  intros Hs Hal Hlast. unfold binary_search.
  destruct (lower_bound_spec a last val vals Hs Hlast (S (last - a)) a (last - a))
    as (r & -> & Har & Hrl & Hlo & Hhi); try lia.
  destruct (Nat.eqb_spec r last) as [->|Hne].
  - exists false. split; [done|]. split; [done|].
    intros (i & Hi1 & Hi2 & Hx). specialize (Hlo i val Hi1 Hi2 Hx). lia.
  - destruct (lookup_lt_is_Some_2 vals r) as [m Hm]; [lia|]. rewrite Hm.
    eexists. split; [done|].
    assert (val ≤ m)%N by (apply (Hhi r m); auto; lia).
    destruct (N.ltb_spec val m) as [Hlt|Hge]; simpl.
    + split; [done|]. intros (i & Hi1 & Hi2 & Hx).
      destruct (decide (i < r)) as [Hir|Hir].
      * specialize (Hlo i val Hi1 Hir Hx). lia.
      * assert (m ≤ val)%N by (apply (Hs r i m val); auto; lia). lia.
    + split; [|done]. intros _. exists r.
      replace val with m by lia. repeat split; auto; lia.
Qed.

Lemma elem_of_search_range hps p :
  p ∈ search_range hps ↔
  ∃ i, snap_begin hps ≤ i ∧ i < snap_end hps ∧ ptrvalues hps !! i = Some p.
Proof.
  unfold search_range. rewrite list_elem_of_lookup. split.
  - intros (i & Hi). apply lookup_take_Some in Hi as [Hi Hlt].
    rewrite lookup_drop in Hi. exists (snap_begin hps + i).
    repeat split; auto; lia.
  - intros (i & Hi1 & Hi2 & Hi). exists (i - snap_begin hps).
    apply lookup_take_Some. split; [|lia].
    rewrite lookup_drop. by replace (snap_begin hps + (i - snap_begin hps)) with i by lia.
Qed.


Lemma clear_mark_of_word_mono x y :
  (x ≤ y)%N → (clear_mark_of_word x ≤ clear_mark_of_word y)%N.
Proof.
  unfold clear_mark_of_word.
  destruct x as [|[p|p|]], y as [|[q|q|]]; simpl; lia.
Qed.

Lemma sorted_nulls_first (l : list N) :
  Sorted N.le l →
  ∃ k nz, l = replicate k nullptr ++ nz ∧ Forall (λ v, v ≠ nullptr) nz.
Proof.
  intros Hs. apply Sorted_StronglySorted in Hs; [|apply _].
  induction Hs as [|x l Hs IH Hx].
  - by exists 0, [].
  - destruct (decide (x = nullptr)) as [->|Hne].
    + destruct IH as (k & nz & -> & Hnz). by exists (S k), nz.
    + exists 0, (x :: l). split; [done|]. constructor; [done|].
      eapply List.Forall_impl; [|exact Hx]. unfold nullptr in *. simpl. intros. lia.
Qed.

Lemma skip_nulls_spec k vals :
  (∀ i, i < k → vals !! i = Some nullptr) →
  (∀ i v, k ≤ i → vals !! i = Some v → v ≠ nullptr) →
  ∀ fuel begin count,
    count ≤ fuel → 1 ≤ count → begin + count ≤ length vals →
    (k = 0 ∧ begin = 0) ∨ (begin < k ∧ k ≤ begin + count) →
    skip_nulls fuel vals begin count = Done (k - 1).
Proof.
  intros Hz Hnz. induction fuel as [|f IH]; intros begin count Hf Hc Hn Hk; [lia|].
  simpl.
  assert (Hhalf : Nat.div2 count < count) by (apply Nat.lt_div2; lia).
  assert (Hodd : count = 2 * Nat.div2 count ∨ count = 2 * Nat.div2 count + 1).
  { pose proof (Nat.div2_odd count) as Hodd.
    destruct (Nat.odd count); simpl in Hodd; lia. }
  generalize dependent (Nat.div2 count). intros half Hhalf Hodd.
  destruct (lookup_lt_is_Some_2 vals (begin + half)) as [v Hv]; [lia|].
  rewrite Hv. destruct (N.eqb_spec v nullptr) as [->|Hv0].
  - assert (begin + half < k).
    { destruct (decide (begin + half < k)); [done|].
      exfalso. apply (Hnz (begin + half) nullptr); [lia|done|done]. }
    destruct (Nat.ltb_spec 1 (count - half)) as [H1|H1].
    + apply IH; lia.
    + f_equal. lia.
  - assert (k ≤ begin + half).
    { destruct (decide (k ≤ begin + half)); [done|].
      rewrite Hz in Hv by lia. congruence. }
    destruct (Nat.ltb_spec 1 half) as [H1|H1].
    + apply IH; lia.
    + f_equal. lia.
Qed.

Lemma lookup_mask_range vals begin i :
  begin ≤ i → begin ≤ length vals →
  mask_range vals begin !! i = clear_mark_of_word <$> vals !! i.
Proof.
  intros Hi Hb. unfold mask_range.
  rewrite lookup_app_r; rewrite length_take_le by lia; [|lia].
  rewrite list_lookup_fmap, lookup_drop. f_equal. f_equal. lia.
Qed.

Lemma StronglySorted_lookup_le (l : list N) i j x y :
  StronglySorted N.le l → i ≤ j →
  l !! i = Some x → l !! j = Some y → (x ≤ y)%N.
Proof.
  intros Hs. revert i j. induction Hs as [|z l Hs IH Hz]; intros i j Hij Hx Hy.
  - by rewrite lookup_nil in Hx.
  - destruct i as [|i], j as [|j]; simpl in *; try lia.
    + simplify_eq. lia.
    + simplify_eq. rewrite List.Forall_forall in Hz. apply Hz.
      apply list_elem_of_In. by eapply list_elem_of_lookup_2.
    + apply (IH i j); auto; lia.
Qed.

Lemma sorted_from_mask_range vals begin :
  Sorted N.le vals → begin ≤ length vals →
  sorted_from (mask_range vals begin) begin.
Proof.
  intros Hs Hb i j x y Hi Hij Hx Hy.
  rewrite lookup_mask_range in Hx, Hy by lia.
  apply fmap_Some in Hx as (x' & Hx & ->), Hy as (y' & Hy & ->).
  apply clear_mark_of_word_mono.
  apply Sorted_StronglySorted in Hs; [|apply _].
  by apply (StronglySorted_lookup_le vals i j).
Qed.

Lemma search_range_mask_range vals begin :
  begin ≤ length vals →
  search_range {| ptrvalues := mask_range vals begin; snap_begin := begin;
                  snap_end := length vals |}
  = clear_mark_of_word <$> drop begin vals.
Proof.
  intros Hb. unfold search_range, mask_range. simpl.
  rewrite drop_app_length' by (rewrite length_take_le; lia).
  apply take_ge. rewrite length_fmap, length_drop. lia.
Qed.


Lemma snapshot_new_spec fuel d :
  let captured := snapshot_copy (pools_head d) in
  0 < length captured → snapshot_fits (pools_head d) →
  length captured ≤ fuel →
  ∃ hps k nz,
    snapshot_new fuel d = Done hps ∧
    merge_sort N.le captured = replicate k nullptr ++ nz ∧
    Forall (λ v, v ≠ nullptr) nz ∧
    snap_begin hps = k - 1 ∧
    search_range hps
      = (if decide (k = 0) then [] else [nullptr]) ++ (clear_mark_of_word <$> nz) ∧
    ∀ p, ∃ b, search hps p = Done b ∧ (b = true ↔ p ∈ search_range hps).
Proof.
  intros captured Hpos Hfits Hfuel. unfold snapshot_new.
  fold captured. unfold snapshot_fits in Hfits. fold captured in Hfits.
  rewrite <- Hfits, N.eqb_refl, Nat2N.id. simpl.
  pose proof (Sorted_merge_sort N.le captured) as Hsorted.
  pose proof (merge_sort_Permutation N.le captured) as Hperm.
  apply Permutation_length in Hperm.
  destruct (sorted_nulls_first _ Hsorted) as (k & nz & Hsplit & Hnz).
  set (sorted := merge_sort N.le captured) in *.
  assert (Hlen : length sorted = k + length nz)
    by (rewrite Hsplit, length_app, length_replicate; done).
  rewrite (skip_nulls_spec k sorted).
  - exists {| ptrvalues := mask_range sorted (k - 1); snap_begin := k - 1;
              snap_end := length captured |}, k, nz.
    split; [done|]. split; [done|]. split; [done|]. split; [done|].
    assert (Hrange : search_range
              {| ptrvalues := mask_range sorted (k - 1); snap_begin := k - 1;
                 snap_end := length captured |}
            = (if decide (k = 0) then [] else [nullptr])
              ++ (clear_mark_of_word <$> nz)).
    { rewrite <- Hperm, search_range_mask_range by lia. rewrite Hsplit.
      destruct k as [|k]; [done|].
      case_decide; [lia|].
      replace (S k - 1) with k by lia.
      rewrite drop_app_le by (rewrite length_replicate; lia).
      rewrite drop_replicate. replace (S k - k) with 1 by lia. done. }
    split; [done|].
    intros p. unfold search. simpl.
    destruct (binary_search_spec (k - 1) (length captured) p
                (mask_range sorted (k - 1))) as (b & Hb & Hiff).
    + apply sorted_from_mask_range; [done|lia].
    + lia.
    + unfold mask_range. rewrite length_app, length_fmap, length_take, length_drop. lia.
    + exists b. split; [done|]. rewrite Hiff. symmetry.
      apply (elem_of_search_range
               {| ptrvalues := mask_range sorted (k - 1); snap_begin := k - 1;
                  snap_end := length captured |}).
  - intros i Hi. rewrite Hsplit, lookup_app_l by (rewrite length_replicate; lia).
    by apply lookup_replicate_2.
  - intros i v Hi Hv. rewrite Hsplit in Hv.
    rewrite lookup_app_r in Hv by (rewrite length_replicate; lia).
    rewrite List.Forall_forall in Hnz. apply Hnz, list_elem_of_In.
    by eapply list_elem_of_lookup_2.
  - lia.
  - lia.
  - lia.
  - destruct k as [|k]; [left; done|right; lia].
Qed.

(** C5, as the code has it: for a domain with at least one slot the
    constructor returns; [begin] stops at the last null entry of the sorted
    array, not past it, so the search range holds one null when some captured
    slot is null, followed by the non-null captured values with their mark
    bit cleared; [search] returns, and returns true exactly for the members
    of that range; in particular [search(nullptr)] is true whenever a slot is
    null. *)
Theorem snapshot_search_range fuel d :
  let captured := snapshot_copy (pools_head d) in
  0 < length captured → snapshot_fits (pools_head d) →
  length captured ≤ fuel →
  ∃ hps,
    snapshot_new fuel d = Done hps ∧
    search_range hps
      = (if decide (nullptr ∈ captured) then [nullptr] else [])
        ++ (clear_mark_of_word <$>
              filter (λ v, v ≠ nullptr) (merge_sort N.le captured)) ∧
    (∀ p, ∃ b, search hps p = Done b ∧ (b = true ↔ p ∈ search_range hps)) ∧
    (nullptr ∈ captured → search hps nullptr = Done true).
Proof.
  intros captured Hpos Hfits Hfuel.
  destruct (snapshot_new_spec fuel d Hpos Hfits Hfuel)
    as (hps & k & nz & Hnew & Hsplit & Hnz & _ & Hrange & Hsearch).
  fold captured in Hsplit.
  assert (Hnull : nullptr ∈ captured ↔ k ≠ 0).
  { rewrite <- (merge_sort_Permutation N.le captured), Hsplit.
    rewrite elem_of_app, elem_of_replicate. split.
    - intros [[_ ?]|Hin]; [done|].
      rewrite List.Forall_forall in Hnz. apply list_elem_of_In, Hnz in Hin. done.
    - intros Hk. by left. }
  assert (Hfilter : filter (λ v, v ≠ nullptr) (merge_sort N.le captured) = nz).
  { rewrite Hsplit, list.filter_app.
    assert (filter (λ v, v ≠ nullptr) (replicate k nullptr) = []) as ->.
    { clear. induction k as [|k IH]; [done|]. simpl.
      rewrite filter_cons_False; [done|]. by intros []. }
    simpl. clear -Hnz. induction Hnz as [|x l Hx _ IH]; [done|].
    rewrite filter_cons_True by done. by rewrite IH. }
  exists hps. split; [done|]. rewrite Hfilter.
  assert (Hr : search_range hps
     = (if decide (nullptr ∈ captured) then [nullptr] else [])
       ++ (clear_mark_of_word <$> nz)).
  { rewrite Hrange. destruct (decide (k = 0)) as [Hk|Hk];
      destruct (decide (nullptr ∈ captured)) as [Hin|Hin]; try done.
    - apply Hnull in Hin. done.
    - exfalso. apply Hin, Hnull, Hk. }
  split; [done|]. split; [done|].
  intros Hin. destruct (Hsearch nullptr) as (b & Hb & Hiff).
  rewrite Hb. f_equal. apply Hiff. rewrite Hr.
  destruct (decide (nullptr ∈ captured)); [|done]. simpl. left.
Qed.

Lemma snapshot_search_range_witness :
  ∃ hps, snapshot_new 32 fresh_domain = Done hps ∧
         search_range hps = [nullptr] ∧ search hps nullptr = Done true.
Proof.
  destruct (snapshot_search_range 32 fresh_domain)
    as (hps & Hnew & Hrange & _ & Hnull).
  - simpl. lia.
  - reflexivity.
  - simpl. lia.
  - exists hps. split; [exact Hnew|]. split.
    + rewrite Hrange. reflexivity.
    + apply Hnull. vm_compute. left.
Defined.

(** C5, as the claim states it, fails: in a snapshot of a pool whose slots
    are all null the search range is not free of nulls and [search(nullptr)]
    is true. *)
Lemma snapshot_range_holds_null :
  ∃ hps, snapshot_new 32 fresh_domain = Done hps ∧
         ¬ (Forall (λ v, v ≠ nullptr) (search_range hps) ∧
            search hps nullptr = Done false).
Proof.
  eexists. split; [vm_compute; reflexivity|].
  intros [_ Hs]. vm_compute in Hs. discriminate.
Qed.

End Snapshot.

Section Reclaim.
Import Hazp.

Lemma reclaim_scan_spec hps :
  (∀ p, ∃ b, search hps p = Done b) →
  ∀ rest pre di fr,
    reclaim_scan hps (seq (length pre) (length rest))
                 {| deleted := pre ++ rest; del_index := di |} fr
    = Done ({| deleted := pre ++ (scan_slot hps <$> rest);
               del_index :=
                 Nat.iter (length (filter (λ v, ¬ is_protected hps v) rest)) dec32 di |},
            fr ++ filter (λ v, ¬ is_protected hps v ∧ v ≠ nullptr) rest).
Proof.
  intros Htot. induction rest as [|v rest IH]; intros pre di fr.
  - simpl. by rewrite !app_nil_r.
  - simpl. rewrite lookup_app_r by lia. rewrite Nat.sub_diag. simpl.
    unfold scan_slot at 1, is_protected.
    destruct (Htot v) as ([|] & Hv); rewrite Hv.
    + rewrite filter_cons_False by (unfold is_protected; rewrite Hv; (simpl; tauto)).
      rewrite filter_cons_False by (unfold is_protected; rewrite Hv; (simpl; tauto)).
      specialize (IH (pre ++ [v]) di fr).
      rewrite length_app in IH. simpl in IH.
      replace (length pre + 1) with (S (length pre)) in IH by lia.
      rewrite <- !app_assoc in IH. simpl in IH. exact IH.
    + rewrite (filter_cons_True (λ v, ¬ is_protected hps v))
        by (unfold is_protected; rewrite Hv; (simpl; tauto)).
      replace (<[length pre:=nullptr]> (pre ++ v :: rest))
        with ((pre ++ [nullptr]) ++ rest).
      2:{ rewrite insert_app_r_alt by lia. rewrite Nat.sub_diag. simpl.
          by rewrite <- app_assoc. }
      specialize (IH (pre ++ [nullptr]) (dec32 di)
                     (if (v =? nullptr)%N then fr else fr ++ [v])).
      rewrite length_app in IH. simpl in IH.
      replace (length pre + 1) with (S (length pre)) in IH by lia.
      fold (dec32 di). rewrite IH. rewrite <- !app_assoc. simpl.
      f_equal. f_equal.
      * f_equal. symmetry. apply (Nat.iter_succ_r _ dec32 di).
      * destruct (N.eqb_spec v nullptr) as [Hv0|Hv0].
        -- rewrite filter_cons_False by (simpl; tauto). done.
        -- rewrite filter_cons_True
             by (unfold is_protected; rewrite Hv; (simpl; tauto)).
           by rewrite <- app_assoc.
Qed.


Lemma enqueue_for_delete_n_spec rest :
  ∀ pre d,
    enqueue_for_delete_n (seq (length pre) (length rest)) d (pre ++ rest)
    = Done ({| pools_head := pools_head d;
               delete_head :=
                 reverse (filter (λ v, v ≠ nullptr) rest) ++ delete_head d |},
            pre ++ replicate (length rest) nullptr).
Proof.
  induction rest as [|v rest IH]; intros pre d.
  - simpl. destruct d. by rewrite app_nil_r.
  - simpl. rewrite lookup_app_r by lia. rewrite Nat.sub_diag. simpl.
    destruct (N.eqb_spec v nullptr) as [->|Hv]; simpl.
    + rewrite filter_cons_False by (simpl; tauto).
      specialize (IH (pre ++ [nullptr]) d).
      rewrite length_app in IH. simpl in IH.
      replace (length pre + 1) with (S (length pre)) in IH by lia.
      rewrite <- !app_assoc in IH. exact IH.
    + rewrite filter_cons_True by done.
      replace (<[length pre:=nullptr]> (pre ++ v :: rest))
        with ((pre ++ [nullptr]) ++ rest).
      2:{ rewrite insert_app_r_alt by lia. rewrite Nat.sub_diag. simpl.
          by rewrite <- app_assoc. }
      specialize (IH (pre ++ [nullptr]) (enqueue_for_delete d v)).
      rewrite length_app in IH. simpl in IH.
      replace (length pre + 1) with (S (length pre)) in IH by lia.
      rewrite IH. rewrite <- !app_assoc. simpl.
      by rewrite reverse_cons, <- app_assoc.
Qed.

Lemma skip_live_spec del ixs :
  ixs < length del →
  ∀ fuel ixd, ixd ≤ ixs → ixs - ixd < fuel →
    ∃ r, skip_live fuel del ixd ixs = Done r ∧ ixd ≤ r ∧ r ≤ ixs ∧
         (∀ i v, ixd ≤ i → i < r → del !! i = Some v → v ≠ nullptr) ∧
         (r = ixs ∨ del !! r = Some nullptr).
Proof.
  intros Hlen. induction fuel as [|f IH]; intros ixd Hle Hf; [lia|].
  simpl. destruct (lookup_lt_is_Some_2 del ixd) as [v Hv]; [lia|]. rewrite Hv.
  destruct (N.eqb_spec v nullptr) as [->|Hv0]; simpl.
  - exists ixd. repeat split; auto; try lia; try (intros; lia).
  - destruct (Nat.ltb_spec ixd ixs) as [Hlt|Hge].
    + destruct (IH (ixd + 1)) as (r & -> & H1 & H2 & H3 & H4); [lia|lia|].
      exists r. repeat split; auto; try lia.
      intros i w Hi1 Hi2 Hw. destruct (decide (i = ixd)) as [->|Hne].
      * congruence.
      * apply (H3 i w); auto; lia.
    + exists ixd. repeat split; auto; try lia; try (intros; lia).
Qed.

Lemma skip_dead_spec del ixd :
  ∀ fuel ixs, ixs < length del → ixd ≤ ixs → ixs - ixd < fuel →
    ∃ r, skip_dead fuel del ixd ixs = Done r ∧ ixd ≤ r ∧ r ≤ ixs ∧
         (∀ i v, r < i → i ≤ ixs → del !! i = Some v → v = nullptr) ∧
         (r = ixd ∨ ∃ v, del !! r = Some v ∧ v ≠ nullptr).
Proof.
  induction fuel as [|f IH]; intros ixs Hlen Hle Hf; [lia|].
  simpl. destruct (lookup_lt_is_Some_2 del ixs) as [v Hv]; [lia|]. rewrite Hv.
  destruct (N.eqb_spec v nullptr) as [->|Hv0]; simpl.
  - destruct (Nat.ltb_spec ixd ixs) as [Hlt|Hge].
    + destruct (IH (ixs - 1)) as (r & -> & H1 & H2 & H3 & H4); [lia|lia|lia|].
      exists r. repeat split; auto; try lia.
      intros i w Hi1 Hi2 Hw. destruct (decide (i = ixs)) as [->|Hne].
      * congruence.
      * apply (H3 i w); auto; lia.
    + exists ixs. repeat split; auto; try lia; try (intros; lia).
  - exists ixs. repeat split; auto; try lia; try (intros; lia). right. eauto.
Qed.

Lemma insert_Permutation_cons (l : list N) i a b :
  l !! i = Some a → b :: l ≡ₚ a :: <[i := b]> l.
Proof.
  intros Hi.
  rewrite <- (take_drop_middle l i a Hi) at 1.
  rewrite insert_take_drop by (by eapply lookup_lt_Some).
  rewrite <- !Permutation_middle. apply perm_swap.
Qed.

Lemma swap_Permutation (l : list N) i j a b :
  i ≠ j → l !! i = Some a → l !! j = Some b →
  <[i := b]> (<[j := a]> l) ≡ₚ l.
Proof.
  intros Hne Hi Hj.
  apply (Permutation_cons_inv (a := a)).
  assert (Hi' : <[j := a]> l !! i = Some a)
    by (rewrite list_lookup_insert_ne; done).
  rewrite <- (insert_Permutation_cons (<[j := a]> l) i a b Hi').
  symmetry. apply (insert_Permutation_cons l j b a Hj).
Qed.

Lemma compact_spec :
  ∀ fuel del ixd ixs,
    ixs < length del → ixd ≤ ixs + 1 → ixs - ixd + 2 ≤ fuel →
    live_before del ixd → dead_from del (ixs + 1) →
    ∃ del' k, compact fuel del ixd ixs = Done del' ∧ del' ≡ₚ del ∧
              live_before del' k ∧ dead_from del' k.
Proof.
  induction fuel as [|f IH]; intros del ixd ixs Hlen Hle Hf Hlive Hdead; [lia|].
  simpl. destruct (Nat.ltb_spec ixd ixs) as [Hlt|Hge]; simpl.
  - destruct (skip_live_spec del ixs Hlen f ixd)
      as (ixd1 & -> & Hd1 & Hd2 & Hd3 & Hd4); [lia|lia|].
    destruct (skip_dead_spec del ixd1 f ixs)
      as (ixs1 & -> & Hs1 & Hs2 & Hs3 & Hs4); [lia|lia|lia|].
    destruct (lookup_lt_is_Some_2 del ixs1) as [vs Hvs]; [lia|].
    destruct (lookup_lt_is_Some_2 del ixd1) as [vd Hvd]; [lia|].
    rewrite Hvs, Hvd.
    assert (Hlive1 : live_before del ixd1).
    { intros i v Hi Hv. destruct (decide (i < ixd)).
      - by apply (Hlive i v).
      - apply (Hd3 i v); auto; lia. }
    assert (Hdead1 : dead_from del (ixs1 + 1)).
    { intros i v Hi Hv. destruct (decide (ixs < i)).
      - apply (Hdead i v); auto; lia.
      - apply (Hs3 i v); auto; lia. }
    destruct (N.eqb_spec vs nullptr) as [Hvs0|Hvs0],
             (N.eqb_spec vd nullptr) as [Hvd0|Hvd0]; simpl.
    + assert (ixd1 = ixs1) as <-.
      { destruct Hs4 as [->|(v & Hv & Hv0)]; [done|]. congruence. }
      apply IH; auto; lia.
    + assert (ixd1 = ixs1) as <-.
      { destruct Hs4 as [->|(v & Hv & Hv0)]; [done|]. congruence. }
      apply IH; auto; lia.
    + assert (Hne : ixd1 ≠ ixs1) by (intros ->; congruence).
      subst vd.
      destruct (IH (<[ixd1:=vs]> (<[ixs1:=nullptr]> del)) (ixd1 + 1) (ixs1 - 1))
        as (del' & k & -> & Hperm & Hl & Hd).
      * rewrite !length_insert. lia.
      * lia.
      * lia.
      * intros i v Hi Hv. destruct (decide (i = ixd1)) as [->|Hi1].
        -- rewrite list_lookup_insert_eq in Hv by (rewrite length_insert; lia).
           congruence.
        -- rewrite !list_lookup_insert_ne in Hv by lia.
           apply (Hlive1 i v); auto; lia.
      * intros i v Hi Hv. rewrite list_lookup_insert_ne in Hv by lia.
        destruct (decide (i = ixs1)) as [->|Hi1].
        -- rewrite list_lookup_insert_eq in Hv by lia. congruence.
        -- rewrite list_lookup_insert_ne in Hv by lia.
           apply (Hdead1 i v); auto; lia.
      * exists del', k. split; [done|]. split; [|done].
        rewrite Hperm. by apply swap_Permutation.
    + assert (ixd1 = ixs1) as <-.
      { destruct (decide (ixd1 = ixs1)); [done|].
        destruct Hd4 as [->|Hd4]; [lia|]. congruence. }
      apply IH; auto; lia.
  - destruct (decide (ixd = ixs + 1)) as [->|Hne].
    + exists del, (ixs + 1). done.
    + assert (ixd = ixs) as -> by lia.
      destruct (lookup_lt_is_Some_2 del ixs) as [v Hv]; [lia|].
      destruct (decide (v = nullptr)) as [->|Hv0].
      * exists del, ixs. split; [done|]. split; [done|]. split; [done|].
        intros i w Hi Hw. destruct (decide (i = ixs)) as [->|Hi1]; [congruence|].
        apply (Hdead i w); auto; lia.
      * exists del, (ixs + 1). split; [done|]. split; [done|]. split; [|done].
        intros i w Hi Hw. destruct (decide (i = ixs)) as [->|Hi1]; [congruence|].
        apply (Hlive i w); auto; lia.
Qed.


Lemma live_dead_partition (l : list N) :
  ∀ k, live_before l k → dead_from l k →
    filter (λ v, v ≠ nullptr) l = take k l ∧
    drop k l = replicate (length l - k) nullptr.
Proof.
  induction l as [|x l IH]; intros k Hl Hd.
  - by rewrite take_nil, drop_nil.
  - destruct k as [|k].
    + assert (x = nullptr) as -> by (apply (Hd 0 x); [lia|done]).
      destruct (IH 0) as [IH1 IH2].
      * intros i v Hi. lia.
      * intros i v Hi Hv. apply (Hd (S i) v); [lia|done].
      * rewrite filter_cons_False by (simpl; tauto).
        rewrite take_0 in *. rewrite drop_0 in *. split; [done|].
        simpl. f_equal. rewrite Nat.sub_0_r in IH2. exact IH2.
    + assert (x ≠ nullptr) by (apply (Hl 0 x); [lia|done]).
      destruct (IH k) as [IH1 IH2].
      * intros i v Hi Hv. apply (Hl (S i) v); [lia|done].
      * intros i v Hi Hv. apply (Hd (S i) v); [lia|done].
      * rewrite filter_cons_True by done. simpl. by rewrite IH1, IH2.
Qed.

Lemma filter_scan_slot hps (del : list N) :
  Forall (λ v, v ≠ nullptr) del →
  filter (λ v, v ≠ nullptr) (scan_slot hps <$> del)
  = filter (λ v, is_protected hps v) del.
Proof.
  induction 1 as [|v del Hv _ IH]; [done|].
  rewrite fmap_cons. unfold scan_slot at 1.
  destruct (is_protected hps v) eqn:Hp.
  - rewrite (filter_cons_True (λ v, v ≠ nullptr)) by done.
    rewrite (filter_cons_True (λ v, is_protected hps v)) by (by rewrite Hp).
    by rewrite IH.
  - rewrite (filter_cons_False (λ v, v ≠ nullptr)) by congruence.
    rewrite (filter_cons_False (λ v, is_protected hps v))
      by (rewrite Hp; (simpl; tauto)).
    done.
Qed.

Lemma filter_unprotected_nonnull hps (del : list N) :
  Forall (λ v, v ≠ nullptr) del →
  filter (λ v, ¬ is_protected hps v ∧ v ≠ nullptr) del
  = filter (λ v, ¬ is_protected hps v) del.
Proof.
  induction 1 as [|v del Hv _ IH]; [done|].
  destruct (is_protected hps v) eqn:Hp.
  - rewrite !filter_cons_False by (rewrite Hp; (simpl; tauto)). done.
  - rewrite !filter_cons_True by (rewrite Hp; (simpl; tauto)). by rewrite IH.
Qed.

Lemma scan_slot_all_protected hps (del : list N) :
  filter (λ v, ¬ is_protected hps v) del = [] → scan_slot hps <$> del = del.
Proof.
  induction del as [|v del IH]; [done|]. intros Hf.
  rewrite fmap_cons. unfold scan_slot at 1.
  destruct (is_protected hps v) eqn:Hp.
  - rewrite filter_cons_False in Hf by (rewrite Hp; (simpl; tauto)).
    by rewrite IH.
  - rewrite filter_cons_True in Hf by (rewrite Hp; (simpl; tauto)). done.
Qed.

Lemma dec32_iter k R :
  k ≤ R → (N.of_nat R < 4294967296)%N →
  Nat.iter k dec32 (N.of_nat R) = N.of_nat (R - k).
Proof.
  intros Hk HR. induction k as [|k IH]; [by rewrite Nat.sub_0_r|].
  simpl. rewrite IH by lia. unfold dec32, u32.
  replace (N.of_nat (R - k) + 4294967295)%N
    with (N.of_nat (R - S k) + 1 * 4294967296)%N by lia.
  rewrite N.Div0.mod_add, N.mod_small; lia.
Qed.

Lemma length_filter_split hps (del : list N) :
  length (filter (λ v, is_protected hps v) del)
  + length (filter (λ v, ¬ is_protected hps v) del) = length del.
Proof.
  induction del as [|v del IH]; [done|].
  destruct (is_protected hps v) eqn:Hp.
  - rewrite filter_cons_True by (by rewrite Hp).
    rewrite (filter_cons_False (λ v, ¬ is_protected hps v))
      by (rewrite Hp; (simpl; tauto)).
    simpl. lia.
  - rewrite filter_cons_False by (rewrite Hp; (simpl; tauto)).
    rewrite (filter_cons_True (λ v, ¬ is_protected hps v))
      by (rewrite Hp; (simpl; tauto)).
    simpl. lia.
Qed.

(** C9: [reclaim] on a full retire buffer of [R] pointers returns. If the
    snapshot protects every pointer, all [R] are pushed on the domain's delete
    list, once each, and the buffer is emptied with [del_index] 0. Otherwise
    each unprotected pointer is freed, and the protected ones end up, in some
    order, in [deleted[0 .. del_index)] with every later slot null. *)
Theorem reclaim_full_buffer fuel R s :
  let captured := snapshot_copy (pools_head (domain s)) in
  let del := deleted (context s) in
  0 < length captured → snapshot_fits (pools_head (domain s)) →
  length captured ≤ fuel → R < fuel →
  0 < R → (N.of_nat R < 4294967296)%N →
  length del = R → del_index (context s) = N.of_nat R →
  Forall (λ v, v ≠ nullptr) del →
  ∃ hps s',
    snapshot_new fuel (domain s) = Done hps ∧
    reclaim fuel R s = Done s' ∧
    let kept := filter (λ v, is_protected hps v) del in
    let dropped := filter (λ v, ¬ is_protected hps v) del in
    if decide (dropped = []) then
      pools_head (domain s') = pools_head (domain s) ∧
      delete_head (domain s') = reverse del ++ delete_head (domain s) ∧
      deleted (context s') = replicate R nullptr ∧
      del_index (context s') = 0%N ∧
      freed s' = freed s
    else
      domain s' = domain s ∧
      freed s' = freed s ++ dropped ∧
      del_index (context s') = N.of_nat (length kept) ∧
      take (length kept) (deleted (context s')) ≡ₚ kept ∧
      drop (length kept) (deleted (context s'))
        = replicate (R - length kept) nullptr.
Proof.
  intros captured del Hpos Hfits Hfuel HRfuel HR0 HR32 Hlen Hdi Hnn.
  destruct (snapshot_new_spec fuel (domain s) Hpos Hfits Hfuel)
    as (hps & k & nz & Hnew & _ & _ & _ & _ & Hsearch).
  assert (Htot : ∀ p, ∃ b, search hps p = Done b).
  { intros p. destruct (Hsearch p) as (b & Hb & _). eauto. }
  exists hps. unfold reclaim. rewrite Hnew.
  pose proof (reclaim_scan_spec hps Htot del [] (del_index (context s)) (freed s))
    as Hscan.
  simpl in Hscan. fold del in Hscan. rewrite Hlen in Hscan.
  replace {| deleted := del; del_index := del_index (context s) |}
    with (context s) in Hscan by (by destruct (context s)).
  rewrite Hscan. clear Hscan.
  rewrite filter_unprotected_nonnull by done.
  pose proof (length_filter_split hps del) as Hsplit.
  set (kept := filter (λ v, is_protected hps v) del) in *.
  set (dropped := filter (λ v, ¬ is_protected hps v) del) in *.
  rewrite Hdi, dec32_iter by lia. cbn [del_index Hazp.deleted].
  destruct (decide (dropped = [])) as [Hnil|Hsome].
  - rewrite Hnil. simpl. rewrite Nat.sub_0_r, N.eqb_refl.
    rewrite scan_slot_all_protected by done.
    pose proof (enqueue_for_delete_n_spec del [] (domain s)) as Henq.
    simpl in Henq. rewrite Hlen in Henq. rewrite Henq.
    eexists. split; [done|]. simpl.
    assert (filter (λ v, v ≠ nullptr) del = del) as ->.
    { clear -Hnn. induction Hnn as [|v l Hv _ IH]; [done|].
      rewrite filter_cons_True by done. by rewrite IH. }
    rewrite app_nil_r. done.
  - assert (Hd : 0 < length dropped) by (destruct dropped; [done|simpl; lia]).
    destruct (N.eqb_spec (N.of_nat (R - length dropped)) (N.of_nat R)) as [Heq|_];
      [lia|].
    destruct (compact_spec fuel (scan_slot hps <$> del) 0 (R - 1))
      as (del' & k' & -> & Hperm & Hl & Hdd).
    + rewrite length_fmap. lia.
    + lia.
    + lia.
    + intros i v Hi. lia.
    + intros i v Hi Hv. apply lookup_lt_Some in Hv. rewrite length_fmap in Hv. lia.
    + eexists. split; [done|]. split; [done|]. simpl.
      split; [done|]. split; [done|].
      destruct (live_dead_partition del' k' Hl Hdd) as [Hfil Hdrop].
      assert (Hlen' : length del' = R)
        by (rewrite (Permutation_length Hperm), length_fmap; done).
      assert (Hkept : take k' del' ≡ₚ kept).
      { rewrite <- Hfil, Hperm. rewrite (filter_scan_slot hps del Hnn). reflexivity. }
      assert (Hk' : length kept = k' `min` R)
        by (rewrite <- (Permutation_length Hkept), length_take, Hlen'; done).
      split; [f_equal; lia|].
      destruct (decide (k' ≤ R)) as [Hle|Hgt].
      * replace (length kept) with k' by lia. split; [exact Hkept|].
        by rewrite Hdrop, Hlen'.
      * replace (length kept) with R by lia.
        rewrite take_ge in Hkept by lia.
        rewrite take_ge, drop_ge by lia. split; [exact Hkept|].
        by rewrite Nat.sub_diag.
Qed.


Lemma reclaim_full_buffer_witness :
  ∃ hps s', snapshot_new 40 (domain retire_sample) = Done hps ∧
            reclaim 40 3 retire_sample = Done s'.
Proof.
  destruct (reclaim_full_buffer 40 3 retire_sample)
    as (hps & s' & Hnew & Hrec & _).
  - simpl. lia.
  - reflexivity.
  - simpl. lia.
  - lia.
  - lia.
  - reflexivity.
  - reflexivity.
  - reflexivity.
  - by repeat constructor.
  - exists hps, s'. by split.
Defined.

End Reclaim.

(** ** Bit reversal and keys *)

Section Keys.
Import SoList.

Lemma rev_bits_mono n a b :
  (∀ i, N.testbit a i = true → N.testbit b i = true) →
  (rev_bits n a ≤ rev_bits n b)%N.
Proof.
  intros Hab. induction n as [|n IH]; [done|]. simpl.
  destruct (N.testbit a (N.of_nat n)) eqn:Ha.
  - rewrite (Hab _ Ha). lia.
  - destruct (N.testbit b (N.of_nat n)); lia.
Qed.

Lemma reverse_hasht_bits_mod h k :
  (reverse_hasht_bits (h mod 2 ^ k) ≤ reverse_hasht_bits h)%N.
Proof.
  apply rev_bits_mono. intros i Hi.
  destruct (N.lt_ge_cases i k) as [Hlt|Hge].
  - by rewrite N.mod_pow2_bits_low in Hi.
  - by rewrite N.mod_pow2_bits_high in Hi.
Qed.

Lemma rev_bits_bound n h :
  n ≤ 32 → (rev_bits n h + 2 ^ (32 - N.of_nat n) ≤ 4294967296)%N.
Proof.
  induction n as [|n IH]; intros Hn; [by vm_compute|].
  specialize (IH ltac:(lia)). simpl rev_bits.
  rewrite N.shiftl_1_l.
  replace (32 - N.of_nat n)%N with (N.succ (31 - N.of_nat n)) in IH by lia.
  rewrite N.pow_succ_r' in IH.
  replace (32 - N.of_nat (S n))%N with (31 - N.of_nat n)%N by lia.
  generalize dependent (2 ^ (31 - N.of_nat n))%N. intros p IH.
  destruct (N.testbit h (N.of_nat n)); lia.
Qed.

Lemma reverse_hasht_bits_lt h : (reverse_hasht_bits h < 4294967296)%N.
Proof.
  pose proof (rev_bits_bound 32 h ltac:(lia)) as H.
  unfold reverse_hasht_bits. simpl N.of_nat in H. simpl N.sub in H.
  change (2 ^ 0)%N with 1%N in H. lia.
Qed.

Lemma rev_bits_zero n h :
  rev_bits n h = 0%N → ∀ i, i < n → N.testbit h (N.of_nat i) = false.
Proof.
  induction n as [|n IH]; intros H0 i Hi; [lia|].
  simpl in H0.
  destruct (N.testbit h (N.of_nat n)) eqn:Hb.
  - rewrite N.shiftl_1_l in H0.
    pose proof (N.pow_nonzero 2 (31 - N.of_nat n) ltac:(lia)) as Hp.
    generalize dependent (2 ^ (31 - N.of_nat n))%N. intros p ? ?. lia.
  - destruct (decide (i = n)) as [->|Hne]; [done|].
    apply IH; lia.
Qed.

Lemma reverse_hasht_bits_nonzero h :
  h ≠ 0%N → (h < 4294967296)%N → reverse_hasht_bits h ≠ 0%N.
Proof.
  intros Hh Hlt Hrev. apply Hh. apply N.bits_inj_0. intros i.
  destruct (N.lt_ge_cases i 32) as [Hi|Hi].
  - replace i with (N.of_nat (N.to_nat i)) by lia.
    apply (rev_bits_zero 32 h Hrev). lia.
  - rewrite <- (N.mod_small h (2 ^ 32)) by (change (2 ^ 32)%N with 4294967296%N; lia).
    by apply N.mod_pow2_bits_high.
Qed.

Lemma databit_cases x :
  (N.lor x DATABIT = x ∧ N.land x DATABIT = 1)%N ∨
  (N.lor x DATABIT = x + 1 ∧ N.land x DATABIT = 0)%N.
Proof.
  unfold DATABIT. destruct x as [|[p|p|]]; simpl; auto; right; split; lia.
Qed.

Lemma sol_node_key_odd h : N.land (sol_node_key h) DATABIT = 1%N.
Proof.
  unfold sol_node_key.
  destruct (databit_cases (reverse_hasht_bits h)) as [[-> ?]|[_ He]]; [done|].
  rewrite N.land_lor_distr_l, He. done.
Qed.

Lemma sol_node_key_ge h : (reverse_hasht_bits h ≤ sol_node_key h)%N.
Proof.
  unfold sol_node_key.
  destruct (databit_cases (reverse_hasht_bits h)) as [[-> ?]|[-> _]]; lia.
Qed.

Lemma even_lt_2 x y : N.land x DATABIT = 0%N → N.land y DATABIT = 0%N →
  (x < y)%N → (x + 1 < y)%N.
Proof.
  unfold DATABIT. destruct x as [|[p|p|]], y as [|[q|q|]]; simpl; try done; lia.
Qed.

Lemma sol_node_key_lt h : (sol_node_key h < 4294967296)%N.
Proof.
  pose proof (reverse_hasht_bits_lt h) as Hlt. unfold sol_node_key.
  destruct (databit_cases (reverse_hasht_bits h)) as [[-> ?]|[-> He]]; [done|].
  apply even_lt_2; [done|done|done].
Qed.

End Keys.

(** ** The split-ordered list: scenarios *)

Section Scenarios.
Import SoList.
Context {T : Type}.

Lemma get_parent_scan_reaches_head buckets b0 :
  buckets !! 0 = Some b0 → b0 ≠ nullptr →
  ∀ slot c, S slot ≤ length buckets →
    get_parent_scan (S slot) buckets c = Done b0.
Proof.
  intros H0 Hb0. induction slot as [|s IH]; intros c Hlen.
  - simpl. rewrite H0. by destruct (N.eqb_spec b0 nullptr).
  - destruct (lookup_lt_is_Some_2 buckets (S s)) as [b Hb]; [lia|].
    change (get_parent_scan (S (S s)) buckets c)
      with (match buckets !! S s with
            | None => Fault OutOfBounds
            | Some b => get_parent_scan (S s) buckets
                          (if (b =? nullptr)%N then c else b)
            end).
    rewrite Hb. apply IH. lia.
Qed.

(** C10: whatever the slot and whatever other buckets are initialised, the
    downward scan of [get_parent] ends with [prev] and [cur] at [buckets[0]]:
    its last iteration looks at slot 0, which is not null, and overwrites
    what an earlier iteration found. So a run of [get_parent] is the loop
    [while (nullptr != next && next->key < key) advance();] started with
    [prev = cur = buckets[0]] and [next] the successor of [buckets[0]]: the
    search for the insertion point starts at the head sentinel. *)
Theorem get_parent_starts_at_head fuel (slot key : N) (w : state T) b0 nb0 :
  so_buckets (so_list w) !! 0 = Some b0 → b0 ≠ nullptr →
  heap w !! b0 = Some nb0 →
  N.to_nat slot ≤ length (so_buckets (so_list w)) →
  (∀ c, 0 < N.to_nat slot →
     get_parent_scan (N.to_nat slot) (so_buckets (so_list w)) c = Done b0) ∧
  get_parent fuel slot key w
  = walk_while fuel (λ n, (b_key n <? key)%N) false
      (set_acc w {| cur := b0; next := mp_ptr (b_next nb0); prev := b0;
                    steps := steps (acc w) |}).
Proof.
  intros H0 Hb0 Hnb0 Hlen.
  assert (Hhead : ∀ c, 0 < N.to_nat slot →
            get_parent_scan (N.to_nat slot) (so_buckets (so_list w)) c
            = Done b0).
  { intros c Hpos. destruct (N.to_nat slot) as [|s]; [lia|].
    by apply get_parent_scan_reaches_head. }
  split; [exact Hhead|].
  assert (Hscan : get_parent_scan (N.to_nat slot) (so_buckets (so_list w)) b0
                  = Done b0).
  { destruct (N.to_nat slot) as [|s] eqn:Hs; [done|]. apply Hhead. lia. }
  unfold get_parent, bind, bucket_at, get, lift, deref, set_cursor.
  change (N.to_nat 0) with 0. rewrite H0, Hscan, Hnb0. done.
Qed.

End Scenarios.

Section ScenarioRuns.
Import SoList.

Lemma get_parent_starts_at_head_witness :
  ∃ (w w' : state unit) nb0,
    three_inserted tt tt tt = Done ([true; true; true], w) ∧
    so_buckets (so_list w) = [1; 5]%N ∧
    heap w !! 1%N = Some nb0 ∧
    get_parent_scan 2 (so_buckets (so_list w)) 5%N = Done 1%N ∧
    get_parent 20 2 1073741824 w
    = walk_while 20 (λ n, (b_key n <? 1073741824)%N) false
        (set_acc w {| cur := 1; next := mp_ptr (b_next nb0); prev := 1;
                      steps := steps (acc w) |}) ∧
    get_parent 20 2 1073741824 w = Done (tt, w') ∧
    prev (acc w') = 2%N ∧ cur (acc w') = 4%N ∧ next (acc w') = 3%N.
Proof.
  eexists _, _, _. split; [vm_compute; reflexivity|]. split; [reflexivity|].
  split; [vm_compute; reflexivity|].
  split.
  { refine (proj1 (get_parent_starts_at_head 20 2%N 1073741824%N _ 1%N _
                     _ _ _ _) 5%N _).
    - reflexivity.
    - discriminate.
    - vm_compute; reflexivity.
    - simpl. lia.
    - simpl. lia. }
  split.
  { refine (proj2 (get_parent_starts_at_head 20 2%N 1073741824%N _ 1%N _
                     _ _ _ _)).
    - reflexivity.
    - discriminate.
    - vm_compute; reflexivity.
    - simpl. lia. }
  split; [vm_compute; reflexivity|].
  split; [|split]; reflexivity.
Defined.

(** C6: from an empty list with [size = 2] and [max_bucket_length = 2], the
    inserts of the hashes 0, 2, 4 and 6 all succeed; the size is still 2
    after the third and 4 after the fourth; [buckets[2]] then points to the
    dummy node of bucket 2; and [find_node] finds each of the four hashes. *)
Theorem forced_expansion (T : Type) (v0 v2 v4 v6 : T) :
  ∃ w3 w4,
    three_inserted v0 v2 v4 = Done ([true; true; true], w3) ∧
    so_size (so_list w3) = 2%N ∧
    insert_node 20 6 v6 w3 = Done (true, w4) ∧
    so_size (so_list w4) = 4%N ∧
    (∃ p b, so_buckets (so_list w4) !! 2 = Some p ∧ p ≠ nullptr ∧
            heap w4 !! p = Some b ∧ is_node b = false ∧
            b_key b = reverse_hasht_bits 2) ∧
    Forall (λ h, ∃ w', find_node 20 h w4 = Done (true, w')) [0; 2; 4; 6]%N.
Proof.
  eexists _, _. split; [vm_compute; reflexivity|].
  split; [reflexivity|]. split; [vm_compute; reflexivity|].
  split; [reflexivity|]. split.
  - eexists _, _. split; [reflexivity|]. split; [discriminate|].
    split; [vm_compute; reflexivity|]. split; reflexivity.
  - repeat constructor; eexists; vm_compute; reflexivity.
Qed.


(** C4 (the code does not do what the claim says): when [find_node] does not
    find the hash, [find_item_node] executes no [return]: there is no null
    result, the value is undefined. *)
Theorem find_item_node_absent_no_return {T} fuel h (w w' : state T) :
  find_node fuel h w = Done (false, w') →
  find_item_node fuel h w = Fault NoReturnValue.
Proof.
  intros Hfind. unfold find_item_node, bind. by rewrite Hfind.
Qed.

Lemma find_item_node_absent_no_return_witness :
  ∃ w, inserted_then_removed = Done (true, w) ∧
       find_item_node 20 5 w = Fault NoReturnValue.
Proof.
  eexists. split; [vm_compute; reflexivity|].
  eapply (find_item_node_absent_no_return 20 5%N).
  vm_compute. reflexivity.
Defined.

(** C3 (the code does not do what the claim says): on a list whose node for
    hash 5 has been marked by a [delete_node] that has not yet unlinked it,
    [find_node 5] walks over the mark: it unlinks nothing (the heap is
    unchanged) and answers true with [cur] at the marked node. *)
Theorem find_node_reports_marked_node :
  ∃ w wm w' b,
    one_inserted = Done (true, w) ∧
    delete_node_mark_only 20 5 w = Done (true, wm) ∧
    find_node 20 5 wm = Done (true, w') ∧
    heap w' = heap wm ∧
    heap w' !! cur (acc w') = Some b ∧
    b_key b = sol_node_key 5 ∧
    mp_mark (b_next b) = true.
Proof.
  eexists _, _, _, _. split; [vm_compute; reflexivity|].
  split; [vm_compute; reflexivity|].
  split; [vm_compute; reflexivity|].
  split; [vm_compute; reflexivity|].
  split; [vm_compute; reflexivity|].
  split; reflexivity.
Qed.

(** C2 (the code does not do what the claim says): on the list holding the
    hash 5 alone, [delete_node 5] succeeds, takes [n_items] from 1 to 0 and
    hands the unlinked node to [delete] itself: when it returns the node is
    in the freed list and no longer allocated; nothing was retired for a
    later [collect]. *)
Theorem delete_node_frees_in_place :
  ∃ (w w' : state unit) b,
    one_inserted = Done (true, w) ∧
    heap w !! 2%N = Some b ∧ b_key b = sol_node_key 5 ∧
    so_n_items (so_list w) = 1%N ∧ freed w = [] ∧
    delete_node 20 5 w = Done (true, w') ∧
    so_n_items (so_list w') = 0%N ∧
    heap w' !! 2%N = None ∧ freed w' = [2%N] ∧
    ¬ ((2%N ∉ freed w') ∧ is_Some (heap w' !! 2%N)).
Proof.
  eexists _, _, _. split; [vm_compute; reflexivity|].
  split; [vm_compute; reflexivity|]. split; [vm_compute; reflexivity|].
  split; [reflexivity|]. split; [reflexivity|].
  split; [vm_compute; reflexivity|].
  split; [reflexivity|]. split; [vm_compute; reflexivity|].
  split; [reflexivity|].
  intros [Hnot _]. apply Hnot. vm_compute. left.
Qed.

End ScenarioRuns.

(** ** Chains in the heap *)

Section Chains.
Import SoList.
Context {T : Type}.
Implicit Types (h : gmap N (solist_bucket T)) (l : list (N * solist_bucket T)).

Lemma elem_of_mid {A} (pre post : list A) x : x ∈ pre ++ x :: post.
Proof. apply elem_of_app. right. left. Qed.

Lemma elem_of_mid2 {A} (pre post : list A) x y : y ∈ pre ++ x :: y :: post.
Proof. apply elem_of_app. right. right. left. Qed.

Lemma elem_of_mid_r {A} (pre post : list A) x y : y ∈ post → y ∈ pre ++ x :: post.
Proof. intros. apply elem_of_app. right. by right. Qed.

Lemma lseg_app h p q r l1 l2 :
  lseg h p q l1 → lseg h q r l2 → lseg h p r (l1 ++ l2).
Proof.
  induction 1 as [|p q b l Hp Hb Hl IH]; intros H2; [done|].
  simpl. constructor; auto.
Qed.

Lemma lseg_split h p r l1 l2 :
  lseg h p r (l1 ++ l2) → ∃ q, lseg h p q l1 ∧ lseg h q r l2.
Proof.
  revert p. induction l1 as [|x l1 IH]; intros p H.
  - exists p. split; [constructor|done].
  - inversion H as [|? ? b ? Hp Hb Hl]; subst.
    destruct (IH _ Hl) as (q & H1 & H2).
    exists q. split; [by constructor|done].
Qed.

Lemma lseg_head h p q x l : lseg h p q (x :: l) → x.1 = p ∧ p ≠ nullptr.
Proof. inversion 1; subst. by split. Qed.

Lemma lseg_lookup h p q l a b :
  lseg h p q l → (a, b) ∈ l → h !! a = Some b ∧ a ≠ nullptr.
Proof.
  induction 1 as [|p q b' l Hp Hb Hl IH]; intros Hin.
  - by apply elem_of_nil in Hin.
  - apply elem_of_cons in Hin as [Heq|Hin]; [by simplify_eq|auto].
Qed.

Lemma lseg_frame_insert h p q l a b :
  lseg h p q l → a ∉ l.*1 → lseg (<[a := b]> h) p q l.
Proof.
  induction 1 as [|p q b' l Hp Hb Hl IH]; intros Ha; [constructor|].
  rewrite fmap_cons in Ha. apply not_elem_of_cons in Ha as [Hne Ha].
  constructor; auto. by rewrite lookup_insert_ne.
Qed.

Lemma lseg_frame_delete h p q l a :
  lseg h p q l → a ∉ l.*1 → lseg (delete a h) p q l.
Proof.
  induction 1 as [|p q b' l Hp Hb Hl IH]; intros Ha; [constructor|].
  rewrite fmap_cons in Ha. apply not_elem_of_cons in Ha as [Hne Ha].
  constructor; auto. by rewrite lookup_delete_ne.
Qed.

(** The next pointer of a node of the chain is the address of its successor,
    or the end of the segment. *)
Lemma lseg_next h p q l1 x l2 :
  lseg h p q (l1 ++ x :: l2) →
  mp_ptr (b_next x.2) = match l2 with [] => q | y :: _ => y.1 end.
Proof.
  intros H. apply lseg_split in H as (r & _ & H).
  inversion H as [|? ? b ? Hp Hb Hl]; subst. simpl.
  inversion Hl; subst; done.
Qed.

Lemma sorted_fst_NoDup h p q l :
  lseg h p q l → StronglySorted N.lt (keys l) → NoDup l.*1.
Proof.
  intros Hl. induction Hl as [|p q b l Hp Hb Hl IH]; intros Hs.
  - constructor.
  - rewrite fmap_cons. unfold keys in Hs. rewrite fmap_cons in Hs.
    inversion Hs as [|? ? Hs' Hx]; subst.
    constructor; [|by auto].
    intros Hin. apply list_elem_of_fmap in Hin as ([a b'] & Ha & Hin).
    simpl in Ha. subst a.
    destruct (lseg_lookup _ _ _ _ _ _ Hl Hin) as [Hb' _].
    rewrite List.Forall_forall in Hx.
    assert (Hk : b_key b' ∈ (λ x, b_key x.2) <$> l).
    { apply list_elem_of_fmap. by exists (p, b'). }
    apply list_elem_of_In, Hx in Hk. simpl in Hk. simplify_eq. lia.
Qed.

Lemma sorted_length_bound (ks : list N) lo B :
  StronglySorted N.lt ks → Forall (λ k, (lo ≤ k)%N) ks →
  Forall (λ k, (k < B)%N) ks → (N.of_nat (length ks) + lo ≤ N.max lo B)%N.
Proof.
  intros Hs. revert lo. induction Hs as [|k ks Hs IH Hk]; intros lo Hlo HB.
  - simpl. lia.
  - inversion Hlo as [|? ? Hlo1 Hlo2]; inversion HB as [|? ? HB1 HB2]; subst.
    specialize (IH (k + 1)%N).
    assert (Hnext : Forall (λ k0 : N, (k + 1 ≤ k0)%N) ks).
    { eapply List.Forall_impl; [|exact Hk]. simpl. intros. lia. }
    specialize (IH Hnext HB2). simpl length. lia.
Qed.

End Chains.

(** ** The cursor *)

Section Cursor.
Import SoList.
Context {T : Type}.
Implicit Types (w : state T) (l : list (N * solist_bucket T)).

Lemma set_acc_acc w : set_acc w (acc w) = w.
Proof. by destruct w. Qed.

Lemma set_acc_set_acc w a a' : set_acc (set_acc w a) a' = set_acc w a'.
Proof. done. Qed.

Lemma advance_run w c b :
  next (acc w) = c → c ≠ nullptr → heap w !! c = Some b →
  advance w = Done (tt, set_acc w {| cur := c; next := mp_ptr (b_next b);
                                     prev := cur (acc w);
                                     steps := steps (acc w) |}).
Proof.
  intros Hn Hc Hb. unfold advance, bind, get, set_cursor, deref, set_next_field.
  simpl. rewrite Hn. destruct (N.eqb_spec c nullptr) as [|_]; [done|].
  simpl. by rewrite Hb.
Qed.

Lemma last_cons_default (x z : N) (l : list N) d d' :
  List.last (x :: l) d = List.last (z :: x :: l) d'.
Proof.
  revert x z. induction l as [|y l IH]; intros x z; [done|].
  change (List.last (y :: l) d = List.last (x :: y :: l) d').
  apply IH.
Qed.

(** The walks never touch the heap or the list: only the cursor moves. It
    stops on the last node of the chain that satisfies [cond] in a row. *)
Lemma walk_while_spec cond count :
  ∀ fuel w w' c bc rest,
    cur (acc w) = c → next (acc w) = mp_ptr (b_next bc) →
    lseg (heap w) c nullptr ((c, bc) :: rest) →
    walk_while fuel cond count w = Done (tt, w') →
    ∃ pre x post a',
      (c, bc) :: rest = pre ++ x :: post ∧
      w' = set_acc w a' ∧
      cur a' = x.1 ∧ next a' = mp_ptr (b_next x.2) ∧
      prev a' = List.last pre.*1 (prev (acc w)) ∧
      Forall (λ y, cond y.2 = true) (tail (pre ++ [x])) ∧
      match post with [] => True | y :: _ => cond y.2 = false end.
Proof.
  induction fuel as [|f IH]; intros w w' c bc rest Hc Hn Hl Hrun; [done|].
  inversion Hl as [|? ? ? ? Hc0 Hbc Hrest]; subst.
  simpl in Hrun. unfold bind at 1, get in Hrun.
  destruct (N.eqb_spec (next (acc w)) nullptr) as [Hnull|Hnn].
  - injection Hrun as <-.
    exists [], (cur (acc w), bc), rest, (acc w).
    rewrite set_acc_acc. repeat split; auto.
    rewrite <- Hn, Hnull in Hrest. inversion Hrest; subst; done.
  - unfold bind at 1, deref in Hrun.
    rewrite Hn in Hnn.
    inversion Hrest as [|n2 ? b2 rest2 Hn2 Hb2 Hrest2]; subst; [done|].
    rewrite Hn, Hb2 in Hrun.
    destruct (cond b2) eqn:Hcond.
    + unfold bind at 1 in Hrun.
      rewrite (advance_run w _ b2 Hn Hn2 Hb2) in Hrun.
      set (w1 := set_acc w _) in Hrun.
      assert (∃ a1, cur a1 = mp_ptr (b_next bc) ∧ next a1 = mp_ptr (b_next b2) ∧
                    prev a1 = cur (acc w) ∧
                    walk_while f cond count (set_acc w a1) = Done (tt, w'))
        as (a1 & Hc1 & Hn1 & Hp1 & Hrun1).
      { destruct count; unfold bind, get, set_steps, ret in Hrun; simpl in Hrun;
          eexists; (split; [|split; [|split; [|exact Hrun]]]); done. }
      destruct (IH (set_acc w a1) w' _ b2 rest2 Hc1 Hn1) as
        (pre & x & post & a' & Hsplit & -> & Hcur & Hnext & Hprev & Hall & Hpost);
        [by constructor|done|].
      exists ((cur (acc w), bc) :: pre), x, post, a'.
      split; [by rewrite Hsplit|]. split; [done|].
      split; [done|]. split; [done|]. split.
      * simpl in Hprev. rewrite Hp1 in Hprev. rewrite Hprev.
        destruct pre as [|y pre]; [done|]. rewrite !fmap_cons.
        apply last_cons_default.
      * split; [|done]. simpl.
        destruct pre as [|y pre]; simpl in *; simplify_eq;
          constructor; done.
    + injection Hrun as <-.
      exists [], (cur (acc w), bc), ((mp_ptr (b_next bc), b2) :: rest2), (acc w).
      rewrite set_acc_acc. repeat split; auto.
Qed.

End Cursor.

(** ** Linking and unlinking a node *)

Section Surgery.
Import SoList.
Context {T : Type}.
Implicit Types (h : gmap N (solist_bucket T)) (l : list (N * solist_bucket T)).

Lemma keys_app l1 l2 : keys (l1 ++ l2) = keys l1 ++ keys l2.
Proof. unfold keys. by rewrite fmap_app. Qed.

Lemma keys_cons x l : keys (x :: l) = b_key x.2 :: keys l.
Proof. done. Qed.

Lemma elem_of_keys l x : x ∈ l → b_key x.2 ∈ keys l.
Proof. intros Hx. apply list_elem_of_fmap. by exists x. Qed.

Lemma sorted_insert (ks1 ks2 : list N) k K :
  StronglySorted N.lt (ks1 ++ k :: ks2) → (k < K)%N →
  Forall (λ k', (K < k')%N) ks2 →
  StronglySorted N.lt (ks1 ++ k :: K :: ks2).
Proof.
  intros Hs HkK HK.
  apply StronglySorted_app in Hs as (H12 & H1 & H2).
  apply StronglySorted_cons in H2 as [Hk H2].
  apply StronglySorted_app. split; [|split; [done|]].
  - intros x1 x2 Hx1 Hx2.
    assert (x1 < k)%N by (apply H12; [done|left]).
    apply elem_of_cons in Hx2 as [->|Hx2]; [done|].
    apply elem_of_cons in Hx2 as [->|Hx2]; [lia|].
    apply H12; [done|by right].
  - apply StronglySorted_cons. split.
    + constructor; [done|]. done.
    + apply StronglySorted_cons. done.
Qed.

Lemma sorted_remove (ks1 ks2 : list N) k :
  StronglySorted N.lt (ks1 ++ k :: ks2) → StronglySorted N.lt (ks1 ++ ks2).
Proof.
  intros Hs.
  apply StronglySorted_app in Hs as (H12 & H1 & H2).
  apply StronglySorted_cons in H2 as [Hk H2].
  apply StronglySorted_app. split; [|done].
  intros x1 x2 Hx1 Hx2. apply H12; [done|by right].
Qed.

Lemma sorted_after (ks1 ks2 : list N) k :
  StronglySorted N.lt (ks1 ++ k :: ks2) → Forall (λ k', (k < k')%N) ks2.
Proof.
  intros Hs. apply StronglySorted_app_1_r in Hs.
  by apply StronglySorted_cons in Hs as [Hk _].
Qed.

Lemma sorted_before (ks1 ks2 : list N) k :
  StronglySorted N.lt (ks1 ++ k :: ks2) → Forall (λ k', (k' < k)%N) ks1.
Proof.
  intros Hs. apply StronglySorted_app in Hs as (H12 & _ & _).
  apply list.Forall_forall. intros x Hx. apply H12; [done|left].
Qed.

(** Linking [node] after [x]: [node->next = x->next], then [x->next = node]. *)
Lemma lseg_insert_after h b0 pre x post node nb :
  lseg h b0 nullptr (pre ++ x :: post) →
  NoDup (pre ++ x :: post).*1 →
  node ∉ (pre ++ x :: post).*1 → node ≠ nullptr →
  let nb' := set_next nb (mp_of (mp_ptr (b_next x.2))) in
  let x' := set_next x.2 (mp_of node) in
  lseg (<[x.1 := x']> (<[node := nb']> h)) b0 nullptr
       (pre ++ (x.1, x') :: (node, nb') :: post).
Proof.
  intros Hl Hnd Hnode Hn0 nb' x'.
  rewrite fmap_app, fmap_cons in Hnd, Hnode.
  apply list.NoDup_app in Hnd as (Hnd1 & Hnd2 & Hnd3).
  apply list.NoDup_cons in Hnd3 as [Hx Hnd3].
  apply not_elem_of_app in Hnode as [Hn1 Hn2].
  apply not_elem_of_cons in Hn2 as [Hn2 Hn3].
  apply lseg_split in Hl as (q & Hpre & Hrest).
  inversion Hrest as [|? ? b ? Hq Hb Hpost]; subst. simpl in *.
  eapply lseg_app.
  - apply (lseg_frame_insert _ b0 q pre q x').
    + by apply lseg_frame_insert.
    + intros Hin. apply (Hnd2 q Hin). left.
  - constructor; [done|by rewrite lookup_insert_eq|]. simpl.
    constructor; [done| |].
    + rewrite lookup_insert_ne by done. by rewrite lookup_insert_eq.
    + simpl. apply lseg_frame_insert; [apply lseg_frame_insert; done|done].
Qed.

(** Unlinking [x], the successor of [pv]: mark [x->next], set [pv->next] to
    [x->next], then [delete x]. *)
Lemma lseg_unlink h b0 pre pv x post xm :
  lseg h b0 nullptr (pre ++ pv :: x :: post) →
  NoDup (pre ++ pv :: x :: post).*1 →
  let pv' := set_next pv.2 (mp_of (mp_ptr (b_next x.2))) in
  lseg (delete x.1 (<[pv.1 := pv']> (<[x.1 := xm]> h))) b0 nullptr
       (pre ++ (pv.1, pv') :: post).
Proof.
  intros Hl Hnd pv'.
  rewrite fmap_app, !fmap_cons in Hnd.
  apply list.NoDup_app in Hnd as (Hnd1 & Hnd2 & Hnd3).
  apply list.NoDup_cons in Hnd3 as [Hpv Hnd3].
  apply list.NoDup_cons in Hnd3 as [Hx Hnd3].
  apply not_elem_of_cons in Hpv as [Hpvx Hpv].
  apply lseg_split in Hl as (q & Hpre & Hrest).
  inversion Hrest as [|? ? b ? Hq Hb Hrest']; subst. simpl in *.
  inversion Hrest' as [|? ? b' ? Hq' Hb' Hpost]; subst. simpl in *.
  eapply lseg_app.
  - apply lseg_frame_delete;
      [apply lseg_frame_insert; [apply lseg_frame_insert; [exact Hpre|]|]|].
    + intros Hin. apply (Hnd2 _ Hin). right. left.
    + intros Hin. apply (Hnd2 _ Hin). left.
    + intros Hin. apply (Hnd2 _ Hin). right. left.
  - constructor; [done| |].
    + rewrite lookup_delete_ne by done. by rewrite lookup_insert_eq.
    + simpl. apply lseg_frame_delete;
        [apply lseg_frame_insert; [apply lseg_frame_insert|]|]; done.
Qed.

End Surgery.

(** ** The invariant under the operations *)

Section Invariant.
Import SoList.
Context {T : Type}.
Implicit Types (w : state T) (l : list (N * solist_bucket T)).

Lemma wf_ext w w' l :
  heap w' = heap w → so_list w' = so_list w → brk w' = brk w →
  wf w l → wf w' l.
Proof.
  intros Hh Hl Hb [H1 H2 H3 H4 H5 H6 H7 H8 H9].
  constructor; rewrite ?Hh, ?Hl, ?Hb; done.
Qed.

Lemma wf_head w l :
  wf w l → ∃ b0 nb0 rest, so_buckets (so_list w) !! 0 = Some b0 ∧
    b0 ≠ nullptr ∧ l = (b0, nb0) :: rest ∧ heap w !! b0 = Some nb0 ∧
    b_key nb0 = 0%N ∧ is_node nb0 = false.
Proof.
  intros Hwf. destruct (wf_chain _ _ Hwf) as (b0 & H0 & Hb0 & Hl).
  destruct (wf_buckets _ _ Hwf 0 b0 H0 Hb0) as (b & Hin & Hk & Hd).
  inversion Hl as [|? ? nb0 rest Hp Hb Hrest]; subst; [done|].
  exists b0, nb0, rest. repeat split; auto.
  - apply elem_of_cons in Hin as [Heq|Hin]; [by simplify_eq|].
    pose proof (sorted_fst_NoDup _ _ _ _ Hl (wf_sorted _ _ Hwf)) as Hnd.
    rewrite fmap_cons in Hnd. apply list.NoDup_cons in Hnd as [Hnin _].
    exfalso. apply Hnin. apply list_elem_of_fmap. by exists (b0, b).
  - apply elem_of_cons in Hin as [Heq|Hin]; [by simplify_eq|].
    pose proof (sorted_fst_NoDup _ _ _ _ Hl (wf_sorted _ _ Hwf)) as Hnd.
    rewrite fmap_cons in Hnd. apply list.NoDup_cons in Hnd as [Hnin _].
    exfalso. apply Hnin. apply list_elem_of_fmap. by exists (b0, b).
Qed.

Lemma wf_addr_lt w l p :
  wf w l → p ∈ l.*1 → (p < brk w)%N ∧ p ≠ nullptr.
Proof.
  intros Hwf Hp. apply list_elem_of_fmap in Hp as ([a b] & -> & Hin).
  destruct (wf_chain _ _ Hwf) as (b0 & _ & _ & Hl).
  destruct (lseg_lookup _ _ _ _ _ _ Hl Hin) as [Hb Hnn].
  split; [|done]. destruct (wf_brk _ _ Hwf) as [_ Hbrk].
  destruct (N.lt_ge_cases a (brk w)) as [|Hge]; [done|].
  rewrite (Hbrk _ Hge) in Hb. done.
Qed.

Lemma wf_NoDup w l : wf w l → NoDup l.*1.
Proof.
  intros Hwf. destruct (wf_chain _ _ Hwf) as (b0 & _ & _ & Hl).
  eapply sorted_fst_NoDup; [exact Hl|]. exact (wf_sorted _ _ Hwf).
Qed.

Lemma same_items_refl w l : same_items w l w l.
Proof. by constructor. Qed.

Lemma same_items_trans w1 l1 w2 l2 w3 l3 :
  same_items w1 l1 w2 l2 → same_items w2 l2 w3 l3 → same_items w1 l1 w3 l3.
Proof.
  intros [A1 A2 A3 A4] [B1 B2 B3 B4]. constructor; try congruence.
  intros p b Hp Hnin. destruct (A4 p b Hp Hnin) as [Hp2 Hnin2]. by apply B4.
Qed.

Lemma get_parent_spec fuel slot K w w' l :
  wf w l → N.to_nat slot ≤ length (so_buckets (so_list w)) →
  get_parent fuel slot K w = Done (tt, w') →
  ∃ pre x post a',
    l = pre ++ x :: post ∧ w' = set_acc w a' ∧
    cur a' = x.1 ∧ next a' = mp_ptr (b_next x.2) ∧
    Forall (λ y, (b_key y.2 < K)%N) (tail (pre ++ [x])) ∧
    match post with [] => True | y :: _ => (K ≤ b_key y.2)%N end.
Proof.
  intros Hwf Hslot Hrun.
  destruct (wf_head _ _ Hwf) as (b0 & nb0 & rest & H0 & Hb0 & -> & Hnb0 & _).
  assert (Hscan : get_parent_scan (N.to_nat slot) (so_buckets (so_list w)) b0
                  = Done b0).
  { destruct (N.to_nat slot) as [|s]; [done|].
    by apply get_parent_scan_reaches_head. }
  unfold get_parent, bind, bucket_at, get, lift, deref, set_cursor in Hrun.
  change (N.to_nat 0) with 0 in Hrun. rewrite H0, Hscan, Hnb0 in Hrun.
  destruct (wf_chain _ _ Hwf) as (b0' & H0' & _ & Hl). simplify_eq.
  match type of Hrun with
  | walk_while _ _ _ ?s = _ =>
      destruct (walk_while_spec _ _ _ s w' b0 nb0 rest eq_refl eq_refl Hl Hrun)
        as (pre & x & post & a' & Hsplit & -> & Hc & Hn & _ & Hall & Hpost)
  end.
  exists pre, x, post, a'. split; [done|]. split; [done|].
  split; [done|]. split; [done|]. split.
  - eapply List.Forall_impl; [|exact Hall]. simpl. intros y Hy.
    by apply N.ltb_lt.
  - destruct post as [|y post]; [done|]. by apply N.ltb_ge.
Qed.


Lemma wf_lookup w l a b : wf w l → (a, b) ∈ l → heap w !! a = Some b ∧ a ≠ nullptr.
Proof.
  intros Hwf Hin. destruct (wf_chain _ _ Hwf) as (b0 & _ & _ & Hl).
  by eapply lseg_lookup.
Qed.

Lemma wf_next w pre x post :
  wf w (pre ++ x :: post) →
  mp_ptr (b_next x.2) = match post with [] => nullptr | y :: _ => y.1 end ∧
  mp_mark (b_next x.2) = false.
Proof.
  intros Hwf. destruct (wf_chain _ _ Hwf) as (b0 & _ & _ & Hl).
  split; [by eapply lseg_next|].
  pose proof (wf_unmarked _ _ Hwf) as Hu.
  rewrite list.Forall_forall in Hu. apply Hu, elem_of_mid.
Qed.

Lemma initialise_bucket_loop_spec fuel slot node K w1 w' l nb :
  wf w1 l →
  N.to_nat slot < length (so_buckets (so_list w1)) →
  so_buckets (so_list w1) !! N.to_nat slot = Some nullptr →
  heap w1 !! node = Some nb → node ∉ l.*1 →
  initialise_bucket_loop fuel slot node K w1 = Done (tt, w') →
  ∃ pre x post a',
    l = pre ++ x :: post ∧ cur a' = x.1 ∧ next a' = mp_ptr (b_next x.2) ∧
    Forall (λ y, (b_key y.2 < K)%N) (tail (pre ++ [x])) ∧
    let nb' := set_next nb (mp_of (mp_ptr (b_next x.2))) in
    ((∃ y post', post = y :: post' ∧ b_key y.2 = K ∧
        w' = {| heap := <[node := nb']> (heap w1);
                brk := brk w1; freed := freed w1; so_list := so_list w1;
                acc := a' |})
     ∨ (match post with [] => True | y :: _ => (K < b_key y.2)%N end ∧
        w' = {| heap := <[x.1 := set_next x.2 (mp_of node)]>
                          (<[node := nb']> (heap w1));
                brk := brk w1; freed := freed w1; so_list := so_list w1;
                acc := a' |})).
Proof.
  intros Hwf Hslot Hbucket Hnode Hfresh Hrun.
  destruct fuel as [|f]; [done|]. simpl in Hrun. unfold bind at 1 in Hrun.
  destruct (get_parent f slot K w1) as [[[] w2]| |] eqn:Hgp; try done.
  apply (get_parent_spec _ _ _ _ _ l Hwf) in Hgp
    as (pre & x & post & a' & -> & -> & Hc & Hn & Hall & Hpost); [|lia].
  exists pre, x, post, a'. split; [done|]. split; [done|]. split; [done|].
  split; [done|]. intros nb'.
  destruct (wf_next _ _ _ _ Hwf) as [Hnext Hmark].
  destruct (wf_lookup _ _ x.1 x.2 Hwf) as [Hx Hx0]; [destruct x; apply elem_of_mid|].
  assert (Hxn : x.1 ≠ node).
  { intros Heq. apply Hfresh. rewrite <- Heq, fmap_app, fmap_cons. apply elem_of_mid. }
  unfold bind at 1, get in Hrun. unfold bind at 1, deref in Hrun.
  simpl in Hrun. rewrite Hnode in Hrun.
  unfold bind at 1, store in Hrun. unfold bind at 1, bucket_at in Hrun.
  simpl in Hrun. rewrite Hbucket in Hrun. simpl in Hrun.
  rewrite Hn in Hrun. fold nb' in Hrun.
  unfold bind at 1 in Hrun.
  destruct post as [|y post].
  - rewrite Hnext in Hrun. simpl in Hrun.
    unfold ret at 1 in Hrun. unfold bind at 1, deref in Hrun. simpl in Hrun.
    rewrite Hc in Hrun. rewrite lookup_insert_ne in Hrun by done.
    rewrite Hx in Hrun. unfold mp_CAS in Hrun.
    rewrite Hnext, Hmark in Hrun. simpl in Hrun.
    unfold bind, store, ret in Hrun. simpl in Hrun.
    right. split; [done|]. by simplify_eq.
  - destruct (wf_lookup _ _ y.1 y.2 Hwf) as [Hy Hy0];
      [destruct y; apply elem_of_mid2|].
    assert (Hyn : y.1 ≠ node).
    { intros Heq. apply Hfresh. rewrite <- Heq, fmap_app, !fmap_cons. apply elem_of_mid2. }
    rewrite Hnext in Hrun.
    destruct (N.eqb_spec y.1 nullptr) as [|_]; [done|].
    unfold bind at 1, deref in Hrun. simpl in Hrun.
    rewrite lookup_insert_ne in Hrun by done. rewrite Hy in Hrun.
    unfold ret at 1 in Hrun.
    destruct (N.eqb_spec (b_key y.2) K) as [HyK|HyK].
    + unfold ret in Hrun. left. exists y, post.
      split; [done|]. split; [done|]. by simplify_eq.
    + unfold bind at 1, deref in Hrun. simpl in Hrun.
      rewrite Hc in Hrun. rewrite lookup_insert_ne in Hrun by done.
      rewrite Hx in Hrun. unfold mp_CAS in Hrun.
      rewrite Hnext, N.eqb_refl, Hmark in Hrun. simpl in Hrun.
      unfold bind, store, ret in Hrun. simpl in Hrun.
      right. split; [lia|]. by simplify_eq.
Qed.


Lemma data_items_app l1 l2 : data_items (l1 ++ l2) = data_items l1 ++ data_items l2.
Proof. unfold data_items. by rewrite list.filter_app, fmap_app. Qed.

Lemma data_items_cons x l :
  data_items (x :: l)
  = (if is_node x.2 then [(x.1, b_key x.2)] else []) ++ data_items l.
Proof.
  unfold data_items. destruct (is_node x.2) eqn:Hx.
  - rewrite filter_cons_True by (simpl; by rewrite Hx). done.
  - rewrite filter_cons_False by (simpl; rewrite Hx; simpl; tauto). done.
Qed.

Lemma is_node_set_next (b : solist_bucket T) m : is_node (set_next b m) = is_node b.
Proof. done. Qed.

Lemma wf_new_bucket w l nb :
  wf w l →
  wf {| heap := <[brk w := nb]> (heap w); brk := (brk w + 1)%N;
        freed := freed w; so_list := so_list w; acc := acc w |} l ∧
  (brk w ∉ l.*1) ∧ brk w ≠ nullptr ∧ heap w !! brk w = None.
Proof.
  intros Hwf. destruct (wf_brk _ _ Hwf) as [Hpos Hfree].
  assert (Hfresh : brk w ∉ l.*1).
  { intros Hin. apply (wf_addr_lt _ _ _ Hwf) in Hin. lia. }
  split; [|split; [done|split; [unfold nullptr; lia|apply Hfree; lia]]].
  destruct Hwf as [(b0 & H0 & Hb0 & Hl) H2 H3 H4 H5 H6 H7 H8 H9].
  constructor; simpl; auto.
  - exists b0. split; [done|]. split; [done|]. by apply lseg_frame_insert.
  - split; [lia|]. intros p Hp. rewrite lookup_insert_ne by lia.
    apply Hfree. lia.
Qed.

(** The chain after linking [node] behind [x]. *)
Lemma link_chain w b0 pre x post node nb :
  wf w (pre ++ x :: post) → so_buckets (so_list w) !! 0 = Some b0 →
  node ∉ (pre ++ x :: post).*1 → node ≠ nullptr →
  (b_key x.2 < b_key nb)%N → (b_key nb < 4294967296)%N →
  match post with [] => True | y :: _ => (b_key nb < b_key y.2)%N end →
  let nb' := set_next nb (mp_of (mp_ptr (b_next x.2))) in
  let x' := set_next x.2 (mp_of node) in
  let l' := pre ++ (x.1, x') :: (node, nb') :: post in
  lseg (<[x.1 := x']> (<[node := nb']> (heap w))) b0 nullptr l' ∧
  StronglySorted N.lt (keys l') ∧
  Forall (λ y, mp_mark (b_next y.2) = false) l' ∧
  Forall (λ k, (k < 4294967296)%N) (keys l') ∧
  (∀ p b, (p, b) ∈ pre ++ x :: post →
          ∃ b', (p, b') ∈ l' ∧ b_key b' = b_key b ∧ is_node b' = is_node b) ∧
  data_items l' = data_items pre ++ data_items [x]
                  ++ data_items [(node, nb)] ++ data_items post.
Proof.
  intros Hwf H0 Hfresh Hn0 HxK HK32 Hpost nb' x' l'.
  pose proof (wf_NoDup _ _ Hwf) as Hnd.
  pose proof (wf_sorted _ _ Hwf) as Hs.
  pose proof (wf_unmarked _ _ Hwf) as Hu.
  pose proof (wf_key32 _ _ Hwf) as H32.
  destruct (wf_chain _ _ Hwf) as (b0' & H0' & _ & Hl). simplify_eq.
  split; [by apply lseg_insert_after|].
  rewrite keys_app, keys_cons in Hs, H32.
  split; [|split; [|split; [|split]]].
  - unfold l'. rewrite keys_app, !keys_cons. simpl.
    apply sorted_insert; [done|done|].
    pose proof (sorted_after _ _ _ Hs) as Hafter.
    destruct post as [|y post]; [constructor|].
    rewrite keys_cons in Hafter |- *.
    apply StronglySorted_app_1_r in Hs.
    apply StronglySorted_cons in Hs as [_ Hs].
    apply StronglySorted_cons in Hs as [Hy _].
    constructor; [done|].
    eapply List.Forall_impl; [|exact Hy]. simpl. intros. lia.
  - apply Forall_app in Hu as [Hu1 Hu2]. inversion Hu2; subst.
    unfold l'. apply Forall_app. split; [done|]. by repeat constructor.
  - apply Forall_app in H32 as [H1 H2]. inversion H2; subst.
    unfold l'. rewrite keys_app, !keys_cons. apply Forall_app.
    split; [done|]. by repeat constructor.
  - intros p b Hin. apply elem_of_app in Hin as [Hin|Hin].
    + exists b. split; [|done]. unfold l'. apply elem_of_app. by left.
    + apply elem_of_cons in Hin as [<-|Hin].
      * exists x'. split; [|done]. unfold l'. simpl. apply elem_of_mid.
      * exists b. split; [|done]. unfold l'.
        by apply elem_of_mid_r, elem_of_cons; right.
  - unfold l'. rewrite data_items_app, !data_items_cons. simpl.
    change (data_items (@nil (N * solist_bucket T))) with (@nil (N * N)).
    by rewrite !app_nil_r.
Qed.

End Invariant.

Section InitialiseBucket.
Import SoList.
Context {T : Type}.
Implicit Types (w : state T) (l : list (N * solist_bucket T)).

Lemma wf_size_bounds w l :
  wf w l → (0 < so_size (so_list w) ≤ 2147483648)%N.
Proof.
  intros Hwf. destruct (wf_size _ _ Hwf) as (k & Hk & ->).
  split.
  - apply N.neq_0_lt_0, N.pow_nonzero. lia.
  - change 2147483648%N with (2 ^ 31)%N. apply N.pow_le_mono_r; lia.
Qed.

Lemma initialise_bucket_spec fuel slot w w' l :
  wf w l → initialise_bucket fuel slot w = Done (tt, w') →
  ∃ l', wf w' l' ∧ same_items w l w' l' ∧
        so_size (so_list w') = so_size (so_list w) ∧
        (slot < so_size (so_list w))%N ∧
        ∃ p, so_buckets (so_list w') !! N.to_nat slot = Some p ∧ p ≠ nullptr.
Proof.
  intros Hwf Hrun.
  unfold initialise_bucket in Hrun. unfold bind at 1, get in Hrun.
  unfold bind at 1, assert in Hrun.
  destruct (N.ltb_spec slot (so_size (so_list w))) as [Hslot|]; [|done].
  unfold ret at 1 in Hrun. unfold bind at 1, bucket_at in Hrun.
  pose proof (wf_len _ _ Hwf) as Hlen.
  destruct (lookup_lt_is_Some_2 (so_buckets (so_list w)) (N.to_nat slot))
    as [b Hb]; [lia|].
  rewrite Hb in Hrun.
  destruct (N.eqb_spec b nullptr) as [Hbn|Hbn]; simpl in Hrun.
  2:{ injection Hrun as <-. exists l. split; [done|].
      split; [apply same_items_refl|]. split; [done|]. split; [done|]. eauto. }
  rewrite Hbn in Hb. clear b Hbn.
  unfold bind at 1, lift, solist_bucket_ctor, sol_bucket_key in Hrun.
  destruct (N.eqb_spec (N.land (reverse_hasht_bits slot) DATABIT) 0)
    as [Heven|]; [|done].
  set (K := reverse_hasht_bits slot) in *.
  set (nb := {| b_hashv := slot; b_key := K; b_next := mp_of nullptr;
                b_payload := None |}) in *.
  unfold bind at 1, new_bucket in Hrun.
  destruct (wf_new_bucket w l nb Hwf) as (Hwf1 & Hfresh & Hnode0 & Hnone).
  set (w1 := {| heap := <[brk w:=nb]> (heap w); brk := (brk w + 1)%N;
                freed := freed w; so_list := so_list w; acc := acc w |}) in *.
  unfold bind at 1 in Hrun.
  destruct (initialise_bucket_loop fuel slot (brk w) (b_key nb) w1)
    as [[[] w2]| |] eqn:Hloop; try done.
  apply (initialise_bucket_loop_spec _ _ _ _ _ _ l nb Hwf1) in Hloop
    as (pre & x & post & a' & -> & Hc & Hn & Hall & Hcases);
    [|simpl; lia|done|by apply lookup_insert_eq|done].
  destruct (wf_head _ _ Hwf) as (b0 & nb0 & rest & H0 & Hb0 & Hl0 & Hnb0 & Hk0 & _).
  assert (Hslot0 : N.to_nat slot ≠ 0) by (intros Heq; rewrite Heq in Hb; congruence).
  assert (HK0 : (0 < K)%N).
  { apply N.neq_0_lt_0, reverse_hasht_bits_nonzero; [lia|].
    pose proof (wf_size_bounds _ _ Hwf). lia. }
  assert (HxK : (b_key x.2 < K)%N).
  { destruct pre as [|y pre].
    - simpl in Hl0. simplify_eq. simpl. lia.
    - simpl in Hall. rewrite list.Forall_forall in Hall.
      apply Hall, elem_of_app. right. left. }
  destruct (wf_next _ _ _ _ Hwf1) as [Hnext Hmark].
  destruct (wf_lookup _ _ x.1 x.2 Hwf1) as [Hx Hx0]; [destruct x; apply elem_of_mid|].
  assert (Hxn : x.1 ≠ brk w).
  { intros Heq. apply Hfresh. rewrite <- Heq, fmap_app, fmap_cons. apply elem_of_mid. }
  simpl in Hcases.
  destruct Hcases as [(y & post' & -> & HyK & ->)|[Hpost ->]].
  - (* a dummy with this key is already linked: adopt it *)
    destruct (wf_lookup _ _ y.1 y.2 Hwf1) as [Hy Hy0]; [destruct y; apply elem_of_mid2|].
    assert (Hyn : y.1 ≠ brk w).
    { intros Heq. apply Hfresh. rewrite <- Heq, fmap_app, !fmap_cons. apply elem_of_mid2. }
    simpl in Hnext.
    unfold bind at 1, bucket_at in Hrun. simpl in Hrun. rewrite Hb in Hrun.
    simpl in Hrun. unfold bind at 1 in Hrun.
    unfold bind at 1, get in Hrun. unfold bind at 1, deref in Hrun.
    simpl in Hrun. rewrite Hc in Hrun.
    rewrite lookup_insert_ne in Hrun by done. simpl in Hx. rewrite Hx in Hrun.
    rewrite Hnext in Hrun.
    destruct (N.eqb_spec y.1 (brk w)) as [|_]; [done|].
    unfold bind at 1, set_bucket in Hrun. simpl in Hrun.
    destruct (Nat.ltb_spec (N.to_nat slot) (length (so_buckets (so_list w))))
      as [_|]; [|lia].
    unfold bind at 1, deref in Hrun. simpl in Hrun.
    rewrite Hn, Hnext in Hrun.
    rewrite lookup_insert_ne in Hrun by done. simpl in Hy. rewrite Hy in Hrun.
    unfold bind at 1, assert in Hrun. rewrite HyK, N.eqb_refl in Hrun.
    unfold ret at 1 in Hrun. unfold delete_bucket in Hrun. simpl in Hrun.
    destruct (N.eqb_spec (brk w) nullptr) as [|_]; [done|].
    rewrite lookup_insert_eq in Hrun.
    unfold bind at 1, bucket_at in Hrun. simpl in Hrun.
    rewrite list_lookup_insert_eq in Hrun by lia.
    unfold bind at 1, assert in Hrun.
    destruct (N.eqb_spec y.1 nullptr) as [|_]; [done|]. simpl in Hrun.
    unfold ret at 1 in Hrun. unfold bind at 1, deref in Hrun. simpl in Hrun.
    rewrite !delete_insert_eq, delete_id in Hrun by done.
    assert (Hyw : heap w !! y.1 = Some y.2).
    { subst w1. simpl in Hy. by rewrite lookup_insert_ne in Hy. }
    rewrite Hyw, HyK, N.eqb_refl in Hrun.
    unfold ret in Hrun. injection Hrun as <-.
    exists (pre ++ x :: y :: post'). split; [|split; [|split; [done|split; [done|]]]].
    + destruct Hwf as [(b0' & H0' & Hb0' & Hl) H2 H3 H4 H5 H6 H7 H8 H9].
      constructor; simpl; auto.
      * exists b0'. split; [|done]. by rewrite list_lookup_insert_ne.
      * intros slot' p Hp Hp0.
        destruct (decide (slot' = N.to_nat slot)) as [->|Hne].
        -- rewrite list_lookup_insert_eq in Hp by lia. simplify_eq.
           exists y.2. split; [destruct y; apply elem_of_mid2|].
           rewrite N2Nat.id. split; [done|].
           unfold is_node. rewrite HyK. simpl. rewrite Heven. done.
        -- rewrite list_lookup_insert_ne in Hp by done. by apply H5.
      * by rewrite length_insert.
      * destruct H8 as [Hpos Hfree]. split; [lia|].
        intros p Hp. apply Hfree. lia.
    + constructor; simpl; auto.
    + simpl. rewrite list_lookup_insert_eq by lia. eauto.
  - (* the new dummy is linked after x *)
    unfold bind at 1, bucket_at in Hrun. simpl in Hrun. rewrite Hb in Hrun.
    simpl in Hrun. unfold bind at 1 in Hrun.
    unfold bind at 1, get in Hrun. unfold bind at 1, deref in Hrun.
    simpl in Hrun. rewrite Hc in Hrun.
    rewrite lookup_insert_eq in Hrun. simpl in Hrun.
    rewrite N.eqb_refl in Hrun.
    unfold bind at 1, set_bucket in Hrun. simpl in Hrun.
    destruct (Nat.ltb_spec (N.to_nat slot) (length (so_buckets (so_list w))))
      as [_|]; [|lia].
    unfold set_next_field in Hrun. simpl in Hrun.
    unfold bind at 1, bucket_at in Hrun. simpl in Hrun.
    rewrite list_lookup_insert_eq in Hrun by lia.
    unfold bind at 1, assert in Hrun.
    destruct (N.eqb_spec (brk w) nullptr) as [|_]; [done|]. simpl in Hrun.
    unfold ret at 1 in Hrun. unfold bind at 1, deref in Hrun. simpl in Hrun.
    rewrite lookup_insert_ne in Hrun by done.
    rewrite lookup_insert_eq in Hrun. simpl in Hrun.
    rewrite N.eqb_refl in Hrun. unfold ret in Hrun. injection Hrun as <-.
    destruct (link_chain w1 b0 pre x post (brk w) nb Hwf1 H0 Hfresh Hnode0)
      as (Hl' & Hs' & Hu' & H32' & Hmem & Hdata); [done| |done|].
    { pose proof (reverse_hasht_bits_lt slot). done. }
    eexists. split; [|split; [|split; [done|split; [done|]]]].
    + destruct Hwf1 as [_ _ _ _ H5 H6 H7 H8 _].
      constructor; simpl; [| exact Hs' | exact Hu' | exact H32' | | | | |].
      * exists b0. split; [by rewrite list_lookup_insert_ne|]. split; [done|].
        exact Hl'.
      * intros slot' p Hp Hp0.
        destruct (decide (slot' = N.to_nat slot)) as [->|Hne].
        -- rewrite list_lookup_insert_eq in Hp by lia. simplify_eq.
           exists (set_next nb (mp_of (mp_ptr (b_next x.2)))).
           split; [apply elem_of_mid2|]. simpl.
           rewrite N2Nat.id. split; [done|].
           unfold is_node. simpl. rewrite Heven. done.
        -- rewrite list_lookup_insert_ne in Hp by done.
           destruct (H5 slot' p Hp Hp0) as (b & Hin & Hkey & Hdummy).
           destruct (Hmem p b Hin) as (b' & Hin' & Hkey' & Hnode').
           exists b'. split; [done|]. split; congruence.
      * exact H6.
      * by rewrite length_insert.
      * destruct H8 as [Hpos Hfree]. split; [done|]. intros p Hp.
        assert (x.1 < brk w)%N.
        { apply (wf_addr_lt w (pre ++ x :: post)); [done|].
          rewrite fmap_app, fmap_cons. apply elem_of_mid. }
        simpl in Hp. do 2 rewrite lookup_insert_ne by lia. by apply Hfree.
      * rewrite Hdata. rewrite (wf_count _ _ Hwf).
        rewrite data_items_app, (data_items_cons x post).
        rewrite !data_items_cons. simpl.
        assert (is_node nb = false) as ->
          by (unfold is_node; simpl; by rewrite Heven).
        change (data_items (@nil (N * solist_bucket T))) with (@nil (N * N)).
        by rewrite !app_nil_r.
    + constructor; simpl; auto.
      * rewrite Hdata. rewrite data_items_app, (data_items_cons x post).
        rewrite !data_items_cons. simpl.
        assert (is_node nb = false) as ->
          by (unfold is_node; simpl; by rewrite Heven).
        change (data_items (@nil (N * solist_bucket T))) with (@nil (N * N)).
        by rewrite !app_nil_r.
      * intros p b Hp Hnin.
        assert (Hpb : p ≠ brk w) by (intros ->; congruence).
        assert (Hpx : p ≠ x.1).
        { intros ->. apply Hnin. rewrite fmap_app, fmap_cons. apply elem_of_mid. }
        rewrite !lookup_insert_ne by done. split; [done|].
        rewrite fmap_app, !fmap_cons. simpl.
        rewrite fmap_app, fmap_cons in Hnin.
        rewrite !elem_of_app, !elem_of_cons in Hnin |- *.
        rewrite elem_of_cons. tauto.
    + simpl. rewrite list_lookup_insert_eq by lia. eauto.
Qed.

End InitialiseBucket.

Section FindNode.
Import SoList.
Context {T : Type}.
Implicit Types (w : state T) (l : list (N * solist_bucket T)).

Lemma wf_set_acc w l a : wf w l → wf (set_acc w a) l.
Proof. by apply wf_ext. Qed.

Lemma same_items_set_acc w l w' l' a :
  same_items w l w' l' → same_items w l (set_acc w' a) l'.
Proof. intros [A1 A2 A3 A4]. by constructor. Qed.

Lemma find_node_spec fuel h w w' r l :
  wf w l → find_node fuel h w = Done (r, w') →
  ∃ l' pre x post,
    wf w' l' ∧ same_items w l w' l' ∧
    so_size (so_list w') = so_size (so_list w) ∧
    l' = pre ++ x :: post ∧
    cur (acc w') = x.1 ∧ next (acc w') = mp_ptr (b_next x.2) ∧
    match post with [] => True | y :: _ => (sol_node_key h < b_key y.2)%N end ∧
    (if r then b_key x.2 = sol_node_key h ∧
               ∃ pre' pv, pre = pre' ++ [pv] ∧ prev (acc w') = pv.1
     else (b_key x.2 < sol_node_key h)%N).
Proof.
  intros Hwf Hrun.
  pose proof (wf_size_bounds _ _ Hwf) as Hsize.
  unfold find_node in Hrun. unfold bind at 1, get in Hrun.
  destruct (N.eqb_spec (so_size (so_list w)) 0) as [|_]; [lia|].
  set (slot := (h mod so_size (so_list w))%N) in *.
  set (K := sol_node_key h) in *.
  assert (Hslot : (slot < so_size (so_list w))%N) by (apply N.mod_lt; lia).
  unfold bind at 1, bucket_at in Hrun.
  pose proof (wf_len _ _ Hwf) as Hlen.
  destruct (lookup_lt_is_Some_2 (so_buckets (so_list w)) (N.to_nat slot))
    as [b Hb]; [lia|].
  rewrite Hb in Hrun. unfold bind at 1 in Hrun.
  assert (∃ w1 l1 p,
    wf w1 l1 ∧ same_items w l w1 l1 ∧
    so_size (so_list w1) = so_size (so_list w) ∧
    so_buckets (so_list w1) !! N.to_nat slot = Some p ∧ p ≠ nullptr ∧
    (if (b =? nullptr)%N then initialise_bucket fuel slot else ret ()) w
    = Done (tt, w1)) as (w1 & l1 & p & Hwf1 & Hsame & Hsz & Hp & Hp0 & Hinit).
  { destruct (N.eqb_spec b nullptr) as [Hb0|Hb0].
    - destruct (initialise_bucket fuel slot w) as [[[] w1]| |] eqn:Hinit;
        try done.
      destruct (initialise_bucket_spec _ _ _ _ _ Hwf Hinit)
        as (l1 & Hwf1 & Hsame & Hsz & _ & p & Hp & Hp0).
      by exists w1, l1, p.
    - exists w, l, b. split; [done|]. split; [apply same_items_refl|].
      split; [done|]. split; [done|]. split; done. }
  rewrite Hinit in Hrun. clear Hinit.
  unfold bind at 1, bucket_at in Hrun. rewrite Hp in Hrun.
  destruct (wf_buckets _ _ Hwf1 _ _ Hp Hp0) as (np & Hin & Hkey & Hdummy).
  rewrite N2Nat.id in Hkey.
  destruct (wf_lookup _ _ _ _ Hwf1 Hin) as [Hnp _].
  unfold bind at 1, deref in Hrun. rewrite Hnp in Hrun.
  unfold bind at 1, set_cursor in Hrun. unfold bind at 1, set_steps in Hrun.
  unfold bind at 1 in Hrun.
  match type of Hrun with
  | context [walk_while ?f ?c ?k ?s] =>
      destruct (walk_while f c k s) as [[[] w2]| |] eqn:Hwalk; try done
  end.
  apply list_elem_of_split in Hin as (l0 & rest & ->).
  destruct (wf_chain _ _ Hwf1) as (b0 & _ & _ & Hl).
  apply lseg_split in Hl as (q & _ & Hl).
  destruct (lseg_head _ _ _ _ _ Hl) as [Hq _]. simpl in Hq. subst q.
  match type of Hwalk with
  | walk_while _ _ _ ?s = _ =>
      destruct (walk_while_spec _ _ _ s w2 p np rest eq_refl eq_refl Hl Hwalk)
        as (pre2 & x & post & a' & Hsplit & -> & Hc & Hn & Hprev & Hall & Hpost)
  end.
  rewrite set_acc_set_acc in Hrun.
  assert (Hl1 : l0 ++ (p, np) :: rest = (l0 ++ pre2) ++ x :: post)
    by (by rewrite Hsplit, <- app_assoc).
  rewrite Hl1 in Hwf1, Hsame.
  destruct (wf_lookup _ _ x.1 x.2 Hwf1) as [Hx Hx0];
    [destruct x; apply elem_of_mid|].
  unfold bind at 1, get in Hrun. simpl in Hrun. rewrite Hc in Hrun.
  destruct (N.eqb_spec x.1 nullptr) as [|_]; [done|].
  unfold bind at 1, deref in Hrun. simpl in Hrun. rewrite Hx in Hrun.
  assert (HxK : (b_key x.2 ≤ K)%N).
  { destruct pre2 as [|y pre2].
    - simpl in Hsplit. simplify_eq. simpl. rewrite Hkey.
      destruct (wf_size _ _ Hwf) as (k & _ & Hk).
      unfold slot. rewrite Hk.
      etrans; [apply reverse_hasht_bits_mod|apply sol_node_key_ge].
    - simpl in Hall. rewrite list.Forall_forall in Hall.
      apply N.leb_le, Hall, elem_of_app. right. left. }
  exists ((l0 ++ pre2) ++ x :: post), (l0 ++ pre2), x, post.
  assert (Hres : w' = set_acc w1 a' ∧ r = (b_key x.2 =? K)%N).
  { destruct (N.eqb_spec (b_key x.2) K); unfold ret in Hrun; simpl in Hrun;
      injection Hrun as <- <-; split; reflexivity. }
  destruct Hres as [-> ->].
  split; [by apply wf_set_acc|]. split; [by apply same_items_set_acc|].
  split; [done|]. split; [done|]. split; [done|]. split; [done|]. split.
  - destruct post as [|y post]; [done|]. by apply N.leb_gt.
  - destruct (N.eqb_spec (b_key x.2) K) as [HK|HK]; [|lia].
    split; [done|].
    destruct pre2 as [|y pre2 _] using rev_ind.
    + simpl in Hsplit. simplify_eq. simpl in HK.
      pose proof (sol_node_key_odd h) as Hodd.
      unfold is_node in Hdummy. rewrite HK, Hodd in Hdummy. done.
    + exists (l0 ++ pre2), y. split; [by rewrite app_assoc|].
      simpl. rewrite Hprev, fmap_app. simpl. apply last_last.
Qed.

End FindNode.

Section InsertNode.
Import SoList.
Context {T : Type}.
Implicit Types (w : state T) (l : list (N * solist_bucket T)).

Lemma expand_spec n w w' l :
  wf w l → expand n w = Done (tt, w') → wf w' l ∧ same_items w l w' l.
Proof.
  intros Hwf Hrun. unfold expand in Hrun.
  destruct (n <? so_size (so_list w))%N.
  { injection Hrun as <-. split; [done|apply same_items_refl]. }
  pose proof (wf_size_bounds _ _ Hwf) as Hsz.
  pose proof (wf_len _ _ Hwf) as Hlen.
  destruct (N.ltb_spec (u32 (so_size (so_list w) * 2)) (so_size (so_list w)))
    as [|Hge]; [done|].
  destruct (Nat.ltb_spec (length (so_buckets (so_list w)))
                         (N.to_nat (so_size (so_list w)))) as [|_]; [lia|].
  simpl in Hrun. injection Hrun as <-.
  destruct (wf_size _ _ Hwf) as (k & Hk & Hpow).
  assert (Hk30 : (k ≤ 30)%N).
  { destruct (N.le_gt_cases k 30) as [|Hgt]; [done|].
    assert (k = 31%N) as -> by lia. rewrite Hpow in Hge.
    vm_compute in Hge. done. }
  assert (Hnew : u32 (so_size (so_list w) * 2) = (2 ^ (k + 1))%N).
  { rewrite Hpow. unfold u32. rewrite N.mod_small.
    - rewrite N.add_1_r, N.pow_succ_r'. lia.
    - assert (2 ^ k ≤ 2 ^ 30)%N by (apply N.pow_le_mono_r; lia).
      change (2 ^ 30)%N with 1073741824%N in *. lia. }
  rewrite Hnew in *. clear Hge.
  rewrite take_ge by lia.
  split; [|by constructor].
  destruct Hwf as [(b0 & H0 & Hb0 & Hl) H2 H3 H4 H5 H6 H7 H8 H9].
  constructor; simpl; auto.
  - exists b0. split; [|done].
    rewrite lookup_app_l; [done|]. by eapply lookup_lt_Some.
  - intros slot p Hp Hp0.
    destruct (decide (slot < length (so_buckets (so_list w)))) as [Hlt|Hge].
    + rewrite lookup_app_l in Hp by done. by apply H5.
    + rewrite lookup_app_r in Hp by lia.
      apply lookup_replicate in Hp as [-> _]. done.
  - exists (k + 1)%N. split; [lia|done].
  - rewrite length_app, length_replicate, Hlen, Hpow.
    rewrite N.add_1_r, N.pow_succ_r'. lia.
Qed.

Lemma data_items_length l : length (data_items l) ≤ length l.
Proof.
  unfold data_items. rewrite length_fmap. apply length_filter.
Qed.

Lemma keys_length_bound l :
  StronglySorted N.lt (keys l) → Forall (λ k, (k < 4294967296)%N) (keys l) →
  (N.of_nat (length l) ≤ 4294967296)%N.
Proof.
  intros Hs H32.
  pose proof (sorted_length_bound (keys l) 0 4294967296 Hs) as Hb.
  unfold keys in Hb. rewrite length_fmap in Hb.
  assert (Forall (λ k, (0 ≤ k)%N) ((λ x, b_key x.2) <$> l)) as H0.
  { apply list.Forall_forall. intros. lia. }
  specialize (Hb H0 H32). lia.
Qed.

(** In a well-formed list the item counter cannot wrap. *)
Lemma wf_items_lt w l :
  wf w l → (N.of_nat (length (data_items l)) < 4294967296)%N.
Proof.
  intros Hwf.
  destruct (wf_head _ _ Hwf) as (b0 & nb0 & rest & _ & _ & -> & _ & _ & Hd).
  rewrite data_items_cons. simpl. rewrite Hd. simpl.
  pose proof (keys_length_bound _ (wf_sorted _ _ Hwf) (wf_key32 _ _ Hwf)) as Hb.
  pose proof (data_items_length rest). simpl in Hb. lia.
Qed.


(** One round of [insert_node]'s loop: either the key is there already and
    nothing changes, or the new node is linked behind the cursor. *)
Lemma insert_loop_spec fuel h dnode d w w' r l :
  wf w l → heap w !! dnode = Some d → dnode ∉ l.*1 → dnode ≠ nullptr →
  b_key d = sol_node_key h →
  insert_loop fuel h dnode w = Done (r, w') →
  so_size (so_list w') = so_size (so_list w) ∧
  so_max_bucket_length (so_list w') = so_max_bucket_length (so_list w) ∧
  if r then
    ∃ pre x post,
      data_items (pre ++ x :: post) = data_items l ∧
      let d' := set_next d (mp_of (mp_ptr (b_next x.2))) in
      let x' := set_next x.2 (mp_of dnode) in
      wf w' (pre ++ (x.1, x') :: (dnode, d') :: post) ∧
      cur (acc w') = x.1
  else
    ∃ l', wf w' l' ∧ same_items w l w' l' ∧ heap w' !! dnode = Some d.
Proof.
  intros Hwf Hd Hfresh Hdn0 HdK Hrun.
  destruct fuel as [|f]; [done|]. simpl in Hrun. unfold bind at 1 in Hrun.
  destruct (find_node f h w) as [[found w1]| |] eqn:Hfind; try done.
  destruct (find_node_spec _ _ _ _ _ _ Hwf Hfind)
    as (l1 & pre & x & post & Hwf1 & Hsame & Hsz & -> & Hc & Hn & Hpost & Hr).
  destruct (si_outside _ _ _ _ Hsame _ _ Hd Hfresh) as [Hd1 Hfresh1].
  destruct found.
  { unfold ret in Hrun. injection Hrun as <- <-.
    split; [done|]. split; [by apply (si_max _ _ _ _ Hsame)|].
    by exists (pre ++ x :: post). }
  destruct (wf_next _ _ _ _ Hwf1) as [Hnext Hmark].
  destruct (wf_lookup _ _ x.1 x.2 Hwf1) as [Hx Hx0];
    [destruct x; apply elem_of_mid|].
  assert (Hxn : x.1 ≠ dnode).
  { intros Heq. apply Hfresh1. rewrite <- Heq, fmap_app, fmap_cons.
    apply elem_of_mid. }
  unfold bind at 1, get in Hrun. unfold bind at 1, deref in Hrun.
  rewrite Hd1 in Hrun. unfold bind at 1, store in Hrun.
  unfold bind at 1, deref in Hrun. simpl in Hrun.
  rewrite Hc in Hrun. rewrite lookup_insert_ne in Hrun by done.
  rewrite Hx in Hrun. unfold mp_CAS in Hrun.
  rewrite Hn, N.eqb_refl, Hmark in Hrun. simpl in Hrun.
  unfold bind, store, inc_item_count, ret in Hrun. simpl in Hrun.
  injection Hrun as <- <-. simpl.
  split; [done|]. split; [by apply (si_max _ _ _ _ Hsame)|].
  exists pre, x, post. split; [by apply (si_items _ _ _ _ Hsame)|].
  split; [|done].
  destruct (wf_chain _ _ Hwf1) as (b0 & H0 & Hb0 & _).
  destruct (link_chain w1 b0 pre x post dnode d Hwf1 H0 Hfresh1 Hdn0)
    as (Hl' & Hs' & Hu' & H32' & Hmem & Hdata).
  { lia. }
  { rewrite HdK. apply sol_node_key_lt. }
  { rewrite HdK. done. }
  pose proof (wf_count _ _ Hwf1) as Hcount.
  assert (Hnode : is_node d = true).
  { unfold is_node. rewrite HdK, sol_node_key_odd. done. }
  assert (Hdata' :
    length (data_items (pre ++ (x.1, set_next x.2 (mp_of dnode))
                        :: (dnode, set_next d (mp_of (mp_ptr (b_next x.2))))
                        :: post))
    = S (length (data_items (pre ++ x :: post)))).
  { rewrite Hdata, data_items_app, (data_items_cons x post).
    rewrite !data_items_cons. simpl. rewrite Hnode.
    change (data_items (@nil (N * solist_bucket T))) with (@nil (N * N)).
    rewrite ?length_app. simpl. rewrite ?length_app. simpl. lia. }
  destruct (wf_head _ _ Hwf1) as (b0' & nb0 & rest & _ & _ & Hl0 & _ & _ & Hnd).
  assert (Hcnt : length (data_items (pre ++ x :: post))
                 < length (pre ++ x :: post)).
  { rewrite Hl0, data_items_cons. simpl. rewrite Hnd. simpl.
    pose proof (data_items_length rest). lia. }
  pose proof (keys_length_bound _ Hs' H32') as Hbound.
  rewrite !length_app in Hbound, Hcnt. simpl in Hbound, Hcnt.
  destruct Hwf1 as [_ _ _ _ H5 H6 H7 H8 _].
  constructor; simpl; [| exact Hs' | exact Hu' | exact H32' | | | | |].
  - exists b0. split; [done|]. split; [done|]. exact Hl'.
  - intros slot p Hp Hp0.
    destruct (H5 slot p Hp Hp0) as (b & Hin & Hkey & Hdummy).
    destruct (Hmem p b Hin) as (b' & Hin' & Hkey' & Hnode').
    exists b'. split; [done|]. split; congruence.
  - exact H6.
  - exact H7.
  - destruct H8 as [Hpos Hfree]. split; [done|]. intros p Hp.
    assert (dnode < brk w1)%N.
    { destruct (N.lt_ge_cases dnode (brk w1)) as [|Hge]; [done|].
      rewrite (Hfree _ Hge) in Hd1. done. }
    assert (x.1 < brk w1)%N.
    { destruct (N.lt_ge_cases x.1 (brk w1)) as [|Hge]; [done|].
      rewrite (Hfree _ Hge) in Hx. done. }
    rewrite !lookup_insert_ne by lia. by apply Hfree.
  - rewrite Hdata', Hcount.
    unfold u32. rewrite N.mod_small; lia.
Qed.


Lemma walk_while_acc cond count fuel w w' :
  walk_while fuel cond count w = Done (tt, w') → ∃ a', w' = set_acc w a'.
Proof.
  revert w. induction fuel as [|f IH]; intros w Hrun; [done|].
  simpl in Hrun. unfold bind at 1, get in Hrun.
  destruct (next (acc w) =? nullptr)%N.
  { injection Hrun as <-. exists (acc w). by rewrite set_acc_acc. }
  unfold bind at 1, deref in Hrun.
  destruct (heap w !! next (acc w)) as [b|] eqn:Hb; [|done].
  destruct (cond b).
  2:{ injection Hrun as <-. exists (acc w). by rewrite set_acc_acc. }
  unfold bind at 1 in Hrun. unfold advance at 1 in Hrun.
  unfold bind at 1, get in Hrun. unfold bind at 1, set_cursor in Hrun.
  simpl in Hrun.
  assert (∃ a1, walk_while f cond count (set_acc w a1) = Done (tt, w'))
    as (a1 & Hrun1).
  { destruct (next (acc w) =? nullptr)%N.
    - unfold ret at 1 in Hrun.
      destruct count; unfold bind, get, set_steps, ret in Hrun; simpl in Hrun;
        eexists; exact Hrun.
    - unfold bind at 1, deref in Hrun. simpl in Hrun. rewrite Hb in Hrun.
      unfold set_next_field in Hrun. simpl in Hrun.
      destruct count; unfold bind, get, set_steps, ret in Hrun; simpl in Hrun;
        eexists; exact Hrun. }
  destruct (IH _ Hrun1) as (a' & ->). by exists a'.
Qed.

Lemma wf_delete_outside w l p :
  wf w l → p ∉ l.*1 →
  wf {| heap := delete p (heap w); brk := brk w; freed := freed w ++ [p];
        so_list := so_list w; acc := acc w |} l.
Proof.
  intros [(b0 & H0 & Hb0 & Hl) H2 H3 H4 H5 H6 H7 [Hpos Hfree] H9] Hp.
  constructor; simpl; auto.
  - exists b0. split; [done|]. split; [done|]. by apply lseg_frame_delete.
  - split; [done|]. intros q Hq. apply lookup_delete_None. right. by apply Hfree.
Qed.

(** The expansion check at the end of a successful [insert_node]. *)
Lemma expansion_check_spec fuel h nbuckets w w' l :
  wf w l →
  (let l0 := so_list w in
   if (so_max_bucket_length l0 <? steps (acc w))%N then
     if (so_size l0 =? 0)%N then fail DivByZero
     else
       let slot := (h mod so_size l0)%N in
       if (u32 (so_max_bucket_length l0 * 2) <=? steps (acc w))%N
          || (u32 (so_max_bucket_length l0 * so_size l0) <=? so_n_items l0)%N
       then
         bind (expand nbuckets)
              (λ _, initialise_bucket fuel (u32 (slot + nbuckets)))
       else
         initialise_bucket fuel (u32 (slot + nbuckets / 2))
   else ret tt) w = Done (tt, w') →
  ∃ l', wf w' l' ∧ same_items w l w' l'.
Proof.
  intros Hwf Hrun. simpl in Hrun.
  destruct (so_max_bucket_length (so_list w) <? steps (acc w))%N.
  2:{ injection Hrun as <-. exists l. split; [done|apply same_items_refl]. }
  destruct (so_size (so_list w) =? 0)%N; [done|].
  destruct ((u32 (so_max_bucket_length (so_list w) * 2) <=? steps (acc w))%N
            || (u32 (so_max_bucket_length (so_list w) * so_size (so_list w))
                <=? so_n_items (so_list w))%N).
  - unfold bind at 1 in Hrun.
    destruct (expand nbuckets w) as [[[] w1]| |] eqn:Hexp; try done.
    destruct (expand_spec _ _ _ _ Hwf Hexp) as [Hwf1 Hsame1].
    destruct (initialise_bucket_spec _ _ _ _ _ Hwf1 Hrun)
      as (l' & Hwf' & Hsame' & _).
    exists l'. split; [done|]. by eapply same_items_trans.
  - destruct (initialise_bucket_spec _ _ _ _ _ Hwf Hrun)
      as (l' & Hwf' & Hsame' & _).
    by exists l'.
Qed.


(** The data node of a successful [insert_node] is the one at the address
    that [new] handed out at the start of the operation. *)
Lemma insert_node_spec_at fuel h v w w' r l :
  wf w l → insert_node fuel h v w = Done (r, w') →
  ∃ l', wf w' l' ∧
        if r then ∃ i1 i2, data_items l = i1 ++ i2 ∧
                           data_items l' = i1 ++ (brk w, sol_node_key h) :: i2
        else data_items l' = data_items l.
Proof.
  intros Hwf Hrun. unfold insert_node in Hrun.
  unfold bind at 1, get in Hrun.
  unfold bind at 1, lift, solist_node_ctor, solist_bucket_ctor, sol_bucket_key
    in Hrun.
  destruct (N.land (reverse_hasht_bits h) DATABIT =? 0)%N; [|done].
  simpl in Hrun.
  set (d := {| b_hashv := h; b_key := N.lor (reverse_hasht_bits h) DATABIT;
               b_next := mp_of nullptr; b_payload := Some v |}) in *.
  unfold bind at 1, new_bucket in Hrun.
  destruct (wf_new_bucket w l d Hwf) as (Hwf1 & Hfresh & Hnode0 & Hnone).
  set (w1 := {| heap := <[brk w:=d]> (heap w); brk := (brk w + 1)%N;
                freed := freed w; so_list := so_list w; acc := acc w |}) in *.
  unfold bind at 1 in Hrun.
  destruct (insert_loop fuel h (brk w) w1) as [[result w2]| |] eqn:Hloop;
    try done.
  destruct (insert_loop_spec _ _ _ d _ _ _ l Hwf1 (lookup_insert_eq _ _ _)
              Hfresh Hnode0 eq_refl Hloop) as (Hsz & Hmax & Hcase).
  unfold bind at 1 in Hrun.
  destruct result; simpl in Hrun.
  - destruct Hcase as (pre & x & post & Hitems & Hwf2 & Hc).
    set (l2 := pre ++ (x.1, set_next x.2 (mp_of (brk w)))
               :: (brk w, set_next d (mp_of (mp_ptr (b_next x.2)))) :: post) in *.
    destruct (wf_lookup _ _ x.1 (set_next x.2 (mp_of (brk w))) Hwf2) as [Hx _];
      [apply elem_of_mid|].
    unfold bind at 1, get in Hrun. unfold bind at 1, deref in Hrun.
    rewrite Hc, Hx in Hrun. unfold bind at 1, set_next_field in Hrun.
    unfold bind at 1 in Hrun.
    match type of Hrun with
    | context [walk_while ?f ?c ?k ?s] =>
        destruct (walk_while f c k s) as [[[] w3]| |] eqn:Hwalk; try done;
        destruct (walk_while_acc _ _ _ _ _ Hwalk) as (a3 & ->)
    end.
    rewrite set_acc_set_acc in Hrun.
    unfold bind at 1, get in Hrun.
    match type of Hrun with
    | match ?tail ?s with _ => _ end = _ =>
        destruct (tail s) as [[[] w4]| |] eqn:Htail; try done
    end.
    apply (expansion_check_spec fuel h (so_size (so_list w)) _ _ l2
             (wf_set_acc _ _ a3 Hwf2)) in Htail as (l4 & Hwf4 & Hsame4).
    unfold bind, zap, set_cursor, ret in Hrun. injection Hrun as <- <-.
    exists l4. split; [by apply wf_set_acc|].
    exists (data_items pre ++ data_items [x]), (data_items post).
    split.
    + rewrite <- Hitems, data_items_app, (data_items_cons x post).
      rewrite (data_items_cons x []).
      change (data_items (@nil (N * solist_bucket T))) with (@nil (N * N)).
      by rewrite app_nil_r, <- app_assoc.
    + rewrite (si_items _ _ _ _ Hsame4). unfold l2.
      rewrite data_items_app, !data_items_cons. cbn [fst snd].
      rewrite !is_node_set_next.
      assert (is_node d = true) as ->
        by (unfold is_node; apply N.eqb_eq; symmetry; apply sol_node_key_odd).
      change (data_items (@nil (N * solist_bucket T))) with (@nil (N * N)).
      by rewrite app_nil_r, <- app_assoc.
  - destruct Hcase as (l2 & Hwf2 & Hsame2 & Hd2).
    destruct (si_outside _ _ _ _ Hsame2 (brk w) d (lookup_insert_eq _ _ _) Hfresh)
      as [_ Hfresh2].
    unfold delete_bucket in Hrun.
    destruct (N.eqb_spec (brk w) nullptr) as [|_]; [done|].
    rewrite Hd2 in Hrun.
    unfold bind, zap, set_cursor, ret in Hrun. injection Hrun as <- <-.
    exists l2. split; [|by apply (si_items _ _ _ _ Hsame2)].
    apply (wf_set_acc
             {| heap := delete (brk w) (heap w2); brk := brk w2;
                freed := freed w2 ++ [brk w]; so_list := so_list w2;
                acc := acc w2 |}).
    by apply wf_delete_outside.
Qed.

Lemma insert_node_spec fuel h v w w' r l :
  wf w l → insert_node fuel h v w = Done (r, w') →
  ∃ l', wf w' l' ∧
        if r then ∃ i1 i2 c, data_items l = i1 ++ i2 ∧
                             data_items l' = i1 ++ (c, sol_node_key h) :: i2
        else data_items l' = data_items l.
Proof.
  intros Hwf Hrun.
  destruct (insert_node_spec_at _ _ _ _ _ _ _ Hwf Hrun) as (l' & Hwf' & Hcase).
  exists l'. split; [done|]. destruct r; [|done].
  destruct Hcase as (i1 & i2 & H1 & H2). by exists i1, i2, (brk w).
Qed.

End InsertNode.

Section DeleteNode.
Import SoList.
Context {T : Type}.
Implicit Types (w : state T) (l : list (N * solist_bucket T)).

Lemma u32_dec n :
  (0 < n)%N → (n < 4294967296)%N → u32 (n + 4294967295) = (n - 1)%N.
Proof.
  intros Hpos Hlt. unfold u32.
  replace (n + 4294967295)%N with ((n - 1) + 1 * 4294967296)%N by lia.
  rewrite N.Div0.mod_add. apply N.mod_small. lia.
Qed.

(** The chain after unlinking [x], the successor of [pv]. *)
Lemma unlink_chain w b0 pre pv x post xm :
  wf w (pre ++ pv :: x :: post) → so_buckets (so_list w) !! 0 = Some b0 →
  is_node x.2 = true →
  let pv' := set_next pv.2 (mp_of (mp_ptr (b_next x.2))) in
  let l' := pre ++ (pv.1, pv') :: post in
  lseg (delete x.1 (<[pv.1 := pv']> (<[x.1 := xm]> (heap w)))) b0 nullptr l' ∧
  StronglySorted N.lt (keys l') ∧
  Forall (λ y, mp_mark (b_next y.2) = false) l' ∧
  Forall (λ k, (k < 4294967296)%N) (keys l') ∧
  (∀ p b, (p, b) ∈ pre ++ pv :: x :: post → is_node b = false →
          ∃ b', (p, b') ∈ l' ∧ b_key b' = b_key b ∧ is_node b' = false) ∧
  data_items (pre ++ pv :: x :: post)
    = (data_items pre ++ data_items [pv]) ++ (x.1, b_key x.2) :: data_items post ∧
  data_items l' = (data_items pre ++ data_items [pv]) ++ data_items post.
Proof.
  intros Hwf H0 Hnode pv' l'.
  pose proof (wf_NoDup _ _ Hwf) as Hnd.
  pose proof (wf_sorted _ _ Hwf) as Hs.
  pose proof (wf_unmarked _ _ Hwf) as Hu.
  pose proof (wf_key32 _ _ Hwf) as H32.
  destruct (wf_chain _ _ Hwf) as (b0' & H0' & _ & Hl). simplify_eq.
  split; [by apply lseg_unlink|].
  rewrite keys_app, !keys_cons in Hs, H32.
  split; [|split; [|split; [|split; [|split]]]].
  - unfold l'. rewrite keys_app, keys_cons. simpl.
    replace (keys pre ++ b_key pv.2 :: b_key x.2 :: keys post)
      with ((keys pre ++ [b_key pv.2]) ++ b_key x.2 :: keys post) in Hs
      by (by rewrite <- app_assoc).
    apply sorted_remove in Hs. by rewrite <- app_assoc in Hs.
  - apply Forall_app in Hu as [Hu1 Hu2].
    inversion Hu2 as [|? ? ? Hu3]; subst. inversion Hu3; subst.
    unfold l'. apply Forall_app. split; [done|]. by constructor.
  - apply Forall_app in H32 as [H1 H2].
    inversion H2 as [|? ? ? H3]; subst. inversion H3; subst.
    unfold l'. rewrite keys_app, keys_cons. apply Forall_app.
    split; [done|]. by constructor.
  - intros p b Hin Hb. apply elem_of_app in Hin as [Hin|Hin].
    + exists b. split; [|done]. unfold l'. apply elem_of_app. by left.
    + apply elem_of_cons in Hin as [<-|Hin].
      * exists pv'. split; [|done]. unfold l'. simpl. apply elem_of_mid.
      * apply elem_of_cons in Hin as [<-|Hin]; [simpl in Hnode; congruence|].
        exists b. split; [|done]. unfold l'. by apply elem_of_mid_r.
  - rewrite data_items_app, (data_items_cons pv), (data_items_cons x post).
    rewrite (data_items_cons pv []), Hnode.
    change (data_items (@nil (N * solist_bucket T))) with (@nil (N * N)).
    by rewrite app_nil_r, <- !app_assoc.
  - unfold l', pv'. rewrite data_items_app, (data_items_cons _ post).
    rewrite (data_items_cons pv []). cbn [fst snd].
    rewrite is_node_set_next.
    change (data_items (@nil (N * solist_bucket T))) with (@nil (N * N)).
    by rewrite app_nil_r, <- !app_assoc.
Qed.

Lemma delete_loop_spec fuel h w w' r l :
  wf w l → delete_loop fuel h w = Done (r, w') →
  ∃ l', wf w' l' ∧
        if r then ∃ i1 i2 c, data_items l = i1 ++ (c, sol_node_key h) :: i2 ∧
                             data_items l' = i1 ++ i2 ∧
                             heap w' !! c = None ∧ c ∈ freed w'
        else data_items l' = data_items l.
Proof.
  intros Hwf Hrun.
  destruct fuel as [|f]; [done|]. simpl in Hrun. unfold bind at 1 in Hrun.
  destruct (find_node f h w) as [[found w1]| |] eqn:Hfind; try done.
  destruct (find_node_spec _ _ _ _ _ _ Hwf Hfind)
    as (l1 & pre & x & post & Hwf1 & Hsame & Hsz & -> & Hc & Hn & Hpost & Hr).
  destruct found; simpl in Hrun.
  2:{ unfold ret in Hrun. injection Hrun as <- <-.
      exists (pre ++ x :: post). split; [done|].
      by apply (si_items _ _ _ _ Hsame). }
  destruct Hr as (HxK & pre' & pv & -> & Hp).
  rewrite <- app_assoc in Hwf1, Hsame. simpl in Hwf1, Hsame.
  pose proof (wf_NoDup _ _ Hwf1) as Hnd.
  rewrite fmap_app, !fmap_cons in Hnd.
  apply list.NoDup_app in Hnd as (_ & _ & Hnd).
  apply list.NoDup_cons in Hnd as [Hpvx _].
  apply not_elem_of_cons in Hpvx as [Hpvx _].
  destruct (wf_lookup _ _ x.1 x.2 Hwf1) as [Hx Hx0];
    [destruct x; apply elem_of_mid2|].
  destruct (wf_lookup _ _ pv.1 pv.2 Hwf1) as [Hpv Hpv0];
    [destruct pv; apply elem_of_mid|].
  destruct (wf_next _ _ _ _ Hwf1) as [Hpvnext Hpvmark]. simpl in Hpvnext.
  assert (Hnode : is_node x.2 = true).
  { unfold is_node. rewrite HxK, sol_node_key_odd. done. }
  unfold bind at 1, get in Hrun. unfold bind at 1, deref in Hrun.
  rewrite Hc, Hx in Hrun. unfold mp_CAS_mark in Hrun.
  rewrite Hn, N.eqb_refl in Hrun.
  unfold bind at 1, store in Hrun. simpl in Hrun.
  unfold bind at 1, deref in Hrun. simpl in Hrun.
  rewrite Hp in Hrun. rewrite lookup_insert_ne in Hrun by done.
  rewrite Hpv in Hrun. unfold mp_CAS in Hrun.
  rewrite Hpvnext, N.eqb_refl, Hpvmark in Hrun. simpl in Hrun.
  unfold bind at 1, store in Hrun. simpl in Hrun.
  unfold bind at 1, dec_item_count in Hrun. simpl in Hrun.
  unfold bind at 1, delete_bucket in Hrun. simpl in Hrun.
  destruct (N.eqb_spec x.1 nullptr) as [|_]; [done|].
  rewrite lookup_insert_ne in Hrun by done.
  rewrite lookup_insert_eq in Hrun. unfold ret in Hrun.
  injection Hrun as <- <-.
  destruct (wf_chain _ _ Hwf1) as (b0 & H0 & Hb0 & _).
  destruct (unlink_chain w1 b0 pre' pv x post
              (set_next x.2 {| mp_ptr := mp_ptr (b_next x.2); mp_mark := true |})
              Hwf1 H0 Hnode)
    as (Hl' & Hs' & Hu' & H32' & Hmem & Hdata & Hdata').
  pose proof (wf_count _ _ Hwf1) as Hcount.
  pose proof (wf_items_lt _ _ Hwf1) as Hlt.
  exists (pre' ++ (pv.1, set_next pv.2 (mp_of (mp_ptr (b_next x.2)))) :: post).
  split.
  - destruct Hwf1 as [_ _ _ _ H5 H6 H7 H8 _].
    constructor; simpl; [| exact Hs' | exact Hu' | exact H32' | | | | |].
    + exists b0. split; [done|]. split; [done|]. exact Hl'.
    + intros slot p Hp' Hp0.
      destruct (H5 slot p Hp' Hp0) as (b & Hin & Hkey & Hdummy).
      destruct (Hmem p b Hin Hdummy) as (b' & Hin' & Hkey' & Hnode').
      exists b'. split; [done|]. split; congruence.
    + exact H6.
    + exact H7.
    + destruct H8 as [Hpos Hfree]. split; [done|]. intros p Hp'.
      apply lookup_delete_None. right.
      assert (pv.1 < brk w1)%N.
      { destruct (N.lt_ge_cases pv.1 (brk w1)) as [|Hge]; [done|].
        rewrite (Hfree _ Hge) in Hpv. done. }
      assert (x.1 < brk w1)%N.
      { destruct (N.lt_ge_cases x.1 (brk w1)) as [|Hge]; [done|].
        rewrite (Hfree _ Hge) in Hx. done. }
      rewrite !lookup_insert_ne by lia. by apply Hfree.
    + rewrite Hdata', Hcount. rewrite Hdata in Hlt |- *.
      rewrite !length_app in Hlt |- *. simpl length in Hlt |- *.
      rewrite u32_dec by lia. rewrite !length_app. lia.
  - exists (data_items pre' ++ data_items [pv]), (data_items post), x.1.
    split; [by rewrite <- (si_items _ _ _ _ Hsame), Hdata, HxK|].
    split; [done|]. simpl. split; [by rewrite lookup_delete_eq|].
    apply elem_of_app. right. left.
Qed.

Lemma delete_node_spec fuel h w w' r l :
  wf w l → delete_node fuel h w = Done (r, w') →
  ∃ l', wf w' l' ∧
        if r then ∃ i1 i2 c, data_items l = i1 ++ (c, sol_node_key h) :: i2 ∧
                             data_items l' = i1 ++ i2 ∧
                             heap w' !! c = None ∧ c ∈ freed w'
        else data_items l' = data_items l.
Proof.
  intros Hwf Hrun. unfold delete_node in Hrun. unfold bind at 1 in Hrun.
  destruct (delete_loop fuel h w) as [[result w1]| |] eqn:Hloop; try done.
  destruct (delete_loop_spec _ _ _ _ _ _ Hwf Hloop) as (l' & Hwf' & Hcase).
  unfold bind, zap, set_cursor, ret in Hrun. injection Hrun as <- <-.
  exists l'. split; [by apply wf_set_acc|]. done.
Qed.

End DeleteNode.

(** ** Sortedness, item count and reclamation in the list *)

Section ListClaims.
Import SoList.
Context {T : Type}.
Implicit Types (w : state T) (l : list (N * solist_bucket T)).

Lemma wf_keys_increasing w l : wf w l → keys_increasing w.
Proof.
  intros Hwf. destruct (wf_chain _ _ Hwf) as (b0 & H0 & Hb0 & Hl).
  exists b0, l. repeat split; auto. exact (wf_sorted _ _ Hwf).
Qed.

Lemma wf_items_counted w l : wf w l → items_counted w.
Proof.
  intros Hwf. destruct (wf_chain _ _ Hwf) as (b0 & H0 & Hb0 & Hl).
  exists b0, l. repeat split; auto. exact (wf_count _ _ Hwf).
Qed.

(** The list made by the constructor is well formed. *)
Lemma solist_new_wf size bucket_length k w :
  (k ≤ 31)%N → size = (2 ^ k)%N →
  solist_new size bucket_length = Done w →
  ∃ l, wf (T:=T) w l ∧ data_items l = [].
Proof.
  intros Hk Hsize Hnew. unfold solist_new in Hnew.
  assert (Hpos : (0 < size)%N)
    by (subst size; apply N.neq_0_lt_0, N.pow_nonzero; lia).
  destruct (N.eqb_spec size 0) as [|_]; [lia|].
  change (solist_bucket_ctor (T:=T) 0)
    with (Done (A:=solist_bucket T)
            {| b_hashv := 0; b_key := 0; b_next := mp_of nullptr;
               b_payload := None |}) in Hnew.
  injection Hnew as <-.
  set (b := {| b_hashv := 0; b_key := 0; b_next := mp_of nullptr;
               b_payload := None |}).
  exists [(1%N, b)]. split; [|done].
  constructor; simpl.
  - exists 1%N. split.
    + apply list_lookup_insert_eq. rewrite length_replicate. lia.
    + split; [done|]. constructor; [done|apply lookup_singleton_eq|constructor].
  - repeat constructor.
  - by repeat constructor.
  - by repeat constructor.
  - intros slot p Hp Hp0. destruct slot as [|slot].
    + rewrite list_lookup_insert_eq in Hp by (rewrite length_replicate; lia).
      simplify_eq. exists b. split; [left|done].
    + rewrite list_lookup_insert_ne in Hp by done.
      apply lookup_replicate in Hp as [-> _]. done.
  - by exists k.
  - by rewrite length_insert, length_replicate.
  - split; [lia|]. intros p Hp. apply lookup_singleton_ne. lia.
  - done.
Qed.

Lemma run_op_wf fuel (o : list_op (T:=T)) w l r w' :
  wf w l → run_op fuel o w = Done (r, w') → ∃ l', wf w' l'.
Proof.
  intros Hwf Hrun. destruct o as [h v|h|slot]; simpl in Hrun.
  - destruct (insert_node_spec _ _ _ _ _ _ _ Hwf Hrun) as (l' & Hwf' & _).
    by exists l'.
  - destruct (delete_node_spec _ _ _ _ _ _ Hwf Hrun) as (l' & Hwf' & _).
    by exists l'.
  - unfold bind in Hrun.
    destruct (initialise_bucket fuel slot w) as [[[] w1]| |] eqn:Hinit;
      try done.
    unfold ret in Hrun. injection Hrun as <- <-.
    destruct (initialise_bucket_spec _ _ _ _ _ Hwf Hinit) as (l' & Hwf' & _).
    by exists l'.
Qed.

Lemma run_ops_wf fuel (os : list (list_op (T:=T))) :
  ∀ w l rs w', wf w l → run_ops fuel os w = Done (rs, w') → ∃ l', wf w' l'.
Proof.
  induction os as [|o os IH]; intros w l rs w' Hwf Hrun; simpl in Hrun.
  - unfold ret in Hrun. injection Hrun as <- <-. by exists l.
  - unfold bind at 1 in Hrun.
    destruct (run_op fuel o w) as [[r w1]| |] eqn:Hop; try done.
    destruct (run_op_wf _ _ _ _ _ _ Hwf Hop) as (l1 & Hwf1).
    unfold bind at 1 in Hrun.
    destruct (run_ops fuel os w1) as [[rs1 w2]| |] eqn:Hops; try done.
    unfold ret in Hrun. injection Hrun as <- <-. by eapply IH.
Qed.

Lemma elem_of_data_items l c k :
  (c, k) ∈ data_items l → ∃ b, (c, b) ∈ l ∧ b_key b = k ∧ is_node b = true.
Proof.
  unfold data_items. intros Hin.
  apply list_elem_of_fmap in Hin as ([a b] & Heq & Hin). simpl in Heq.
  apply list_elem_of_filter in Hin as [Hnode Hin]. simpl in Hnode.
  simplify_eq. exists b. split; [done|]. split; [done|].
  by destruct (is_node b).
Qed.

(** The chain from a node to the end of the list is determined by the
    heap. *)
Lemma lseg_to_end_unique (h : gmap N (solist_bucket T)) p l1 l2 :
  lseg h p nullptr l1 → lseg h p nullptr l2 → l1 = l2.
Proof.
  intros H1. revert l2.
  remember nullptr as q eqn:Hq.
  induction H1 as [p|p q b l Hp Hb Hrest IH]; intros l2 H2.
  - subst p. inversion H2; [done|]. done.
  - subst q. inversion H2 as [|? ? b' l' Hp' Hb' Hrest']; subst; [done|].
    simplify_eq. f_equal. by apply IH.
Qed.

(** C7, amended: on a list constructed with a power-of-two number of buckets
    the keys along the chain from [buckets[0]] increase strictly, they still
    do after any sequence of [insert_node], [delete_node] and
    [initialise_bucket], and each further such operation keeps them
    increasing. *)
Theorem operations_keep_keys_increasing fuel size bucket_length k
    (w0 : state T) :
  (k ≤ 31)%N → size = (2 ^ k)%N →
  solist_new size bucket_length = Done w0 →
  keys_increasing w0 ∧
  ∀ os rs w, run_ops fuel os w0 = Done (rs, w) →
    keys_increasing w ∧
    ∀ o r w', run_op fuel o w = Done (r, w') → keys_increasing w'.
Proof.
  intros Hk Hsize Hnew.
  destruct (solist_new_wf _ _ _ _ Hk Hsize Hnew) as (l0 & Hwf0 & _).
  split; [by eapply wf_keys_increasing|].
  intros os rs w Hops.
  destruct (run_ops_wf _ _ _ _ _ _ Hwf0 Hops) as (l & Hwf).
  split; [by eapply wf_keys_increasing|].
  intros o r w' Hop.
  destruct (run_op_wf _ _ _ _ _ _ Hwf Hop) as (l' & Hwf').
  by eapply wf_keys_increasing.
Qed.

(** C8: on a well-formed list a successful [insert_node] adds one data node
    to the chain and adds one to [n_items], a successful [delete_node]
    removes one and subtracts one, an unsuccessful one changes neither; so
    after any sequence of operations [n_items] is the number of data nodes
    reachable from [buckets[0]]. *)
Theorem n_items_counts_data_nodes fuel w l :
  wf w l →
  (∀ h v r w', insert_node fuel h v w = Done (r, w') →
     ∃ l', wf w' l' ∧ items_counted w' ∧
       length (data_items l') = length (data_items l) + (if r then 1 else 0) ∧
       so_n_items (so_list w')
       = (so_n_items (so_list w) + (if r then 1 else 0))%N) ∧
  (∀ h r w', delete_node fuel h w = Done (r, w') →
     ∃ l', wf w' l' ∧ items_counted w' ∧
       length (data_items l') + (if r then 1 else 0) = length (data_items l) ∧
       (so_n_items (so_list w') + (if r then 1 else 0))%N
       = so_n_items (so_list w)) ∧
  (∀ os rs w', run_ops fuel os w = Done (rs, w') → items_counted w').
Proof.
  intros Hwf. split; [|split].
  - intros h v r w' Hrun.
    destruct (insert_node_spec _ _ _ _ _ _ _ Hwf Hrun) as (l' & Hwf' & Hr).
    exists l'. split; [done|]. split; [by eapply wf_items_counted|].
    rewrite (wf_count _ _ Hwf), (wf_count _ _ Hwf').
    destruct r.
    + destruct Hr as (i1 & i2 & c & -> & ->).
      rewrite !length_app. simpl. split; lia.
    + rewrite Hr. split; lia.
  - intros h r w' Hrun.
    destruct (delete_node_spec _ _ _ _ _ _ Hwf Hrun) as (l' & Hwf' & Hr).
    exists l'. split; [done|]. split; [by eapply wf_items_counted|].
    rewrite (wf_count _ _ Hwf), (wf_count _ _ Hwf').
    destruct r.
    + destruct Hr as (i1 & i2 & c & -> & -> & _).
      rewrite !length_app. simpl. split; lia.
    + rewrite Hr. split; lia.
  - intros os rs w' Hrun.
    destruct (run_ops_wf _ _ _ _ _ _ Hwf Hrun) as (l' & Hwf').
    by eapply wf_items_counted.
Qed.

(** What [delete_node] does with the node it unlinks: a successful
    [delete_node] on a well-formed list subtracts one from [n_items] and
    hands the unlinked node, which carried the key of the hash, to [delete]
    inside the operation: when [delete_node] returns the node is in the
    freed list, no longer allocated and no longer in the chain. *)
Lemma delete_node_frees_unlinked_node fuel h w l w' :
  wf w l → delete_node fuel h w = Done (true, w') →
  (so_n_items (so_list w') + 1)%N = so_n_items (so_list w) ∧
  ∃ c b l',
    heap w !! c = Some b ∧ b_key b = sol_node_key h ∧ (c, b) ∈ l ∧
    heap w' !! c = None ∧ c ∈ freed w' ∧
    wf w' l' ∧ c ∉ l'.*1.
Proof.
  intros Hwf Hrun.
  destruct (delete_node_spec _ _ _ _ _ _ Hwf Hrun)
    as (l' & Hwf' & i1 & i2 & c & Hl & Hl' & Hnone & Hfreed).
  split.
  - rewrite (wf_count _ _ Hwf), (wf_count _ _ Hwf'), Hl, Hl'.
    rewrite !length_app. simpl. lia.
  - destruct (elem_of_data_items l c (sol_node_key h)) as (b & Hin & Hkey & _).
    { rewrite Hl. apply elem_of_mid. }
    destruct (wf_lookup _ _ _ _ Hwf Hin) as [Hb _].
    exists c, b, l'. split; [done|]. split; [done|]. split; [done|].
    split; [done|]. split; [done|]. split; [done|].
    intros Hc. apply list_elem_of_fmap in Hc as ([c' b'] & -> & Hin').
    destruct (wf_lookup _ _ _ _ Hwf' Hin') as [Hb' _]. simpl in Hnone.
    congruence.
Qed.

End ListClaims.

Section ListClaimWitnesses.
Import SoList.

Lemma one_inserted_wf :
  ∃ w l, one_inserted = Done (true, w) ∧ wf w l.
Proof.
  unfold one_inserted.
  destruct (solist_new (T:=unit) 1 4) as [w0| |] eqn:Hnew;
    [|by vm_compute in Hnew..].
  destruct (solist_new_wf 1 4 0 w0) as (l0 & Hwf0 & _); [lia|done|done|].
  destruct (insert_node 20 5 () w0) as [[r w]| |] eqn:Hins;
    [|exfalso; vm_compute in Hnew; injection Hnew as <-;
      by vm_compute in Hins..].
  destruct (insert_node_spec _ _ _ _ _ _ _ Hwf0 Hins) as (l & Hwf & _).
  exists w, l. split; [|done].
  vm_compute in Hnew. injection Hnew as <-.
  vm_compute in Hins. injection Hins as <- <-. reflexivity.
Qed.

(** C7 as stated fails on a table whose size is not a power of two: on the
    list of [solist_accessor(3, 4)], whose keys increase, [insert_node(4)]
    takes slot 1, links the dummy with key [0x80000000] after the head and
    the data node with key [0x20000001] after that dummy. *)
Lemma insert_disorders_table_of_size_3 :
  ∃ w0 w : state unit,
    solist_new 3 4 = Done w0 ∧ keys_increasing w0 ∧
    insert_node 20 4 tt w0 = Done (true, w) ∧
    ¬ keys_increasing w.
Proof.
  eexists _, _. split; [vm_compute; reflexivity|]. split.
  { eexists 1%N, [(1%N, _)]. split; [reflexivity|]. split; [discriminate|].
    split.
    - apply lseg_cons; [discriminate|vm_compute; reflexivity|]. apply lseg_nil.
    - repeat constructor. }
  split; [vm_compute; reflexivity|].
  intros (b0 & l & H0 & _ & Hl & Hs).
  vm_compute in H0. injection H0 as <-.
  match type of Hl with lseg ?h _ _ _ =>
    assert (Hl' : ∃ b1 b2 b3 : solist_bucket unit,
      b_key b1 = 0%N ∧ b_key b2 = 2147483648%N ∧ b_key b3 = 536870913%N ∧
      lseg h 1%N nullptr [(1%N, b1); (3%N, b2); (2%N, b3)])
  end.
  { eexists _, _, _. split; [|split; [|split]]; cycle 3.
    - apply lseg_cons; [discriminate|vm_compute; reflexivity|].
      apply lseg_cons; [discriminate|vm_compute; reflexivity|].
      apply lseg_cons; [discriminate|vm_compute; reflexivity|].
      apply lseg_nil.
    - reflexivity.
    - reflexivity.
    - reflexivity. }
  destruct Hl' as (b1 & b2 & b3 & H1 & H2 & H3 & Hl').
  pose proof (lseg_to_end_unique _ _ _ _ Hl Hl') as ->.
  unfold keys in Hs. simpl in Hs. rewrite H1, H2, H3 in Hs.
  inversion Hs as [|? ? Hs1 _]; subst.
  inversion Hs1 as [|? ? _ Hall]; subst.
  inversion Hall as [|? ? Hlt _]; subst. lia.
Qed.

Lemma operations_keep_keys_increasing_witness :
  ∃ w0 w w' : state unit,
    solist_new 1 4 = Done w0 ∧
    run_ops 20 [OpInsert 5 (); OpInitialise 0] w0 = Done ([true; true], w) ∧
    keys_increasing w ∧
    run_op 20 (OpDelete 5) w = Done (true, w') ∧ keys_increasing w'.
Proof.
  eexists _, _, _. split; [vm_compute; reflexivity|].
  split; [vm_compute; reflexivity|].
  destruct (operations_keep_keys_increasing (T:=unit) 20 1 4 0 _
              ltac:(lia) eq_refl eq_refl) as [_ Hreach].
  destruct (Hreach [OpInsert 5 (); OpInitialise 0%N] [true; true] _
              ltac:(vm_compute; reflexivity)) as [Hinc Hstep].
  split; [exact Hinc|]. split; [vm_compute; reflexivity|].
  apply (Hstep (OpDelete 5) true). vm_compute; reflexivity.
Defined.

Lemma n_items_counts_data_nodes_witness :
  ∃ w rs w', one_inserted = Done (true, w) ∧
             run_ops 20 [OpInsert 7 (); OpDelete 5; OpDelete 5] w
             = Done (rs, w') ∧
             items_counted w'.
Proof.
  destruct one_inserted_wf as (w & l & Hw & Hwf).
  destruct (run_ops 20 [OpInsert 7 (); OpDelete 5; OpDelete 5] w)
    as [[rs w']| |] eqn:Hops.
  - destruct (n_items_counts_data_nodes 20 w l Hwf) as (_ & _ & Hseq).
    exists w, rs, w'. split; [exact Hw|]. split; [exact Hops|].
    exact (Hseq _ _ _ Hops).
  - exfalso. vm_compute in Hw. injection Hw as <-. by vm_compute in Hops.
  - exfalso. vm_compute in Hw. injection Hw as <-. by vm_compute in Hops.
Defined.

Lemma delete_node_frees_unlinked_node_witness :
  ∃ w w', one_inserted = Done (true, w) ∧
          delete_node 20 5 w = Done (true, w') ∧
          (so_n_items (so_list w') + 1)%N = so_n_items (so_list w) ∧
          heap w' !! 2%N = None ∧ freed w' = [2%N].
Proof.
  destruct one_inserted_wf as (w & l & Hw & Hwf).
  destruct (delete_node 20 5 w) as [[r w']| |] eqn:Hdel;
    [|exfalso; vm_compute in Hw; injection Hw as <-; by vm_compute in Hdel..].
  assert (Hr : r = true).
  { vm_compute in Hw. injection Hw as <-.
    vm_compute in Hdel. by injection Hdel as <- <-. }
  subst r.
  destruct (delete_node_frees_unlinked_node 20 5 w l w' Hwf Hdel) as [Hn _].
  exists w, w'. split; [exact Hw|]. split; [exact Hdel|]. split; [exact Hn|].
  vm_compute in Hw. injection Hw as <-.
  vm_compute in Hdel. injection Hdel as <-. split; reflexivity.
Defined.

End ListClaimWitnesses.
(** ** Reserving and releasing blocks *)

Section ReserveImpl.
Import Hazp.

Lemma land_pow2 a i :
  N.land a (2 ^ i) = (if N.testbit a i then 2 ^ i else 0)%N.
Proof.
  apply N.bits_inj. intros j. rewrite N.land_spec, N.pow2_bits_eqb.
  destruct (N.testbit a i) eqn:Hai.
  - rewrite N.pow2_bits_eqb.
    destruct (N.eqb_spec i j) as [<-|Hij]; [by rewrite Hai|by rewrite andb_false_r].
  - rewrite N.bits_0.
    destruct (N.eqb_spec i j) as [<-|Hij]; [by rewrite Hai|by rewrite andb_false_r].
Qed.

Lemma pow2_nonzero i : (2 ^ i ≠ 0)%N.
Proof. apply N.pow_nonzero. lia. Qed.

Lemma pow2_lt_32 i : (i < 32)%N → (2 ^ i < 4294967296)%N.
Proof. intros Hi. change 4294967296%N with (2 ^ 32)%N. apply N.pow_lt_mono_r; lia. Qed.

Lemma mask_at_next ix : (ix < 32)%N → u32 (N.shiftl (mask_at ix) 1) = mask_at (ix + 1).
Proof.
  intros Hi. unfold mask_at, u32.
  destruct (N.ltb_spec ix 32) as [_|?]; [|lia].
  rewrite N.shiftl_mul_pow2. change (2 ^ 1)%N with 2%N.
  replace (2 ^ ix * 2)%N with (2 ^ (ix + 1))%N
    by (rewrite N.pow_add_r; change (2 ^ 1)%N with 2%N; lia).
  destruct (N.ltb_spec (ix + 1) 32) as [Hlt|Hge].
  - apply N.mod_small. by apply pow2_lt_32.
  - replace (ix + 1)%N with 32%N by lia. reflexivity.
Qed.

Lemma first_clear_spec expected :
  ∀ n ix, (ix + N.of_nat n = 32)%N →
    (∀ j, (j < ix)%N → N.testbit expected j = true) →
    ∃ k, first_clear n expected (mask_at ix) ix = (mask_at k, k) ∧
         (ix ≤ k ≤ 32)%N ∧
         (∀ j, (j < k)%N → N.testbit expected j = true) ∧
         ((k < 32)%N → N.testbit expected k = false).
Proof.
  induction n as [|n IH]; intros ix Hn Hlow.
  - exists ix. simpl. split; [done|]. split; [lia|]. split; [done|lia].
  - cbn [first_clear].
    assert (Hix : (ix < 32)%N) by lia.
    unfold mask_at at 1. destruct (N.ltb_spec ix 32) as [_|?]; [|lia].
    rewrite land_pow2.
    destruct (N.testbit expected ix) eqn:Hbit.
    + destruct (N.eqb_spec (2 ^ ix) 0) as [H0|_]; [by apply pow2_nonzero in H0|].
      unfold NUM_HAZP_CHUNK_BLOCKS.
      destruct (N.ltb_spec ix 32) as [_|?]; [|lia]. cbn [negb andb].
      rewrite (mask_at_next ix Hix).
      destruct (IH (ix + 1)%N) as (k & Hk & Hr & Hl & Hc); [lia| |].
      { intros j Hj. destruct (N.eq_dec j ix) as [->|]; [done|]. apply Hlow. lia. }
      exists k. split; [done|]. split; [lia|]. done.
    + rewrite N.eqb_refl. cbn [negb andb]. exists ix.
      unfold mask_at. destruct (N.ltb_spec ix 32) as [_|?]; [|lia].
      split; [done|]. split; [lia|]. split; [done|]. done.
Qed.

Lemma all_bits_full a :
  (a < 4294967296)%N → (∀ j, (j < 32)%N → N.testbit a j = true) → a = FULL.
Proof.
  intros Ha Hbits. apply N.bits_inj. intros j.
  change FULL with (N.ones 32).
  destruct (N.lt_ge_cases j 32) as [Hj|Hj].
  - rewrite N.ones_spec_low by done. by apply Hbits.
  - rewrite N.ones_spec_high by done.
    rewrite <- (N.mod_small a (2 ^ 32)) by done.
    by apply N.mod_pow2_bits_high.
Qed.

(** What a successful [reserve_impl] does: it takes the lowest free block. *)
Lemma reserve_impl_spec fuel c len :
  (bitmap c < 4294967296)%N → bitmap c ≠ FULL → len = blk_size c →
  ∃ ix, (ix < 32)%N ∧ N.testbit (bitmap c) ix = false ∧
        (∀ j, (j < ix)%N → N.testbit (bitmap c) j = true) ∧
        reserve_impl (S fuel) c len
        = Done (set_bitmap c (N.lor (bitmap c) (2 ^ ix)),
                Some (u32 (ix * blk_size c))).
Proof.
  intros Hb Hfull ->. unfold reserve_impl. rewrite N.eqb_refl.
  cbn [negb reserve_loop].
  destruct (N.eqb_spec (bitmap c) FULL) as [|_]; [done|].
  destruct (first_clear_spec (bitmap c) 32 0) as (k & Hk & Hr & Hl & Hc);
    [done|intros j Hj; lia|].
  change (mask_at 0) with 1%N in Hk. rewrite Hk.
  destruct (N.eq_dec k 32%N) as [->|Hk32].
  { exfalso. apply Hfull. by apply all_bits_full. }
  assert (Hlt : (k < 32)%N) by lia.
  unfold NUM_HAZP_CHUNK_BLOCKS. destruct (N.ltb_spec k 32) as [_|?]; [|lia].
  rewrite N.eqb_refl. exists k. split; [done|]. split; [by apply Hc|].
  split; [done|]. unfold mask_at. destruct (N.ltb_spec k 32) as [_|?]; [|lia].
  done.
Qed.

Lemma reserve_impl_inv fuel c len c' slot :
  (bitmap c < 4294967296)%N →
  reserve_impl fuel c len = Done (c', Some slot) →
  len = blk_size c ∧
  ∃ ix, (ix < 32)%N ∧ N.testbit (bitmap c) ix = false ∧
        (∀ j, (j < ix)%N → N.testbit (bitmap c) j = true) ∧
        c' = set_bitmap c (N.lor (bitmap c) (2 ^ ix)) ∧
        slot = u32 (ix * blk_size c).
Proof.
  intros Hb Hres.
  destruct (N.eq_dec len (blk_size c)) as [Hlen|Hlen];
    [|destruct (reserve_impl_refuses fuel c len) as [H|H];
      [by left|congruence..]].
  split; [done|].
  destruct (N.eq_dec (bitmap c) FULL) as [Hfull|Hfull];
    [destruct (reserve_impl_refuses fuel c len) as [H|H];
      [by right|congruence..]|].
  destruct fuel as [|f].
  { unfold reserve_impl in Hres. rewrite Hlen, N.eqb_refl in Hres. done. }
  destruct (reserve_impl_spec f c len Hb Hfull Hlen) as (ix & Hix & Hbit & Hlow & Hrun).
  rewrite Hrun in Hres. injection Hres as <- <-. by exists ix.
Qed.

End ReserveImpl.
Section ReleaseImpl.
Import Hazp.

Lemma release_clear_spec :
  ∀ n a hp first,
    first + a + n ≤ length hp →
    ∃ hp', release_clear (seq a n) hp first = Done hp' ∧
           length hp' = length hp ∧
           ∀ i, hp' !! i = if decide (first + a ≤ i < first + a + n)
                           then Some nullptr else hp !! i.
Proof.
  unfold generic_hazptr_t.
  induction n as [|n IH]; intros a hp first Hlen.
  - exists hp. simpl. split; [done|]. split; [done|].
    intros i. destruct (decide _); [lia|done].
  - cbn [seq release_clear]. unfold generic_hazptr_t.
    destruct (lookup_lt_is_Some_2 hp (first + a)) as [v Hv]; [lia|].

    set (hp1 := if negb (v =? nullptr)%N then <[first + a := nullptr]> hp else hp).
    assert (Hlen1 : length hp1 = length hp).
    { unfold hp1. destruct (negb _); [by rewrite length_insert|done]. }
    assert (Hhp1 : ∀ i, hp1 !! i = if decide (i = first + a) then Some nullptr else hp !! i).
    { intros i. unfold hp1. destruct (decide (i = first + a)) as [->|Hne].
      - destruct (N.eqb_spec v nullptr) as [->|]; simpl; [done|].
        apply list_lookup_insert_eq. lia.
      - destruct (negb _); [|done]. by apply list_lookup_insert_ne. }
    destruct (IH (S a) hp1 first) as (hp' & Hrun & Hl & Hlook); [lia|].
    exists hp'. rewrite Hv. split; [done|]. split; [lia|].
    intros i. rewrite Hlook, Hhp1.
    repeat destruct (decide _); try lia; done.
Qed.

Lemma release_scan_spec c slot ix :
  (0 < blk_size c)%N → (blk_size c * 32 < 4294967296)%N →
  (ix < 32)%N → slot = (ix * blk_size c)%N →
  ∀ n j, (j + N.of_nat n = 32)%N → (j ≤ ix)%N →
    release_scan n c slot j (mask_at j)
    = if N.testbit (bitmap c) ix then Done (N.lxor (bitmap c) (2 ^ ix))
      else Fault AssertFailed.
Proof.
  intros Hblk Hfit Hix ->. induction n as [|n IH]; intros j Hn Hj; [lia|].
  cbn [release_scan].
  assert (Hj32 : (j < 32)%N) by lia.
  assert (Hsmall : ∀ k, (k < 32)%N → u32 (k * blk_size c) = (k * blk_size c)%N).
  { intros k Hk. unfold u32. apply N.mod_small. nia. }
  rewrite Hsmall by done.
  destruct (N.eqb_spec (ix * blk_size c) (j * blk_size c)) as [Heq|Hne].
  - assert (j = ix) as -> by nia.
    unfold mask_at. destruct (N.ltb_spec ix 32) as [_|?]; [|lia].
    rewrite land_pow2. destruct (N.testbit (bitmap c) ix).
    + by rewrite N.eqb_refl.
    + destruct (N.eqb_spec (2 ^ ix) 0) as [H0|_]; [by apply pow2_nonzero in H0|done].
  - rewrite (mask_at_next j Hj32). apply IH; [lia|].
    destruct (N.eq_dec j ix) as [->|]; [done|lia].
Qed.

Lemma lxor_lor_pow2 b ix :
  N.testbit b ix = false → N.lxor (N.lor b (2 ^ ix)) (2 ^ ix) = b.
Proof.
  intros Hb. apply N.bits_inj. intros j.
  rewrite N.lxor_spec, N.lor_spec, N.pow2_bits_eqb.
  destruct (N.eqb_spec ix j) as [<-|_]; [by rewrite Hb|].
  by rewrite orb_false_r, xorb_false_r.
Qed.

Lemma testbit_lor_pow2 b ix j :
  N.testbit (N.lor b (2 ^ ix)) j = N.testbit b j || (ix =? j)%N.
Proof. by rewrite N.lor_spec, N.pow2_bits_eqb. Qed.

Lemma lor_pow2_lt b ix :
  (b < 4294967296)%N → (ix < 32)%N → (N.lor b (2 ^ ix) < 4294967296)%N.
Proof.
  intros Hb Hix.
  destruct (N.eq_dec (N.lor b (2 ^ ix)) 0%N) as [->|Hnz]; [lia|].
  change 4294967296%N with (2 ^ 32)%N. apply N.log2_lt_pow2; [lia|].
  rewrite N.log2_lor. pose proof (pow2_lt_32 ix Hix).
  destruct (N.eq_dec b 0%N) as [->|Hb0].
  - rewrite N.max_r by apply N.le_0_l. rewrite N.log2_pow2 by lia. done.
  - apply N.max_lub_lt.
    + apply N.log2_lt_pow2; lia.
    + rewrite N.log2_pow2 by lia. done.
Qed.

(** The block of a chunk that starts at [first], nulled. *)
Lemma release_impl_block c n ix :
  chunk_ok c → (ix < 32)%N →
  ∃ hp', release_clear (seq 0 (N.to_nat (blk_size c))) (haz_ptrs c)
                       (N.to_nat (ix * blk_size c)) = Done hp' ∧
         length hp' = length (haz_ptrs c) ∧
         (∀ i, hp' !! i
               = if decide (N.to_nat (ix * blk_size c) ≤ i
                            < N.to_nat (ix * blk_size c) + N.to_nat (blk_size c))
                 then Some nullptr else haz_ptrs c !! i) ∧
         release_impl c n {| hb_chunk := n; hb_slot := (ix * blk_size c)%N |}
         = if N.testbit (bitmap c) ix
           then Done ({| blk_size := blk_size c; hp_count := hp_count c;
                         bitmap := N.lxor (bitmap c) (2 ^ ix);
                         haz_ptrs := hp' |}, true)
           else Fault AssertFailed.
Proof.
  intros [Hblk Hcount Hfits Hlen Hbm] Hix.
  unfold NUM_HAZP_CHUNK_BLOCKS in Hcount.
  destruct (release_clear_spec (N.to_nat (blk_size c)) 0 (haz_ptrs c)
              (N.to_nat (ix * blk_size c))) as (hp' & Hclear & Hl & Hlook).
  { rewrite Hlen, Hcount. nia. }
  exists hp'. split; [done|]. split; [done|]. split.
  { intros i. rewrite Hlook. repeat destruct (decide _); try lia; done. }
  unfold release_impl. cbn [hb_chunk hb_slot]. rewrite Nat.eqb_refl.
  destruct (N.leb_spec (hp_count c) (ix * blk_size c)) as [Hle|_]; [nia|].
  cbn [negb orb]. rewrite Hclear.
  change 1%N with (mask_at 0).
  rewrite (release_scan_spec c (ix * blk_size c) ix) by (done || lia).
  by destruct (N.testbit (bitmap c) ix).
Qed.

End ReleaseImpl.
Section ReserveDomain.
Import Hazp.

Lemma reserve_loop_none fuel c :
  ∀ expected c', reserve_loop fuel c expected = Done (c', None) → c' = c.
Proof.
  induction fuel as [|f IH]; intros expected c' Hrun; [done|].
  cbn [reserve_loop] in Hrun.
  destruct (expected =? FULL)%N; [by injection Hrun as <-|].
  destruct (first_clear 32 expected 1 0) as [mask ix].
  destruct (ix <? NUM_HAZP_CHUNK_BLOCKS)%N; [|by eapply IH].
  destruct (bitmap c =? expected)%N; [done|by eapply IH].
Qed.

Lemma reserve_impl_none fuel c len c' :
  reserve_impl fuel c len = Done (c', None) → c' = c.
Proof.
  unfold reserve_impl. destruct (negb _); [by intros [= <-]|].
  apply reserve_loop_none.
Qed.

Lemma chunk_ok_reserved c ix :
  chunk_ok c → (ix < 32)%N → chunk_ok (set_bitmap c (N.lor (bitmap c) (2 ^ ix))).
Proof.
  intros [Hblk Hcount Hfits Hlen Hbm] Hix. constructor; simpl; try done.
  by apply lor_pow2_lt.
Qed.

Lemma chunk_ok_new len :
  (0 < len)%N → (len < 134217728)%N → chunk_ok (hazp_chunk_new len).
Proof.
  intros H0 Hlen. unfold hazp_chunk_new, NUM_HAZP_CHUNK_BLOCKS.
  assert (Hu : u32 (len * 32) = (len * 32)%N) by (unfold u32; apply N.mod_small; lia).
  constructor; simpl; rewrite ?Hu; try done; try lia.
  by rewrite length_replicate.
Qed.

(** A reservation that returns was served by the chunk at the head of the
    pool, which is a new one when the pool was empty. *)
Lemma pools_reserve_inv len :
  ∀ fuel c rest pools' r,
    (bitmap c < 4294967296)%N →
    pools_reserve fuel (c :: rest) 0 len = Done (pools', r) →
    len = blk_size c ∧
    ∃ ix, (ix < 32)%N ∧ N.testbit (bitmap c) ix = false ∧
          (∀ j, (j < ix)%N → N.testbit (bitmap c) j = true) ∧
          pools' = set_bitmap c (N.lor (bitmap c) (2 ^ ix)) :: rest ∧
          r = Some {| hb_chunk := length rest;
                      hb_slot := u32 (ix * blk_size c) |}.
Proof.
  induction fuel as [|f IH]; intros c rest pools' r Hb Hrun; [done|].
  cbn [pools_reserve] in Hrun. cbn [lookup list_lookup] in Hrun.
  destruct (reserve_impl f c len) as [[c' [slot|]]| |] eqn:Himpl; try done.
  - injection Hrun as <- <-.
    destruct (reserve_impl_inv f c len c' slot Hb Himpl)
      as (Hlen & ix & Hix & Hbit & Hlow & -> & ->).
    split; [done|]. exists ix. split; [done|]. split; [done|]. split; [done|].
    split; [done|]. repeat f_equal. simpl. lia.
  - apply reserve_impl_none in Himpl as ->. simpl in Hrun. by eapply IH.
Qed.

Lemma pools_reserve_spec fuel c rest len :
  (bitmap c < 4294967296)%N → bitmap c ≠ FULL → len = blk_size c →
  ∃ ix, (ix < 32)%N ∧ N.testbit (bitmap c) ix = false ∧
        (∀ j, (j < ix)%N → N.testbit (bitmap c) j = true) ∧
        pools_reserve (S (S fuel)) (c :: rest) 0 len
        = Done (set_bitmap c (N.lor (bitmap c) (2 ^ ix)) :: rest,
                Some {| hb_chunk := length rest;
                        hb_slot := u32 (ix * blk_size c) |}).
Proof.
  intros Hb Hfull Hlen.
  destruct (reserve_impl_spec fuel c len Hb Hfull Hlen)
    as (ix & Hix & Hbit & Hlow & Hrun).
  exists ix. split; [done|]. split; [done|]. split; [done|].
  cbn [pools_reserve lookup list_lookup]. rewrite Hrun.
  repeat f_equal. simpl. lia.
Qed.

Lemma reserve_inv fuel d len d1 b :
  Forall (λ c, (bitmap c < 4294967296)%N) (pools_head d) →
  reserve fuel d len = Done (d1, b) →
  ∃ c rest ix,
    (pools_head d = c :: rest
     ∨ (pools_head d = [] ∧ c = hazp_chunk_new len ∧ rest = [])) ∧
    len = blk_size c ∧ (ix < 32)%N ∧ N.testbit (bitmap c) ix = false ∧
    (∀ j, (j < ix)%N → N.testbit (bitmap c) j = true) ∧
    pools_head d1 = set_bitmap c (N.lor (bitmap c) (2 ^ ix)) :: rest ∧
    delete_head d1 = delete_head d ∧
    b = {| hb_chunk := length rest; hb_slot := u32 (ix * blk_size c) |} ∧
    ∃ f, fuel = S (S f).
Proof.
  intros Hpool Hrun. unfold reserve in Hrun.
  assert (Hfuel : ∃ f, fuel = S (S f)).
  { destruct fuel as [|[|f]]; [done| |by exists f].
    exfalso. destruct (pools_head d) as [|c rest]; simpl in Hrun.
    - unfold reserve_impl in Hrun. simpl in Hrun. by rewrite N.eqb_refl in Hrun.
    - unfold reserve_impl in Hrun. by destruct (negb _). }
  destruct (pools_head d) as [|c rest] eqn:Hd.
  - destruct Hfuel as (f & ->).
    assert (He : pools_reserve (S (S f)) [] 0 len = Done ([], None)) by done.
    rewrite He in Hrun. unfold pools_new in Hrun.
    destruct (pools_reserve (S (S f)) [hazp_chunk_new len] 0 len)
      as [[pools2 [r|]]| |] eqn:Hres; try done.
    injection Hrun as <- <-.
    assert (Hb0 : (bitmap (hazp_chunk_new len) < 4294967296)%N) by (simpl; lia).
    destruct (pools_reserve_inv len _ _ _ _ _ Hb0 Hres)
      as (Hlen & ix & Hix & Hbit & Hlow & -> & [= ->]).
    exists (hazp_chunk_new len), [], ix.
    split; [by right|]. repeat (split; [done|]). by exists f.
  - assert (Hbc : (bitmap c < 4294967296)%N)
      by (by inversion Hpool).
    destruct (pools_reserve fuel (c :: rest) 0 len)
      as [[pools1 [r|]]| |] eqn:Hres; try done.
    + injection Hrun as <- <-.
      destruct (pools_reserve_inv len _ _ _ _ _ Hbc Hres)
        as (Hlen & ix & Hix & Hbit & Hlow & -> & [= ->]).
      exists c, rest, ix. split; [by left|]. repeat (split; [done|]). done.
    + exfalso.
      destruct (pools_reserve_inv len _ _ _ _ _ Hbc Hres)
        as (_ & ix & _ & _ & _ & _ & [=]).
Qed.

Lemma reserve_spec fuel d c rest len :
  pools_head d = c :: rest →
  (bitmap c < 4294967296)%N → bitmap c ≠ FULL → len = blk_size c →
  ∃ ix, (ix < 32)%N ∧ N.testbit (bitmap c) ix = false ∧
        (∀ j, (j < ix)%N → N.testbit (bitmap c) j = true) ∧
        reserve (S (S fuel)) d len
        = Done ({| pools_head := set_bitmap c (N.lor (bitmap c) (2 ^ ix)) :: rest;
                   delete_head := delete_head d |},
                {| hb_chunk := length rest;
                   hb_slot := u32 (ix * blk_size c) |}).
Proof.
  intros Hd Hb Hfull Hlen.
  destruct (pools_reserve_spec fuel c rest len Hb Hfull Hlen)
    as (ix & Hix & Hbit & Hlow & Hrun).
  exists ix. split; [done|]. split; [done|]. split; [done|].
  unfold reserve. rewrite Hd, Hrun. done.
Qed.

Lemma bit_clear_not_full b ix :
  (ix < 32)%N → N.testbit b ix = false → b ≠ FULL.
Proof.
  intros Hix Hbit ->. change FULL with (N.ones 32) in Hbit.
  by rewrite N.ones_spec_low in Hbit.
Qed.

End ReserveDomain.
Section BlockTheorems.
Import Hazp.

(** X1: on a chunk of the requested block size that is not full,
    [reserve_impl] returns the first slot of the lowest-numbered free block,
    marks that block and no other in the bitmap, and leaves the hazard
    slots as they are. *)
Theorem reserve_impl_takes_lowest_free_block fuel c len :
  (bitmap c < 4294967296)%N → bitmap c ≠ FULL → len = blk_size c →
  ∃ ix c',
    reserve_impl (S fuel) c len = Done (c', Some (u32 (ix * blk_size c))) ∧
    (ix < 32)%N ∧ block_reserved c ix = false ∧
    (∀ j, (j < ix)%N → block_reserved c j = true) ∧
    (∀ j, block_reserved c' j = block_reserved c j || (ix =? j)%N) ∧
    haz_ptrs c' = haz_ptrs c.
Proof.
  intros Hb Hfull Hlen.
  destruct (reserve_impl_spec fuel c len Hb Hfull Hlen)
    as (ix & Hix & Hbit & Hlow & Hrun).
  exists ix, (set_bitmap c (N.lor (bitmap c) (2 ^ ix))).
  split; [done|]. split; [done|]. split; [done|]. split; [done|].
  split; [|done]. intros j. unfold block_reserved. simpl.
  apply testbit_lor_pow2.
Qed.

Lemma reserve_impl_takes_lowest_free_block_witness :
  let c := set_bitmap (hazp_chunk_new 2) 5 in
  ∃ ix c',
    reserve_impl 1 c 2 = Done (c', Some (u32 (ix * blk_size c))) ∧
    (ix < 32)%N ∧ block_reserved c ix = false ∧
    (∀ j, (j < ix)%N → block_reserved c j = true) ∧
    (∀ j, block_reserved c' j = block_reserved c j || (ix =? j)%N) ∧
    haz_ptrs c' = haz_ptrs c.
Proof.
  apply (reserve_impl_takes_lowest_free_block 0
           (set_bitmap (hazp_chunk_new 2) 5) 2).
  - reflexivity.
  - discriminate.
  - reflexivity.
Defined.

(** X2: releasing the block that [reserve_impl] has just returned undoes
    the reservation: the bitmap is the one from before and the slots of the
    block are null, the other slots unchanged. *)
Theorem release_impl_undoes_reserve_impl fuel c len c' slot n :
  chunk_ok c → reserve_impl fuel c len = Done (c', Some slot) →
  ∃ c'',
    release_impl c' n {| hb_chunk := n; hb_slot := slot |} = Done (c'', true) ∧
    bitmap c'' = bitmap c ∧ blk_size c'' = blk_size c ∧
    hp_count c'' = hp_count c ∧
    length (haz_ptrs c'') = length (haz_ptrs c) ∧
    ∀ i, haz_ptrs c'' !! i
         = if decide (N.to_nat slot ≤ i < N.to_nat slot + N.to_nat len)
           then Some nullptr else haz_ptrs c !! i.
Proof.
  intros Hok Hres.
  destruct (reserve_impl_inv fuel c len c' slot (ck_bitmap _ Hok) Hres)
    as (Hlen & ix & Hix & Hbit & Hlow & -> & ->).
  pose proof (chunk_ok_reserved c ix Hok Hix) as Hok'.
  destruct (release_impl_block _ n ix Hok' Hix) as (hp' & _ & Hl & Hlook & Hrel).
  cbn [set_bitmap blk_size bitmap hp_count haz_ptrs] in *.
  assert (Hu : u32 (ix * blk_size c) = (ix * blk_size c)%N).
  { unfold u32. apply N.mod_small. destruct Hok as [? Hc Hf ? ?].
    unfold NUM_HAZP_CHUNK_BLOCKS in Hc. nia. }
  rewrite Hu. rewrite Hrel, testbit_lor_pow2, N.eqb_refl, orb_true_r.
  eexists. split; [done|]. cbn [bitmap blk_size hp_count haz_ptrs].
  split; [by apply lxor_lor_pow2|]. split; [done|]. split; [done|].
  split; [done|]. intros i. rewrite Hlook, Hlen. done.
Qed.

Lemma release_impl_undoes_reserve_impl_witness :
  ∃ c' slot c'',
    reserve_impl 1 (hazp_chunk_new 3) 3 = Done (c', Some slot) ∧
    release_impl c' 0 {| hb_chunk := 0; hb_slot := slot |} = Done (c'', true) ∧
    bitmap c'' = 0%N.
Proof.
  destruct (reserve_impl 1 (hazp_chunk_new 3) 3) as [[c' [slot|]]| |] eqn:Hres;
    try (by vm_compute in Hres).
  destruct (release_impl_undoes_reserve_impl 1 (hazp_chunk_new 3) 3 c' slot 0)
    as (c'' & Hrel & Hbm & _).
  - apply chunk_ok_new; lia.
  - exact Hres.
  - exists c', slot, c''. split; [done|]. split; [exact Hrel|exact Hbm].
Defined.

(** X3: releasing a block of the chunk that is not reserved (a second
    release of the same block, say) fails the assertion
    [assert(mask == (bitmap & mask))]. *)
Theorem release_impl_free_block_asserts c n ix :
  chunk_ok c → (ix < 32)%N → block_reserved c ix = false →
  release_impl c n {| hb_chunk := n; hb_slot := (ix * blk_size c)%N |}
  = Fault AssertFailed.
Proof.
  intros Hok Hix Hfree.
  destruct (release_impl_block c n ix Hok Hix) as (hp' & _ & _ & _ & Hrel).
  unfold block_reserved in Hfree. by rewrite Hrel, Hfree.
Qed.

Lemma release_impl_free_block_asserts_witness :
  release_impl (hazp_chunk_new 2) 0 {| hb_chunk := 0; hb_slot := (3 * 2)%N |}
  = Fault AssertFailed.
Proof.
  apply (release_impl_free_block_asserts (hazp_chunk_new 2) 0 3).
  - apply chunk_ok_new; lia.
  - lia.
  - reflexivity.
Defined.

End BlockTheorems.
Section DomainBlockTheorems.
Import Hazp.

Lemma pools_release_refused b :
  ∀ pools,
    (∀ p c, pools !! p = Some c → hb_chunk b = length pools - 1 - p →
            (hp_count c ≤ hb_slot b)%N) →
    pools_release pools b = Done (pools, false).
Proof.
  induction pools as [|c rest IH]; intros Hown; [done|].
  cbn [pools_release].
  assert (Himpl : release_impl c (length rest) b = Done (c, false)).
  { unfold release_impl.
    destruct (Nat.eqb_spec (hb_chunk b) (length rest)) as [Heq|Hne]; [|done].
    cbn [negb orb].
    destruct (N.leb_spec (hp_count c) (hb_slot b)) as [_|Hlt]; [done|].
    specialize (Hown 0 c eq_refl). simpl in Hown. lia. }
  rewrite Himpl, IH; [done|].
  intros p c' Hp Hb. apply (Hown (S p) c' Hp). simpl. 
  apply lookup_lt_Some in Hp. lia.
Qed.

(** X4: [release] of a pointer that lies in no chunk of the pool fails
    [assert(released)]. *)
Theorem release_unowned_block_asserts d b :
  (∀ p c, pools_head d !! p = Some c →
          hb_chunk b = length (pools_head d) - 1 - p →
          (hp_count c ≤ hb_slot b)%N) →
  release d b = Fault AssertFailed.
Proof.
  intros Hown. unfold release. by rewrite pools_release_refused.
Qed.

Lemma release_unowned_block_asserts_witness :
  release fresh_domain {| hb_chunk := 0; hb_slot := 32 |} = Fault AssertFailed
  ∧ release fresh_domain {| hb_chunk := 1; hb_slot := 0 |} = Fault AssertFailed.
Proof.
  split; apply release_unowned_block_asserts.
  - intros [|p] c Hp Hb; simpl in *; [|done]. injection Hp as <-. by vm_compute.
  - intros [|p] c Hp Hb; simpl in *; [lia|done].
Defined.

(** X5: a block that was reserved and released is handed out again by the
    next reservation of that size: [reserve], [release], [reserve] returns
    the same block twice, and the delete list is not touched. *)
Theorem reserve_release_reserve_same_block fuel d len d1 b :
  Forall chunk_ok (pools_head d) → (0 < len < 134217728)%N →
  reserve fuel d len = Done (d1, b) →
  ∃ d2 d3,
    release d1 b = Done d2 ∧ reserve fuel d2 len = Done (d3, b) ∧
    delete_head d3 = delete_head d ∧
    (bitmap <$> pools_head d3) = (bitmap <$> pools_head d1).
Proof.
  intros Hpool Hlen Hres.
  destruct (reserve_inv fuel d len d1 b) as
    (c & rest & ix & Hd & Hblk & Hix & Hbit & Hlow & Hd1 & Hdel & -> & f & ->);
    [|done|].
  { eapply List.Forall_impl; [|exact Hpool]. intros c0. apply ck_bitmap. }
  assert (Hok : chunk_ok c).
  { destruct Hd as [Hd|(_ & -> & _)].
    - rewrite Hd in Hpool. by inversion Hpool.
    - apply chunk_ok_new; lia. }
  pose proof (chunk_ok_reserved c ix Hok Hix) as Hok'.
  assert (Hu : u32 (ix * blk_size c) = (ix * blk_size c)%N).
  { unfold u32. apply N.mod_small. destruct Hok as [? Hc Hf ? ?].
    unfold NUM_HAZP_CHUNK_BLOCKS in Hc. nia. }
  destruct (release_impl_block _ (length rest) ix Hok' Hix)
    as (hp' & _ & Hl & Hlook & Hrel).
  cbn [set_bitmap blk_size bitmap hp_count haz_ptrs] in Hrel.
  rewrite testbit_lor_pow2, N.eqb_refl, orb_true_r in Hrel.
  rewrite lxor_lor_pow2 in Hrel by done.
  set (c2 := {| blk_size := blk_size c; hp_count := hp_count c;
                bitmap := bitmap c; haz_ptrs := hp' |}) in *.
  set (d2 := {| pools_head := c2 :: rest; delete_head := delete_head d1 |}).
  assert (Hrelease : release d1 {| hb_chunk := length rest;
                                   hb_slot := u32 (ix * blk_size c) |} = Done d2).
  { unfold release. rewrite Hd1. cbn [pools_release]. rewrite Hu, Hrel. done. }
  destruct (reserve_spec f d2 c2 rest len eq_refl (ck_bitmap _ Hok))
    as (ix2 & Hix2 & Hbit2 & Hlow2 & Hres2).
  { simpl. by eapply bit_clear_not_full. }
  { done. }
  assert (ix2 = ix) as ->.
  { simpl in Hbit2, Hlow2.
    destruct (N.lt_trichotomy ix2 ix) as [Hlt|[->|Hgt]]; [|done|].
    - rewrite Hlow in Hbit2 by done. done.
    - rewrite Hlow2 in Hbit by done. done. }
  eexists d2, _. split; [done|]. split; [exact Hres2|].
  split; [simpl; congruence|]. simpl. by rewrite Hd1.
Qed.

Lemma reserve_release_reserve_same_block_witness :
  ∃ d1 b d2 d3,
    reserve 3 domain_new 2 = Done (d1, b) ∧
    release d1 b = Done d2 ∧ reserve 3 d2 2 = Done (d3, b).
Proof.
  destruct (reserve 3 domain_new 2) as [[d1 b]| |] eqn:Hres;
    try (by vm_compute in Hres).
  destruct (reserve_release_reserve_same_block 3 domain_new 2 d1 b)
    as (d2 & d3 & Hrel & Hres2 & _).
  - constructor.
  - lia.
  - exact Hres.
  - exists d1, b, d2, d3. split; [done|]. split; [exact Hrel|exact Hres2].
Defined.

(** X6: two reservations in a row never return overlapping blocks: the
    second block lies in the same chunk as the first and the two ranges of
    [len] slots are disjoint. *)
Theorem reserve_twice_disjoint_blocks fuel d len d1 b1 d2 b2 :
  Forall chunk_ok (pools_head d) → (0 < len < 134217728)%N →
  reserve fuel d len = Done (d1, b1) →
  reserve fuel d1 len = Done (d2, b2) →
  hb_chunk b2 = hb_chunk b1 ∧
  ((hb_slot b1 + len ≤ hb_slot b2)%N ∨ (hb_slot b2 + len ≤ hb_slot b1)%N).
Proof.
  intros Hpool Hlen Hres1 Hres2.
  destruct (reserve_inv fuel d len d1 b1) as
    (c & rest & ix & Hd & Hblk & Hix & Hbit & Hlow & Hd1 & Hdel & -> & f & ->);
    [|done|].
  { eapply List.Forall_impl; [|exact Hpool]. intros c0. apply ck_bitmap. }
  assert (Hok : chunk_ok c).
  { destruct Hd as [Hd|(_ & -> & _)].
    - rewrite Hd in Hpool. by inversion Hpool.
    - apply chunk_ok_new; lia. }
  pose proof (chunk_ok_reserved c ix Hok Hix) as Hok'.
  assert (Hrest : Forall chunk_ok rest).
  { destruct Hd as [Hd|(_ & _ & ->)]; [|constructor].
    rewrite Hd in Hpool. by inversion Hpool. }
  destruct (reserve_inv (S (S f)) d1 len d2 b2) as
    (c1 & rest1 & ix2 & Hd1' & Hblk2 & Hix2 & Hbit2 & Hlow2 & _ & _ & -> & _);
    [|done|].
  { rewrite Hd1. constructor; [apply (ck_bitmap _ Hok')|].
    eapply List.Forall_impl; [|exact Hrest]. intros c0. apply ck_bitmap. }
  destruct Hd1' as [Hd1'|(Hnil & _)]; [|by rewrite Hd1 in Hnil].
  rewrite Hd1 in Hd1'. injection Hd1' as <- <-.
  cbn [set_bitmap blk_size bitmap hb_chunk hb_slot] in *.
  split; [done|].
  assert (Hne : ix2 ≠ ix).
  { intros ->. by rewrite testbit_lor_pow2, N.eqb_refl, orb_true_r in Hbit2. }
  assert (Hu : ∀ k, (k < 32)%N → u32 (k * blk_size c) = (k * blk_size c)%N).
  { intros k Hk. unfold u32. apply N.mod_small. destruct Hok as [? Hc Hf ? ?].
    unfold NUM_HAZP_CHUNK_BLOCKS in Hc. nia. }
  rewrite !Hu by done. rewrite Hblk. nia.
Qed.

Lemma reserve_twice_disjoint_blocks_witness :
  ∃ d1 b1 d2 b2,
    reserve 3 domain_new 2 = Done (d1, b1) ∧
    reserve 3 d1 2 = Done (d2, b2) ∧
    hb_chunk b2 = hb_chunk b1 ∧
    ((hb_slot b1 + 2 ≤ hb_slot b2)%N ∨ (hb_slot b2 + 2 ≤ hb_slot b1)%N).
Proof.
  destruct (reserve 3 domain_new 2) as [[d1 b1]| |] eqn:Hres1;
    try (by vm_compute in Hres1).
  destruct (reserve 3 d1 2) as [[d2 b2]| |] eqn:Hres2;
    try (by vm_compute in Hres1; injection Hres1 as <- <-; vm_compute in Hres2).
  destruct (reserve_twice_disjoint_blocks 3 domain_new 2 d1 b1 d2 b2)
    as (Hchunk & Hslots).
  - constructor.
  - lia.
  - exact Hres1.
  - exact Hres2.
  - exists d1, b1, d2, b2. by repeat split.
Defined.

End DomainBlockTheorems.
(** ** Snapshots, protection and the delete list *)

Section Protection.
Import Hazp.

(** What the snapshot of a pool with at least one slot protects. *)
Lemma snapshot_protects fuel d :
  let captured := snapshot_copy (pools_head d) in
  0 < length captured → snapshot_fits (pools_head d) →
  length captured ≤ fuel →
  ∃ hps,
    snapshot_new fuel d = Done hps ∧
    (∀ p, ∃ b, search hps p = Done b) ∧
    (∀ v, v ∈ captured → v ≠ nullptr →
          is_protected hps (clear_mark_of_word v) = true) ∧
    (∀ p, is_protected hps p = true → p ≠ nullptr →
          ∃ v, v ∈ captured ∧ v ≠ nullptr ∧ clear_mark_of_word v = p).
Proof.
  intros captured Hpos Hfits Hfuel.
  destruct (snapshot_new_spec fuel d Hpos Hfits Hfuel)
    as (hps & k & nz & Hnew & Hsplit & Hnz & _ & Hrange & Hsearch).
  fold captured in Hsplit.
  pose proof (merge_sort_Permutation N.le captured) as Hperm.
  exists hps. split; [done|]. split.
  { intros p. destruct (Hsearch p) as (b & Hb & _). by exists b. }
  split.
  - intros p Hp Hnn. unfold is_protected.
    destruct (Hsearch (clear_mark_of_word p)) as (b & -> & Hiff).
    assert (b = true) as ->; [|done].
    apply Hiff. rewrite Hrange. apply elem_of_app. right.
    apply list_elem_of_fmap_2.
    rewrite <- Hperm, Hsplit in Hp. apply elem_of_app in Hp as [Hp|Hp]; [|done].
    apply elem_of_replicate in Hp as [-> _]. done.
  - intros p Hprot Hnn. unfold is_protected in Hprot.
    destruct (Hsearch p) as (b & Hb & Hiff). rewrite Hb in Hprot.
    destruct b; [|done].
    assert (Hin : p ∈ search_range hps) by (by apply Hiff).
    rewrite Hrange in Hin. apply elem_of_app in Hin as [Hin|Hin].
    + case_decide; [by apply elem_of_nil in Hin|].
      apply list_elem_of_singleton in Hin. done.
    + apply list_elem_of_fmap in Hin as (v & -> & Hv).
      exists v. split; [|split; [|done]].
      * rewrite <- Hperm, Hsplit. apply elem_of_app. by right.
      * rewrite List.Forall_forall in Hnz. by apply Hnz, list_elem_of_In.
Qed.

Lemma collect_scan_spec hps :
  (∀ p, ∃ b, search hps p = Done b) →
  ∀ local fr,
    collect_scan hps local fr
    = Done (filter (λ v, is_protected hps v) local,
            fr ++ filter (λ v, ¬ is_protected hps v ∧ v ≠ nullptr) local).
Proof.
  intros Htot. induction local as [|v local IH]; intros fr.
  - simpl. by rewrite app_nil_r.
  - cbn [collect_scan]. destruct (Htot v) as (b & Hb). rewrite Hb.
    assert (Hp : is_protected hps v = b) by (unfold is_protected; rewrite Hb; by destruct b).
    destruct b.
    + rewrite IH.
      rewrite (filter_cons_True (λ v, is_protected hps v)) by (simpl; rewrite Hp; simpl; tauto).
      rewrite filter_cons_False by (simpl; rewrite Hp; simpl; tauto).
      done.
    + rewrite IH.
      rewrite (filter_cons_False (λ v, is_protected hps v)) by (simpl; rewrite Hp; simpl; tauto).
      destruct (N.eqb_spec v nullptr) as [Hv|Hv].
      * rewrite filter_cons_False by tauto. done.
      * rewrite filter_cons_True by (simpl; rewrite Hp; simpl; tauto).
        by rewrite <- app_assoc.
Qed.

Lemma fold_push_delete_node kept :
  ∀ d, fold_left push_delete_node kept d
       = {| pools_head := pools_head d;
            delete_head := reverse kept ++ delete_head d |}.
Proof.
  induction kept as [|v kept IH]; intros d; [by destruct d|].
  simpl. rewrite IH. simpl. by rewrite reverse_cons, <- app_assoc.
Qed.

Lemma collect_spec fuel d fr :
  let captured := snapshot_copy (pools_head d) in
  0 < length captured → snapshot_fits (pools_head d) →
  length captured ≤ fuel →
  ∃ hps,
    snapshot_new fuel d = Done hps ∧
    (∀ v, v ∈ captured → v ≠ nullptr →
          is_protected hps (clear_mark_of_word v) = true) ∧
    (∀ p, is_protected hps p = true → p ≠ nullptr →
          ∃ v, v ∈ captured ∧ v ≠ nullptr ∧ clear_mark_of_word v = p) ∧
    collect fuel d fr
    = Done ({| pools_head := pools_head d;
               delete_head :=
                 reverse (filter (λ v, is_protected hps v) (delete_head d)) |},
            fr ++ filter (λ v, ¬ is_protected hps v ∧ v ≠ nullptr)
                         (delete_head d)).
Proof.
  intros captured Hpos Hfits Hfuel.
  destruct (snapshot_protects fuel d Hpos Hfits Hfuel)
    as (hps & Hnew & Htot & Hprot & Hunprot).
  exists hps. split; [done|]. split; [done|]. split; [done|].
  unfold collect.
  assert (Hsame : snapshot_new fuel {| pools_head := pools_head d; delete_head := [] |}
                  = snapshot_new fuel d) by done.
  rewrite Hsame, Hnew, collect_scan_spec by done.
  rewrite fold_push_delete_node. simpl. by rewrite app_nil_r.
Qed.

End Protection.
Section CollectTheorems.
Import Hazp.

(** X7: a domain without any chunk cannot be snapshot: the constructor of
    the snapshot allocates an array of no entries and its bisection loop,
    a [do ... while], reads [begin[0]]. So [collect], and with it the
    destructor of the domain, runs into that read when no reservation was
    made on the domain. *)
Theorem snapshot_of_empty_pool_faults fuel d fr :
  pools_head d = [] →
  snapshot_new (S fuel) d = Fault OutOfBounds ∧
  collect (S fuel) d fr = Fault OutOfBounds ∧
  hazard_pointer_domain_dtor (S fuel) d fr = Fault OutOfBounds.
Proof.
  intros Hd.
  assert (Hsnap : ∀ d', pools_head d' = [] →
                        snapshot_new (S fuel) d' = Fault OutOfBounds).
  { intros d' Hd'. unfold snapshot_new. rewrite Hd'. reflexivity. }
  assert (Hcol : collect (S fuel) d fr = Fault OutOfBounds).
  { unfold collect. rewrite (Hsnap {| pools_head := pools_head d;
                                      delete_head := [] |}); done. }
  split; [by apply Hsnap|]. split; [done|].
  unfold hazard_pointer_domain_dtor. by rewrite Hcol.
Qed.

Lemma snapshot_of_empty_pool_faults_witness :
  snapshot_new 1 domain_new = Fault OutOfBounds ∧
  collect 1 domain_new [] = Fault OutOfBounds ∧
  hazard_pointer_domain_dtor 1 domain_new [] = Fault OutOfBounds.
Proof. apply (snapshot_of_empty_pool_faults 0 domain_new []). reflexivity. Defined.

Lemma filter_reverse_Permutation (P : N → Prop) `{∀ x, Decision (P x)} l :
  filter P (reverse l) ≡ₚ filter P l.
Proof. by rewrite reverse_Permutation. Qed.

Lemma filter_split_protected hps l :
  filter (λ v, v ≠ nullptr) (filter (λ v, is_protected hps v) l)
  ++ filter (λ v, ¬ is_protected hps v ∧ v ≠ nullptr) l
  ≡ₚ filter (λ v, v ≠ nullptr) l.
Proof.
  induction l as [|v l IH]; [done|].
  destruct (is_protected hps v) eqn:Hp.
  - rewrite (filter_cons_True (λ v, is_protected hps v))
      by (simpl; rewrite Hp; simpl; tauto).
    rewrite (filter_cons_False (λ v, ¬ is_protected hps v ∧ v ≠ nullptr))
      by (simpl; rewrite Hp; simpl; tauto).
    destruct (decide (v = nullptr)) as [Hv|Hv].
    + rewrite !(filter_cons_False (λ v, v ≠ nullptr)) by tauto. done.
    + rewrite !(filter_cons_True (λ v, v ≠ nullptr)) by done.
      simpl. by rewrite IH.
  - rewrite (filter_cons_False (λ v, is_protected hps v))
      by (simpl; rewrite Hp; simpl; tauto).
    destruct (decide (v = nullptr)) as [Hv|Hv].
    + rewrite (filter_cons_False (λ v, ¬ is_protected hps v ∧ v ≠ nullptr))
        by tauto.
      rewrite (filter_cons_False (λ v, v ≠ nullptr)) by tauto. done.
    + rewrite (filter_cons_True (λ v, ¬ is_protected hps v ∧ v ≠ nullptr))
        by (simpl; rewrite Hp; simpl; tauto).
      rewrite (filter_cons_True (λ v, v ≠ nullptr)) by done.
      rewrite <- Permutation_middle. by rewrite IH.
Qed.

(** X8: on a domain with at least one hazard slot [collect] returns and
    splits the delete list: the pointers that no hazard slot holds (up to
    the mark bit) are freed, the others are pushed back on the delete list;
    no pointer is lost or freed twice, and the pool is not touched. *)
Theorem collect_frees_the_unprotected fuel d fr :
  let captured := snapshot_copy (pools_head d) in
  0 < length captured → snapshot_fits (pools_head d) →
  length captured ≤ fuel →
  ∃ d' freed_now,
    collect fuel d fr = Done (d', fr ++ freed_now) ∧
    pools_head d' = pools_head d ∧
    filter (λ v, v ≠ nullptr) (delete_head d') ++ freed_now
      ≡ₚ filter (λ v, v ≠ nullptr) (delete_head d) ∧
    (∀ p, p ∈ freed_now →
          ∀ v, v ∈ captured → v ≠ nullptr → clear_mark_of_word v ≠ p) ∧
    (∀ p, p ∈ delete_head d' → p ≠ nullptr →
          ∃ v, v ∈ captured ∧ v ≠ nullptr ∧ clear_mark_of_word v = p).
Proof.
  intros captured Hpos Hfits Hfuel.
  destruct (collect_spec fuel d fr Hpos Hfits Hfuel)
    as (hps & Hnew & Hprot & Hunprot & Hcol).
  eexists _, _. split; [exact Hcol|]. split; [done|]. cbn [delete_head].
  split; [|split].
  - rewrite filter_reverse_Permutation. apply filter_split_protected.
  - intros p Hp v Hv Hnn <-.
    apply list_elem_of_filter in Hp as [[Hnp _] _].
    apply Hnp. rewrite (Hprot v Hv Hnn). done.
  - intros p Hp Hnn. apply elem_of_reverse, list_elem_of_filter in Hp as [Hp _].
    apply Hunprot; [|done]. by destruct (is_protected hps p).
Qed.

Lemma collect_frees_the_unprotected_witness :
  let d := {| pools_head := pools_head (domain retire_sample);
              delete_head := [8; 2; 6]%N |} in
  let captured := snapshot_copy (pools_head d) in
  ∃ d' freed_now,
    collect 4 d [] = Done (d', [] ++ freed_now) ∧
    pools_head d' = pools_head d ∧
    filter (λ v, v ≠ nullptr) (delete_head d') ++ freed_now
      ≡ₚ filter (λ v, v ≠ nullptr) (delete_head d) ∧
    (∀ p, p ∈ freed_now →
          ∀ v, v ∈ captured → v ≠ nullptr → clear_mark_of_word v ≠ p) ∧
    (∀ p, p ∈ delete_head d' → p ≠ nullptr →
          ∃ v, v ∈ captured ∧ v ≠ nullptr ∧ clear_mark_of_word v = p).
Proof.
  apply (collect_frees_the_unprotected 4
           {| pools_head := pools_head (domain retire_sample);
              delete_head := [8; 2; 6]%N |} []).
  - simpl. lia.
  - reflexivity.
  - simpl. lia.
Defined.

End CollectTheorems.
Section HazardSlots.
Import Hazp.

Lemma hp_write_inv pools b index v pools' :
  hp_write pools b index v = Done pools' →
  ∃ pre c post,
    pools = pre ++ c :: post ∧ length post = hb_chunk b ∧
    N.to_nat (hb_slot b + index) < length (haz_ptrs c) ∧
    pools' = pre ++ {| blk_size := blk_size c; hp_count := hp_count c;
                       bitmap := bitmap c;
                       haz_ptrs := <[N.to_nat (hb_slot b + index) := v]>
                                     (haz_ptrs c) |} :: post.
Proof.
  unfold hp_write. intros Hw.
  destruct (Nat.leb_spec (length pools) (hb_chunk b)) as [|Hlt]; [done|].
  destruct (pools !! (length pools - 1 - hb_chunk b)) as [c|] eqn:Hc; [|done].
  destruct (Nat.ltb_spec (N.to_nat (hb_slot b + index)) (length (haz_ptrs c)))
    as [Hslot|]; [|done].
  injection Hw as <-.
  pose proof (take_drop_middle _ _ _ Hc) as Hsplit.
  exists (take (length pools - 1 - hb_chunk b) pools), c,
         (drop (S (length pools - 1 - hb_chunk b)) pools).
  split; [done|]. split; [rewrite length_drop; lia|]. split; [done|].
  apply insert_take_drop. lia.
Qed.

Lemma hp_write_spec pre c post b index v :
  length post = hb_chunk b →
  N.to_nat (hb_slot b + index) < length (haz_ptrs c) →
  hp_write (pre ++ c :: post) b index v
  = Done (pre ++ {| blk_size := blk_size c; hp_count := hp_count c;
                    bitmap := bitmap c;
                    haz_ptrs := <[N.to_nat (hb_slot b + index) := v]>
                                  (haz_ptrs c) |} :: post).
Proof.
  intros Hpost Hslot. unfold hp_write.
  rewrite length_app. simpl.
  destruct (Nat.leb_spec (length pre + S (length post)) (hb_chunk b)) as [|_]; [lia|].
  replace (length pre + S (length post) - 1 - hb_chunk b) with (length pre + 0) by lia.
  rewrite lookup_app_r, Nat.add_0_r, Nat.sub_diag by lia. simpl.
  destruct (Nat.ltb_spec (N.to_nat (hb_slot b + index)) (length (haz_ptrs c)))
    as [_|]; [|lia].
  rewrite insert_app_r_alt, Nat.sub_diag by lia. done.
Qed.

Lemma hp_read_spec pre c post b index :
  length post = hb_chunk b →
  hp_read (pre ++ c :: post) b index
  = match haz_ptrs c !! N.to_nat (hb_slot b + index) with
    | Some v => Done v
    | None => Fault OutOfBounds
    end.
Proof.
  intros Hpost. unfold hp_read. rewrite length_app. simpl.
  destruct (Nat.leb_spec (length pre + S (length post)) (hb_chunk b)) as [|_]; [lia|].
  replace (length pre + S (length post) - 1 - hb_chunk b) with (length pre + 0) by lia.
  rewrite lookup_app_r, Nat.add_0_r, Nat.sub_diag by lia. done.
Qed.

Lemma snapshot_size_app acc pools :
  fold_left (λ sz c, u32 (sz + hp_count c)) pools acc
  = fold_left (λ sz n, u32 (sz + n)) (hp_count <$> pools) acc.
Proof.
  revert acc. induction pools as [|c pools IH]; intros acc; [done|].
  simpl. apply IH.
Qed.

Lemma snapshot_copy_write pre c post slot v :
  slot < length (haz_ptrs c) → length (haz_ptrs c) = N.to_nat (hp_count c) →
  let c' := {| blk_size := blk_size c; hp_count := hp_count c;
               bitmap := bitmap c; haz_ptrs := <[slot := v]> (haz_ptrs c) |} in
  v ∈ snapshot_copy (pre ++ c' :: post) ∧
  length (snapshot_copy (pre ++ c' :: post))
  = length (snapshot_copy (pre ++ c :: post)) ∧
  snapshot_size (pre ++ c' :: post) = snapshot_size (pre ++ c :: post) ∧
  (∀ u, u ∈ snapshot_copy (pre ++ c :: post) →
        u ∈ snapshot_copy (pre ++ c' :: post) ∨ haz_ptrs c !! slot = Some u).
Proof.
  intros Hslot Hlen c'. unfold snapshot_copy, generic_hazptr_t in *.
  rewrite !flat_map_app. cbn [flat_map].
  assert (copy_hazard_pointers c = haz_ptrs c) as ->
    by (unfold copy_hazard_pointers; apply take_ge; lia).
  assert (copy_hazard_pointers c' = <[slot := v]> (haz_ptrs c)) as ->
    by (unfold copy_hazard_pointers; simpl; apply take_ge;
        rewrite length_insert; lia).
  split; [|split; [|split]].
  - apply elem_of_app. right. apply elem_of_app. left.
    apply list_elem_of_lookup. exists slot. by apply list_lookup_insert_eq.
  - rewrite !length_app, length_insert. done.
  - unfold snapshot_size. rewrite !snapshot_size_app, !fmap_app. done.
  - intros u Hu. rewrite !elem_of_app in Hu. rewrite !elem_of_app.
    destruct Hu as [Hu|[Hu|Hu]]; [by (left; left)| |by (left; right; right)].
    apply list_elem_of_lookup in Hu as (i & Hi).
    destruct (decide (i = slot)) as [->|Hne]; [by right|].
    left. right. left. apply list_elem_of_lookup. exists i.
    by rewrite list_lookup_insert_ne.
Qed.

Lemma hp_write_chunk_ok pools b index v pools' :
  Forall chunk_ok pools → hp_write pools b index v = Done pools' →
  Forall chunk_ok pools'.
Proof.
  intros Hok Hw. apply hp_write_inv in Hw as (pre & c & post & -> & _ & _ & ->).
  apply Forall_app in Hok as [Hpre Hpost]. apply Forall_app. split; [done|].
  inversion Hpost as [|? ? Hc Hrest]; subst. constructor; [|done].
  destruct Hc. constructor; simpl; try done. by rewrite length_insert.
Qed.

End HazardSlots.
Section StoreTheorems.
Import Hazp.

(** X9: a pointer stored in a hazard slot with [store] is read back by
    [at], is found by every snapshot taken while it stays there, and is
    therefore not freed by [collect]: if it is on the delete list it is
    pushed back. The pointer is an object address, its mark bit clear. *)
Theorem stored_pointer_is_protected fuel S hp_block d index p d1 fr :
  Forall chunk_ok (pools_head d) → snapshot_fits (pools_head d) →
  length (snapshot_copy (pools_head d)) ≤ fuel →
  p ≠ nullptr → clear_mark_of_word p = p →
  store S hp_block d index p = Done d1 →
  at_ S hp_block d1 index = Done p ∧
  ∃ hps d2 freed_now,
    snapshot_new fuel d1 = Done hps ∧ search hps p = Done true ∧
    collect fuel d1 fr = Done (d2, fr ++ freed_now) ∧
    (p ∉ freed_now) ∧ (p ∈ delete_head d → p ∈ delete_head d2).
Proof.
  intros Hok Hfits Hfuel Hnn Heven Hstore. unfold store in Hstore.
  destruct (index <? S)%N eqn:Hidx; [|done]. cbn [negb] in Hstore.
  destruct (hp_write (pools_head d) hp_block index p) as [pools| |] eqn:Hw;
    try done.
  injection Hstore as <-.
  destruct (hp_write_inv _ _ _ _ _ Hw) as (pre & c & post & Hd & Hpost & Hslot & ->).
  assert (Hc : chunk_ok c).
  { rewrite Hd in Hok. apply Forall_app in Hok as [_ Hok]. by inversion Hok. }
  destruct (snapshot_copy_write pre c post _ p Hslot (ck_len _ Hc))
    as (Hin & Hlen & Hsize & _).
  split.
  { unfold at_. rewrite Hidx. cbn [negb pools_head].
    rewrite hp_read_spec by done. cbn [haz_ptrs].
    by rewrite list_lookup_insert_eq. }
  set (d1 := {| pools_head := _; delete_head := delete_head d |}).
  change (p ∈ snapshot_copy (pools_head d1)) in Hin.
  change (length (snapshot_copy (pools_head d1))
          = length (snapshot_copy (pre ++ c :: post))) in Hlen.
  change (snapshot_size (pools_head d1) = snapshot_size (pre ++ c :: post))
    in Hsize.
  rewrite <- Hd in Hlen, Hsize.
  destruct (collect_spec fuel d1 fr) as (hps & Hnew & Hprot & _ & Hcol).
  { destruct (snapshot_copy (pools_head d1));
      [by apply elem_of_nil in Hin|simpl; lia]. }
  { unfold snapshot_fits. rewrite Hlen, Hsize. exact Hfits. }
  { rewrite Hlen. exact Hfuel. }
  specialize (Hprot p Hin Hnn). rewrite Heven in Hprot.
  exists hps. eexists _, _. split; [done|]. split.
  { unfold is_protected in Hprot. by destruct (search hps p) as [[]| |]. }
  split; [exact Hcol|]. split.
  - intros Hp. apply list_elem_of_filter in Hp as [[Hnp _] _].
    apply Hnp. by rewrite Hprot.
  - intros Hp. cbn [delete_head d1]. apply elem_of_reverse.
    apply list_elem_of_filter. split; [by rewrite Hprot|done].
Qed.

Lemma stored_pointer_is_protected_witness :
  let d := {| pools_head := pools_head fresh_domain; delete_head := [8]%N |} in
  let hp_block := {| hb_chunk := 0; hb_slot := 0%N |} in
  ∃ d1,
    store 1 hp_block d 0 8 = Done d1 ∧
    at_ 1 hp_block d1 0 = Done 8%N ∧
    ∃ hps d2 freed_now,
      snapshot_new 32 d1 = Done hps ∧ search hps 8 = Done true ∧
      collect 32 d1 [] = Done (d2, [] ++ freed_now) ∧
      (8%N ∉ freed_now) ∧ (8%N ∈ delete_head d → 8%N ∈ delete_head d2).
Proof.
  intros d hp_block.
  destruct (store 1 hp_block d 0 8) as [d1| |] eqn:Hstore;
    try (by vm_compute in Hstore).
  exists d1. split; [done|].
  apply (stored_pointer_is_protected 32 1 hp_block d 0 8 d1 []).
  - repeat constructor.
  - reflexivity.
  - simpl. lia.
  - discriminate.
  - reflexivity.
  - exact Hstore.
Defined.

End StoreTheorems.
Section DeleteItem.
Import Hazp.

Lemma filter_nonnull_id (l : list N) :
  Forall (λ v, v ≠ nullptr) l → filter (λ v, v ≠ nullptr) l = l.
Proof.
  induction 1 as [|v l Hv _ IH]; [done|].
  rewrite filter_cons_True by done. by rewrite IH.
Qed.

Lemma filter_nonnull_replicate n :
  filter (λ v, v ≠ nullptr) (replicate n nullptr) = [].
Proof.
  induction n as [|n IH]; [done|]. simpl.
  rewrite filter_cons_False by tauto. done.
Qed.

Lemma filter_protected_all hps (del : list N) :
  filter (λ v, ¬ is_protected hps v) del = [] →
  filter (λ v, is_protected hps v) del = del.
Proof.
  induction del as [|v del IH]; [done|]. intros Hnil.
  destruct (is_protected hps v) eqn:Hp.
  - rewrite filter_cons_False in Hnil by (simpl; rewrite Hp; simpl; tauto).
    rewrite filter_cons_True by (simpl; rewrite Hp; simpl; tauto).
    by rewrite IH.
  - rewrite filter_cons_True in Hnil by (simpl; rewrite Hp; simpl; tauto).
    done.
Qed.

(** [reclaim] on a full buffer of non-null pointers, in the form the
    callers use: the buffer is well formed again and every pointer is either
    freed, or kept in the buffer, or handed to the domain. *)
Lemma reclaim_full_spec fuel R s :
  let captured := snapshot_copy (pools_head (domain s)) in
  let del := deleted (context s) in
  0 < length captured → snapshot_fits (pools_head (domain s)) →
  length captured ≤ fuel → R < fuel →
  0 < R → (N.of_nat R < 4294967296)%N →
  length del = R → del_index (context s) = N.of_nat R →
  Forall (λ v, v ≠ nullptr) del →
  ∃ hps d' ctx',
    snapshot_new fuel (domain s) = Done hps ∧
    (∀ v, v ∈ captured → v ≠ nullptr →
          is_protected hps (clear_mark_of_word v) = true) ∧
    reclaim fuel R s
    = Done {| domain := d'; context := ctx';
              freed := freed s ++ filter (λ v, ¬ is_protected hps v) del |} ∧
    pools_head d' = pools_head (domain s) ∧
    buffer_ok R ctx' ∧
    filter (λ v, v ≠ nullptr) (deleted ctx') ++ delete_head d'
      ≡ₚ filter (λ v, is_protected hps v) del ++ delete_head (domain s).
Proof.
  intros captured del Hpos Hfits Hfuel HRfuel HR0 HR32 Hlen Hdi Hnn.
  destruct (snapshot_protects fuel (domain s) Hpos Hfits Hfuel)
    as (hps & Hnew & Htot & Hprot & _).
  exists hps. unfold reclaim. rewrite Hnew.
  pose proof (reclaim_scan_spec hps Htot del [] (del_index (context s)) (freed s))
    as Hscan.
  simpl in Hscan. fold del in Hscan. rewrite Hlen in Hscan.
  replace {| deleted := del; del_index := del_index (context s) |}
    with (context s) in Hscan by (by destruct (context s)).
  rewrite Hscan. clear Hscan.
  rewrite filter_unprotected_nonnull by done.
  pose proof (length_filter_split hps del) as Hsplit.
  set (kept := filter (λ v, is_protected hps v) del) in *.
  set (dropped := filter (λ v, ¬ is_protected hps v) del) in *.
  rewrite Hdi, dec32_iter by lia. cbn [del_index Hazp.deleted].
  destruct (decide (dropped = [])) as [Hnil|Hsome].
  - rewrite Hnil. simpl. rewrite Nat.sub_0_r, N.eqb_refl.
    rewrite scan_slot_all_protected by done.
    pose proof (enqueue_for_delete_n_spec del [] (domain s)) as Henq.
    simpl in Henq. rewrite Hlen in Henq. rewrite Henq.
    eexists _, _. split; [done|]. split; [done|]. split; [done|].
    split; [done|]. split.
    + constructor; cbn [deleted del_index].
      * by rewrite length_replicate.
      * lia.
      * intros i v Hi. simpl in Hi. lia.
      * intros i v _ Hv. by apply lookup_replicate in Hv as [-> _].
    + cbn [deleted delete_head]. rewrite filter_nonnull_replicate.
      rewrite filter_nonnull_id by done. simpl.
      unfold kept. rewrite (filter_protected_all hps del Hnil).
      by rewrite reverse_Permutation.
  - assert (Hd : 0 < length dropped) by (destruct dropped; [done|simpl; lia]).
    destruct (N.eqb_spec (N.of_nat (R - length dropped)) (N.of_nat R)) as [Heq|_];
      [lia|].
    destruct (compact_spec fuel (scan_slot hps <$> del) 0 (R - 1))
      as (del' & k' & -> & Hperm & Hl & Hdd).
    + rewrite length_fmap. lia.
    + lia.
    + lia.
    + intros i v Hi. lia.
    + intros i v Hi Hv. apply lookup_lt_Some in Hv. rewrite length_fmap in Hv. lia.
    + eexists _, _. split; [done|]. split; [done|]. split; [done|].
      split; [done|].
      destruct (live_dead_partition del' k' Hl Hdd) as [Hfil Hdrop].
      assert (Hlen' : length del' = R)
        by (rewrite (Permutation_length Hperm), length_fmap; done).
      assert (Hkept : take k' del' ≡ₚ kept).
      { rewrite <- Hfil, Hperm. rewrite (filter_scan_slot hps del Hnn). reflexivity. }
      assert (Hk' : length kept = k' `min` R)
        by (rewrite <- (Permutation_length Hkept), length_take, Hlen'; done).
      split.
      * constructor; cbn [deleted del_index].
        -- done.
        -- lia.
        -- rewrite Nat2N.id. intros i v Hi Hv. apply (Hl i v); [lia|done].
        -- rewrite Nat2N.id. intros i v Hi Hv.
           destruct (decide (k' ≤ i)) as [Hle|Hgt]; [by apply (Hdd i v)|].
           apply lookup_lt_Some in Hv. lia.
      * cbn [deleted delete_head]. rewrite Hfil, Hkept. done.
Qed.

Lemma live_before_insert del k p :
  live_before del k → p ≠ nullptr → live_before (<[k := p]> del) (S k).
Proof.
  intros Hl Hp i v Hi Hv. destruct (decide (i = k)) as [->|Hne].
  - apply lookup_lt_Some in Hv as Hlt. rewrite length_insert in Hlt.
    rewrite list_lookup_insert_eq in Hv by done. by injection Hv as <-.
  - rewrite list_lookup_insert_ne in Hv by done. apply (Hl i v); [lia|done].
Qed.

Lemma dead_from_insert del k p :
  dead_from del k → dead_from (<[k := p]> del) (S k).
Proof.
  intros Hd i v Hi Hv. rewrite list_lookup_insert_ne in Hv by lia.
  apply (Hd i v); [lia|done].
Qed.

Lemma filter_nonnull_insert del k p :
  k < length del → live_before del k → dead_from del k → p ≠ nullptr →
  filter (λ v, v ≠ nullptr) (<[k := p]> del)
  = filter (λ v, v ≠ nullptr) del ++ [p].
Proof.
  intros Hk Hl Hd Hp.
  destruct (live_dead_partition del k Hl Hd) as [Hfil Hdrop].
  destruct (live_dead_partition (<[k := p]> del) (S k)) as [Hfil' _].
  { by apply live_before_insert. }
  { by apply dead_from_insert. }
  rewrite Hfil, Hfil'.
  rewrite insert_take_drop by done.
  rewrite take_app_ge by (rewrite length_take; lia).
  rewrite length_take. replace (S k - k `min` length del) with 1 by lia.
  simpl. by rewrite take_0.
Qed.

End DeleteItem.
Section DeleteItemTheorems.
Import Hazp.

(** X10: [delete_item] of a non-null pointer on a well-formed retire
    buffer returns and leaves the buffer well formed ([del_index] below [R]
    again, so the next call neither fails its assertion nor writes beyond
    the array). No pointer is lost or duplicated: the pointers waiting in
    the buffer, those on the domain's delete list and those freed by the
    call are together the retired pointer and the ones that waited before.
    A pointer that some hazard slot holds (up to the mark bit) is not
    freed. *)
Theorem delete_item_keeps_buffer fuel R s p :
  let captured := snapshot_copy (pools_head (domain s)) in
  0 < length captured → snapshot_fits (pools_head (domain s)) →
  length captured ≤ fuel → R < fuel → (N.of_nat R < 4294967296)%N →
  buffer_ok R (context s) → p ≠ nullptr →
  ∃ s' freed_now,
    delete_item fuel R s p = Done s' ∧
    buffer_ok R (context s') ∧
    pools_head (domain s') = pools_head (domain s) ∧
    freed s' = freed s ++ freed_now ∧
    filter (λ v, v ≠ nullptr) (deleted (context s'))
      ++ delete_head (domain s') ++ freed_now
    ≡ₚ p :: filter (λ v, v ≠ nullptr) (deleted (context s))
         ++ delete_head (domain s) ∧
    (∀ q, q ∈ freed_now →
          ∀ v, v ∈ captured → v ≠ nullptr → clear_mark_of_word v ≠ q).
Proof.
  intros captured Hpos Hfits Hfuel HRfuel HR32 [Hlen Hidx Hlive Hdead] Hp.
  set (di := del_index (context s)) in *.
  set (del := deleted (context s)) in *.
  unfold delete_item. fold di del.
  destruct (N.leb_spec di (N.of_nat R)) as [_|?]; [|lia]. cbn [negb].
  destruct (Nat.ltb_spec (N.to_nat di) R) as [_|?]; [|lia]. cbn [negb].
  assert (Hu : u32 (di + 1) = (di + 1)%N) by (unfold u32; apply N.mod_small; lia).
  cbn [del_index]. rewrite Hu.
  pose proof (filter_nonnull_insert del (N.to_nat di) p ltac:(lia) Hlive Hdead Hp)
    as Hfilter.
  destruct (N.eqb_spec (di + 1) (N.of_nat R)) as [Hfull|Hroom].
  - set (s1 := {| domain := domain s;
                  context := {| deleted := <[N.to_nat di := p]> del;
                                del_index := (di + 1)%N |};
                  freed := freed s |}).
    destruct (reclaim_full_spec fuel R s1)
      as (hps & d' & ctx' & Hnew & Hprot & Hrec & Hpools & Hbuf & Hperm);
      try done.
    + lia.
    + cbn [s1 context deleted]. by rewrite length_insert.
    + cbn [s1 context deleted].
      apply list.Forall_forall. intros v Hv.
      apply list_elem_of_lookup in Hv as (i & Hi).
      apply lookup_lt_Some in Hi as Hlt. rewrite length_insert in Hlt.
      eapply (live_before_insert del (N.to_nat di) p Hlive Hp i v); [lia|done].
    + rewrite Hrec. eexists _, _. split; [done|]. cbn [domain context freed].
      split; [done|]. split; [done|]. split; [done|]. split.
      * cbn [s1 context deleted domain] in Hperm.
        rewrite (assoc (++)), Hperm.
        rewrite <- (assoc (++)), (comm (++) (delete_head _)), (assoc (++)).
        cbn [s1 context deleted].
        pose proof (filter_app_complement (λ v, is_protected hps v)
                      (<[N.to_nat di := p]> del)) as Hc.
        cbv beta in Hc. rewrite Hc. clear Hc.
        rewrite <- (filter_nonnull_id (<[N.to_nat di := p]> del)), Hfilter.
        -- rewrite <- (assoc (++)). simpl. by rewrite <- Permutation_middle.
        -- apply list.Forall_forall. intros v Hv.
           apply list_elem_of_lookup in Hv as (i & Hi).
           apply lookup_lt_Some in Hi as Hlt. rewrite length_insert in Hlt.
           eapply (live_before_insert del (N.to_nat di) p Hlive Hp i v); [lia|done].
      * intros q Hq v Hv Hnn <-.
        apply list_elem_of_filter in Hq as [Hnq _]. apply Hnq.
        rewrite (Hprot v Hv Hnn). exact I.
  - eexists _, []. split; [done|]. cbn [domain context freed deleted del_index].
    split; [|split; [done|split; [by rewrite app_nil_r|split;
      [|intros q Hq; by apply elem_of_nil in Hq]]]].
    + constructor; cbn [deleted del_index].
      * by rewrite length_insert.
      * lia.
      * replace (N.to_nat (di + 1)) with (S (N.to_nat di)) by lia.
        by apply live_before_insert.
      * replace (N.to_nat (di + 1)) with (S (N.to_nat di)) by lia.
        by apply dead_from_insert.
    + rewrite app_nil_r, Hfilter. rewrite <- (assoc (++)). simpl.
      by rewrite <- Permutation_middle.
Qed.

Lemma delete_item_keeps_buffer_witness :
  let s := retire_room in
  let captured := snapshot_copy (pools_head (domain s)) in
  ∃ s' freed_now,
    delete_item 4 3 s 6 = Done s' ∧
    buffer_ok 3 (context s') ∧
    pools_head (domain s') = pools_head (domain s) ∧
    freed s' = freed s ++ freed_now ∧
    filter (λ v, v ≠ nullptr) (deleted (context s'))
      ++ delete_head (domain s') ++ freed_now
    ≡ₚ 6%N :: filter (λ v, v ≠ nullptr) (deleted (context s))
         ++ delete_head (domain s) ∧
    (∀ q, q ∈ freed_now →
          ∀ v, v ∈ captured → v ≠ nullptr → clear_mark_of_word v ≠ q).
Proof.
  apply (delete_item_keeps_buffer 4 3 retire_room 6).
  - simpl. lia.
  - reflexivity.
  - simpl. lia.
  - lia.
  - lia.
  - constructor.
    + reflexivity.
    + simpl. lia.
    + intros [|[|i]] v Hi Hv; simpl in *; try lia; injection Hv as <-; discriminate.
    + intros [|[|[|i]]] v Hi Hv; simpl in *; try lia; try done.
      by injection Hv as <-.
  - discriminate.
Defined.

End DeleteItemTheorems.
Section ContextLife.
Import Hazp.


Lemma clear_slots_spec pre post hp_block :
  length post = hb_chunk hp_block →
  ∀ n a c,
    N.to_nat (hb_slot hp_block) + a + n ≤ length (haz_ptrs c) →
    ∃ hp',
      clear_slots (seq a n) (pre ++ c :: post) hp_block
      = Done (pre ++ {| blk_size := blk_size c; hp_count := hp_count c;
                        bitmap := bitmap c; haz_ptrs := hp' |} :: post) ∧
      length hp' = length (haz_ptrs c) ∧
      ∀ i, hp' !! i
           = if decide (N.to_nat (hb_slot hp_block) + a ≤ i
                        < N.to_nat (hb_slot hp_block) + a + n)
             then Some nullptr else haz_ptrs c !! i.
Proof.
  intros Hpost. unfold generic_hazptr_t in *.
  induction n as [|n IH]; intros a c Hlen.
  - exists (haz_ptrs c). split; [by destruct c|]. split; [done|].
    intros i. destruct (decide _); [lia|done].
  - cbn [seq clear_slots].
    rewrite hp_write_spec by (done || (unfold generic_hazptr_t; lia)).
    set (c1 := {| blk_size := blk_size c; hp_count := hp_count c;
                  bitmap := bitmap c;
                  haz_ptrs := <[N.to_nat (hb_slot hp_block + N.of_nat a) := nullptr]>
                                (haz_ptrs c) |}).
    destruct (IH (S a) c1) as (hp' & Hrun & Hl & Hlook).
    { cbn [c1 haz_ptrs]. unfold generic_hazptr_t in *.
      rewrite length_insert. lia. }
    exists hp'. split; [exact Hrun|]. cbn [c1 haz_ptrs] in Hl, Hlook.
    rewrite length_insert in Hl. split; [done|].
    intros i. rewrite Hlook.
    replace (N.to_nat (hb_slot hp_block + N.of_nat a))
      with (N.to_nat (hb_slot hp_block) + a) by lia.
    destruct (decide (i = N.to_nat (hb_slot hp_block) + a)) as [->|Hne].
    + rewrite list_lookup_insert_eq by lia.
      repeat destruct (decide _); try lia; done.
    + rewrite list_lookup_insert_ne by done.
      repeat destruct (decide _); try lia; done.
Qed.


Lemma chunk_ok_block c ix :
  chunk_ok c → (ix < 32)%N →
  N.to_nat (ix * blk_size c) + N.to_nat (blk_size c) ≤ length (haz_ptrs c) ∧
  u32 (ix * blk_size c) = (ix * blk_size c)%N.
Proof.
  intros [Hblk Hcount Hfits Hlen Hbm] Hix.
  unfold NUM_HAZP_CHUNK_BLOCKS in Hcount. split.
  - unfold generic_hazptr_t in *. rewrite Hlen, Hcount. nia.
  - unfold u32. apply N.mod_small. nia.
Qed.


End ContextLife.
Section ContextTheorems.
Import Hazp.

(** X11: the constructor of a context, when its reservation returns,
    gives a context with an empty, well-formed retire buffer and a reserved
    block of [S] hazard pointers that all read null; the delete list of the
    domain is not touched. *)
Theorem context_ctor_gives_null_slots fuel S R d fr d1 hp_block :
  Forall chunk_ok (pools_head d) → (0 < N.of_nat S < 134217728)%N → 0 < R →
  reserve fuel d (N.of_nat S) = Done (d1, hp_block) →
  ∃ s,
    hazard_pointer_context_ctor fuel S R d fr = Done (s, hp_block) ∧
    buffer_ok R (context s) ∧ del_index (context s) = 0%N ∧
    freed s = fr ∧ delete_head (domain s) = delete_head d ∧
    Forall chunk_ok (pools_head (domain s)) ∧
    block_in (pools_head (domain s)) hp_block (N.of_nat S) true ∧
    ∀ index, (index < N.of_nat S)%N →
      at_ (N.of_nat S) hp_block (domain s) index = Done nullptr.
Proof.
  intros Hpool HS HR Hres.
  destruct (reserve_inv fuel d (N.of_nat S) d1 hp_block) as
    (c & rest & ix & Hd & Hblk & Hix & Hbit & Hlow & Hd1 & Hdel & -> & f & ->);
    [|done|].
  { eapply List.Forall_impl; [|exact Hpool]. intros c0. apply ck_bitmap. }
  assert (Hok : chunk_ok c).
  { destruct Hd as [Hd|(_ & -> & _)].
    - rewrite Hd in Hpool. by inversion Hpool.
    - apply chunk_ok_new; lia. }
  assert (Hrest : Forall chunk_ok rest).
  { destruct Hd as [Hd|(_ & _ & ->)]; [|constructor].
    rewrite Hd in Hpool. by inversion Hpool. }
  pose proof (chunk_ok_reserved c ix Hok Hix) as Hok1.
  destruct (chunk_ok_block c ix Hok Hix) as [Hfit Hu]. rewrite Hu in *.
  set (c1 := set_bitmap c (N.lor (bitmap c) (2 ^ ix))) in *.
  set (blk := {| hb_chunk := length rest; hb_slot := (ix * blk_size c)%N |}) in *.
  destruct (clear_slots_spec [] rest blk eq_refl S 0 c1) as (hp' & Hclear & Hl & Hlook).
  { cbn [blk hb_slot c1 set_bitmap haz_ptrs]. rewrite <- Hblk in Hfit. lia. }
  cbn [app] in Hclear.
  unfold hazard_pointer_context_ctor. rewrite Hres, Hd1, Hclear.
  eexists. split; [done|]. cbn [context domain freed deleted del_index pools_head delete_head].
  split; [|split; [done|split; [done|split; [done|split; [|split]]]]].
  - constructor; cbn [deleted del_index].
    + by rewrite length_replicate.
    + lia.
    + intros i v Hi. simpl in Hi. lia.
    + intros i v _ Hv. by apply lookup_replicate in Hv as [-> _].
  - constructor; [|done]. destruct Hok1. constructor; simpl; try done.
    unfold generic_hazptr_t in *. by rewrite Hl.
  - exists [], {| blk_size := blk_size c1; hp_count := hp_count c1;
                 bitmap := bitmap c1; haz_ptrs := hp' |}, rest, ix.
    split; [done|]. split; [done|]. split; [done|].
    split; [done|]. split; [done|]. unfold block_reserved. simpl.
    by rewrite testbit_lor_pow2, N.eqb_refl, orb_true_r.
  - intros index Hidx. unfold at_.
    destruct (N.ltb_spec index (N.of_nat S)) as [_|?]; [|lia]. cbn [negb].
    pose proof (hp_read_spec []
                  {| blk_size := blk_size c1; hp_count := hp_count c1;
                     bitmap := bitmap c1; haz_ptrs := hp' |}
                  rest blk index eq_refl) as Hr.
    cbn [app] in Hr. cbn [pools_head]. rewrite Hr. cbn [haz_ptrs].
    rewrite Hlook. cbn [blk hb_slot]. rewrite <- Hblk.
    destruct (decide _) as [_|Hout]; [done|]. lia.
Qed.

Lemma context_ctor_gives_null_slots_witness :
  ∃ d1 hp_block s,
    reserve 3 domain_new (N.of_nat 2) = Done (d1, hp_block) ∧
    hazard_pointer_context_ctor 3 2 3 domain_new [] = Done (s, hp_block) ∧
    buffer_ok 3 (context s) ∧ del_index (context s) = 0%N ∧
    freed s = [] ∧ delete_head (domain s) = delete_head domain_new ∧
    Forall chunk_ok (pools_head (domain s)) ∧
    block_in (pools_head (domain s)) hp_block (N.of_nat 2) true ∧
    ∀ index, (index < N.of_nat 2)%N →
      at_ (N.of_nat 2) hp_block (domain s) index = Done nullptr.
Proof.
  destruct (reserve 3 domain_new (N.of_nat 2)) as [[d1 hp_block]| |] eqn:Hres;
    try (by vm_compute in Hres).
  exists d1, hp_block.
  destruct (context_ctor_gives_null_slots 3 2 3 domain_new [] d1 hp_block)
    as (s & Hs); [constructor|lia|lia|exact Hres|].
  exists s. split; [done|exact Hs].
Defined.



End ContextTheorems.
(** ** More on keys: the bits of a reversed hash *)

Section KeyBits.
Import SoList.

Lemma rev_bits_testbit n h :
  n ≤ 32 → ∀ j,
  N.testbit (rev_bits n h) j
  = if decide (32 - N.of_nat n ≤ j ≤ 31)%N then N.testbit h (31 - j) else false.
Proof.
  induction n as [|n IH]; intros Hn j.
  - cbn [rev_bits]. rewrite N.bits_0. destruct (decide _); [lia|done].
  - specialize (IH ltac:(lia)). cbn [rev_bits].
    set (p := (31 - N.of_nat n)%N).
    set (b := N.testbit h (N.of_nat n)).
    assert (Hb : (if b then N.shiftl 1 p else 0)%N = (N.b2n b * 2 ^ p)%N).
    { destruct b; simpl; [rewrite N.shiftl_1_l|]; lia. }
    assert (Hbits : ∀ i, N.testbit (N.b2n b * 2 ^ p) i = b && (p =? i)%N).
    { intros i. destruct b; cbn [N.b2n andb].
      - rewrite N.mul_1_l. apply N.pow2_bits_eqb.
      - rewrite N.mul_0_l. apply N.bits_0. }
    rewrite Hb, N.add_nocarry_lxor.
    + rewrite N.lxor_spec, Hbits, IH.
      destruct (N.eqb_spec p j) as [<-|Hne].
      * rewrite andb_true_r. repeat destruct (decide _); try lia.
        rewrite xorb_false_r. unfold b, p. f_equal. lia.
      * rewrite andb_false_r, xorb_false_l.
        repeat destruct (decide _); try lia; done.
    + apply N.bits_inj_0. intros i. rewrite N.land_spec, Hbits, IH.
      destruct (N.eqb_spec p i) as [<-|Hne]; [|by rewrite andb_false_r].
      destruct (decide _); [lia|by rewrite andb_false_r].
Qed.

Lemma reverse_hasht_bits_testbit h j :
  N.testbit (reverse_hasht_bits h) j
  = if decide (j ≤ 31)%N then N.testbit h (31 - j) else false.
Proof.
  unfold reverse_hasht_bits. rewrite rev_bits_testbit by lia.
  repeat destruct (decide _); try lia; done.
Qed.

Lemma land_databit x :
  N.land x DATABIT = (if N.testbit x 0 then 1 else 0)%N.
Proof. unfold DATABIT. apply (land_pow2 x 0). Qed.

(** The key of a dummy node exists exactly for the hashes below 2^31. *)
Lemma sol_bucket_key_run h :
  sol_bucket_key h = if N.testbit h 31 then Fault AssertFailed
                     else Done (reverse_hasht_bits h).
Proof.
  unfold sol_bucket_key. rewrite land_databit, reverse_hasht_bits_testbit.
  destruct (decide _); [|lia]. change (31 - 0)%N with 31%N.
  by destruct (N.testbit h 31).
Qed.

Lemma testbit_31_small h : (h < 2147483648)%N → N.testbit h 31 = false.
Proof.
  intros Hh. rewrite <- (N.mod_small h (2 ^ 31)) by done.
  by apply N.mod_pow2_bits_high.
Qed.

Lemma sol_node_key_testbit h j :
  N.testbit (sol_node_key h) j
  = if decide (j = 0)%N then true
    else if decide (j ≤ 31)%N then N.testbit h (31 - j) else false.
Proof.
  unfold sol_node_key, DATABIT. change 1%N with (2 ^ 0)%N.
  rewrite N.lor_spec, N.pow2_bits_eqb, reverse_hasht_bits_testbit.
  destruct (decide (j = 0%N)) as [->|Hne].
  - by rewrite orb_true_r.
  - destruct (N.eqb_spec 0 j) as [|_]; [lia|]. by rewrite orb_false_r.
Qed.

(** The key of a data node does not see bit 31 of the hash. *)
Lemma sol_node_key_mod h : sol_node_key (h mod 2 ^ 31) = sol_node_key h.
Proof.
  apply N.bits_inj. intros j. rewrite !sol_node_key_testbit.
  destruct (decide (j = 0%N)); [done|]. destruct (decide (j ≤ 31)%N); [|done].
  apply N.mod_pow2_bits_low. lia.
Qed.

Lemma sol_node_key_inj h1 h2 :
  sol_node_key h1 = sol_node_key h2 → (h1 mod 2 ^ 31 = h2 mod 2 ^ 31)%N.
Proof.
  intros Heq. apply N.bits_inj. intros i.
  destruct (N.lt_ge_cases i 31) as [Hi|Hi].
  - rewrite !N.mod_pow2_bits_low by done.
    pose proof (f_equal (λ k, N.testbit k (31 - i)) Heq) as Hb. simpl in Hb.
    rewrite !sol_node_key_testbit in Hb.
    destruct (decide (31 - i = 0)%N); [lia|].
    destruct (decide (31 - i ≤ 31)%N); [|lia].
    by replace (31 - (31 - i))%N with i in Hb by lia.
  - by rewrite !N.mod_pow2_bits_high.
Qed.

Lemma mod_mod_pow2 h k : (k ≤ 31)%N → ((h mod 2 ^ 31) mod 2 ^ k = h mod 2 ^ k)%N.
Proof.
  intros Hk. apply N.bits_inj. intros i.
  destruct (N.lt_ge_cases i k) as [Hi|Hi].
  - rewrite !N.mod_pow2_bits_low by lia. done.
  - by rewrite !N.mod_pow2_bits_high.
Qed.

End KeyBits.
Section KeyTheorems.
Import SoList.

(** X13: two hashes get the same data-node key exactly when they agree on
    their low 31 bits: the key is the reversed hash with its lowest bit
    forced to 1, so bit 31 of the hash is lost. *)
Theorem sol_node_key_loses_bit_31 h1 h2 :
  sol_node_key h1 = sol_node_key h2 ↔ (h1 mod 2 ^ 31 = h2 mod 2 ^ 31)%N.
Proof.
  split; [apply sol_node_key_inj|].
  intros Heq. by rewrite <- (sol_node_key_mod h1), Heq, sol_node_key_mod.
Qed.

(** X14: [insert_node] with a hash whose bit 31 is set fails the assertion of
    [sol_bucket_key]: the constructor of the data node runs the constructor
    of [solist_bucket] on the hash, which asserts that the reversed hash is
    even. Nothing is inserted, whatever the list. *)
Theorem insert_node_high_hash_asserts {T} fuel h (v : T) (w : state T) :
  N.testbit h 31 = true →
  insert_node fuel h v w = Fault AssertFailed.
Proof.
  intros Hbit. unfold insert_node, bind at 1, get.
  unfold bind at 1, lift, solist_node_ctor, solist_bucket_ctor.
  by rewrite sol_bucket_key_run, Hbit.
Qed.

Lemma insert_node_high_hash_asserts_witness :
  ∃ w : state unit,
    solist_new 2 2 = Done w ∧
    insert_node 20 2147483653 tt w = Fault AssertFailed.
Proof.
  destruct (solist_new (T:=unit) 2 2) as [w| |] eqn:Hnew;
    try (by vm_compute in Hnew).
  exists w. split; [done|].
  apply (insert_node_high_hash_asserts 20 2147483653 tt w). reflexivity.
Defined.

(** X15: on a table whose size is a power of two, [find_node] and
    [find_item_node] do not see bit 31 of the hash either: a lookup of
    [h + 2^31] runs exactly as the lookup of [h], so it finds the item that
    was inserted under [h]. *)
Theorem find_node_ignores_bit_31 {T} fuel h h' k (w : state T) :
  (k ≤ 31)%N → so_size (so_list w) = (2 ^ k)%N →
  (h mod 2 ^ 31 = h' mod 2 ^ 31)%N →
  find_node fuel h w = find_node fuel h' w ∧
  find_item_node fuel h w = find_item_node fuel h' w.
Proof.
  intros Hk Hsize Hmod.
  assert (Hfind : find_node fuel h w = find_node fuel h' w).
  { unfold find_node, bind, get. cbv beta. rewrite Hsize.
    rewrite <- (mod_mod_pow2 h k Hk), <- (mod_mod_pow2 h' k Hk), Hmod.
    rewrite <- (sol_node_key_mod h), <- (sol_node_key_mod h'), Hmod.
    reflexivity. }
  split; [done|]. unfold find_item_node, bind at 1. by rewrite Hfind.
Qed.

Lemma find_node_ignores_bit_31_witness :
  ∃ w, one_inserted = Done (true, w) ∧
       find_node 20 5 w = find_node 20 2147483653 w ∧
       find_item_node 20 5 w = find_item_node 20 2147483653 w.
Proof.
  destruct one_inserted as [[[] w]| |] eqn:Hone; try (by vm_compute in Hone).
  exists w. split; [done|].
  apply (find_node_ignores_bit_31 20 5 2147483653 0 w).
  - lia.
  - vm_compute in Hone. by injection Hone as <-.
  - reflexivity.
Defined.

End KeyTheorems.
(** ** What the operations keep of a node *)

Section FrameRules.
Import SoList.
Context {T : Type}.
Implicit Types (w : state T).

Lemma post_bind {A B} (m : M T A) (k : A → M T B) w Q :
  post m w (λ a w1, post (k a) w1 Q) → post (bind m k) w Q.
Proof.
  intros Hm b w' Hrun. unfold bind in Hrun.
  destruct (m w) as [[a w1]| |] eqn:Hmw; try done.
  by apply (Hm a w1).
Qed.

Lemma post_conseq {A} (m : M T A) w (Q Q' : A → state T → Prop) :
  post m w Q → (∀ a w', Q a w' → Q' a w') → post m w Q'.
Proof. intros Hm HQ a w' Hrun. by apply HQ, Hm. Qed.

Lemma post_ret {A} (a : A) w (Q : A → state T → Prop) : Q a w → post (ret a) w Q.
Proof. intros HQ a' w' Hrun. unfold ret in Hrun. by simplify_eq. Qed.

Lemma post_get w (Q : state T → state T → Prop) : Q w w → post get w Q.
Proof. intros HQ a' w' Hrun. unfold get in Hrun. by simplify_eq. Qed.

Lemma post_fail {A} e w (Q : A → state T → Prop) : post (fail e) w Q.
Proof. by intros a' w' Hrun. Qed.

Lemma post_spin {A} w (Q : A → state T → Prop) : post spin w Q.
Proof. by intros a' w' Hrun. Qed.

Lemma post_lift {A} (o : outcome A) w (Q : A → state T → Prop) :
  (∀ a, o = Done a → Q a w) → post (lift o) w Q.
Proof.
  intros HQ a' w' Hrun. unfold lift in Hrun. destruct o; simplify_eq.
  by apply HQ.
Qed.

Lemma post_assert b w (Q : unit → state T → Prop) :
  (b = true → Q tt w) → post (assert b) w Q.
Proof.
  intros HQ a' w' Hrun. unfold assert in Hrun. destruct b; [|done].
  unfold ret in Hrun. simplify_eq. by apply HQ.
Qed.

Lemma post_deref p w (Q : solist_bucket T → state T → Prop) :
  (∀ b, heap w !! p = Some b → Q b w) → post (deref p) w Q.
Proof.
  intros HQ a' w' Hrun. unfold deref in Hrun.
  destruct (heap w !! p) eqn:Hp; simplify_eq. by apply HQ.
Qed.

Lemma post_store p b w (Q : unit → state T → Prop) :
  Q tt (set_heap w (<[p := b]> (heap w))) → post (store p b) w Q.
Proof. intros HQ a' w' Hrun. unfold store in Hrun. by simplify_eq. Qed.

Lemma post_new_bucket b w (Q : N → state T → Prop) :
  Q (brk w) {| heap := <[brk w := b]> (heap w); brk := (brk w + 1)%N;
               freed := freed w; so_list := so_list w; acc := acc w |} →
  post (new_bucket b) w Q.
Proof. intros HQ a' w' Hrun. unfold new_bucket in Hrun. by simplify_eq. Qed.

Lemma post_delete_bucket p w (Q : unit → state T → Prop) :
  (p = nullptr → Q tt w) →
  (∀ b, heap w !! p = Some b →
        Q tt {| heap := delete p (heap w); brk := brk w;
                freed := freed w ++ [p]; so_list := so_list w;
                acc := acc w |}) →
  post (delete_bucket p) w Q.
Proof.
  intros HQ0 HQ a' w' Hrun. unfold delete_bucket in Hrun.
  destruct (N.eqb_spec p nullptr) as [Hp|Hp]; [simplify_eq; by apply HQ0|].
  destruct (heap w !! p) eqn:Hb; simplify_eq. by eapply HQ.
Qed.

Lemma post_bucket_at slot w (Q : N → state T → Prop) :
  (∀ p, Q p w) → post (bucket_at slot) w Q.
Proof.
  intros HQ a' w' Hrun. unfold bucket_at in Hrun.
  destruct (_ !! _); simplify_eq. apply HQ.
Qed.

(** The operations on the table, the counter and the cursor leave the heap
    and the allocation mark alone. *)
Lemma post_set_bucket slot p w (Q : unit → state T → Prop) :
  (∀ l, Q tt (set_list w l)) → post (set_bucket slot p) w Q.
Proof.
  intros HQ a' w' Hrun. unfold set_bucket in Hrun.
  destruct (_ <? _); simplify_eq. apply HQ.
Qed.

Lemma post_inc_item_count w (Q : unit → state T → Prop) :
  (∀ l, Q tt (set_list w l)) → post inc_item_count w Q.
Proof. intros HQ a' w' Hrun. unfold inc_item_count in Hrun. simplify_eq. apply HQ. Qed.

Lemma post_dec_item_count w (Q : unit → state T → Prop) :
  (∀ l, Q tt (set_list w l)) → post dec_item_count w Q.
Proof. intros HQ a' w' Hrun. unfold dec_item_count in Hrun. simplify_eq. apply HQ. Qed.

Lemma post_expand n w (Q : unit → state T → Prop) :
  Q tt w → (∀ l, Q tt (set_list w l)) → post (expand n) w Q.
Proof.
  intros HQ0 HQ a' w' Hrun. unfold expand in Hrun.
  destruct (_ <? _)%N; [simplify_eq; done|].
  destruct (_ || _); simplify_eq. apply HQ.
Qed.

Lemma post_set_cursor c n p w (Q : unit → state T → Prop) :
  (∀ a, Q tt (set_acc w a)) → post (set_cursor c n p) w Q.
Proof. intros HQ a' w' Hrun. unfold set_cursor in Hrun. simplify_eq. apply HQ. Qed.

Lemma post_set_next_field n w (Q : unit → state T → Prop) :
  (∀ a, Q tt (set_acc w a)) → post (set_next_field n) w Q.
Proof. intros HQ a' w' Hrun. unfold set_next_field in Hrun. simplify_eq. apply HQ. Qed.

Lemma post_set_steps s w (Q : unit → state T → Prop) :
  (∀ a, Q tt (set_acc w a)) → post (set_steps s) w Q.
Proof. intros HQ a' w' Hrun. unfold set_steps in Hrun. simplify_eq. apply HQ. Qed.

Lemma post_zap w (Q : unit → state T → Prop) :
  (∀ a, Q tt (set_acc w a)) → post zap w Q.
Proof. apply post_set_cursor. Qed.

Lemma post_walk_while fuel cond count w (Q : unit → state T → Prop) :
  (∀ a, Q tt (set_acc w a)) → post (walk_while fuel cond count) w Q.
Proof.
  intros HQ [] w' Hrun. apply walk_while_acc in Hrun as (a' & ->). apply HQ.
Qed.

(** *** The invariant of the frame *)

Lemma fields_kept_refl w : fields_kept w 0 w.
Proof.
  split; [lia|]. intros p b _ Hp. right. exists b. split; [done|]. by repeat split.
Qed.

Lemma fields_kept_weaken w0 n n' w :
  fields_kept w0 n w → (n ≤ n')%N → fields_kept w0 n' w.
Proof. intros [Hbrk Hk] Hn. split; [lia|done]. Qed.

Lemma fields_kept_set_acc w0 n w a :
  fields_kept w0 n w → fields_kept w0 n (set_acc w a).
Proof. by intros [Hbrk Hk]. Qed.

Lemma fields_kept_set_list w0 n w l :
  fields_kept w0 n w → fields_kept w0 n (set_list w l).
Proof. by intros [Hbrk Hk]. Qed.

Lemma fields_kept_store w0 n w p b m :
  fields_kept w0 n w → heap w !! p = Some b →
  fields_kept w0 n (set_heap w (<[p := set_next b m]> (heap w))).
Proof.
  intros [Hbrk Hk] Hp. split; [done|]. intros q bq Hq Hbq. simpl.
  destruct (decide (q = p)) as [->|Hne].
  - rewrite lookup_insert_eq. right. eexists. split; [done|].
    destruct (Hk p bq Hq Hbq) as [Hnone|(b' & Hb' & Hsame)]; [congruence|].
    simplify_eq. done.
  - rewrite lookup_insert_ne by done. by apply Hk.
Qed.

Lemma fields_kept_new w0 n w b :
  fields_kept w0 n w →
  fields_kept w0 (n + 1)
    {| heap := <[brk w := b]> (heap w); brk := (brk w + 1)%N;
       freed := freed w; so_list := so_list w; acc := acc w |}.
Proof.
  intros [Hbrk Hk]. split; [simpl; lia|]. intros q bq Hq Hbq. simpl.
  rewrite lookup_insert_ne by lia. by apply Hk.
Qed.

Lemma fields_kept_delete w0 n w p :
  fields_kept w0 n w →
  fields_kept w0 n
    {| heap := delete p (heap w); brk := brk w; freed := freed w ++ [p];
       so_list := so_list w; acc := acc w |}.
Proof.
  intros [Hbrk Hk]. split; [done|]. intros q bq Hq Hbq. simpl.
  destruct (decide (q = p)) as [->|Hne].
  - left. apply lookup_delete_eq.
  - rewrite lookup_delete_ne by done. by apply Hk.
Qed.

End FrameRules.

(** One step of a run through the rules above. *)
Ltac mstep :=
  cbv beta zeta;
  lazymatch goal with
  | |- SoList.post (SoList.bind _ _) _ _ => apply post_bind
  | |- SoList.post (SoList.ret _) _ _ => apply post_ret
  | |- SoList.post SoList.get _ _ => apply post_get
  | |- SoList.post (SoList.lift _) _ _ => apply post_lift; intros ? ?
  | |- SoList.post (SoList.fail _) _ _ => apply post_fail
  | |- SoList.post SoList.spin _ _ => apply post_spin
  | |- SoList.post (SoList.assert _) _ _ => apply post_assert; intros ?
  | |- SoList.post (SoList.deref _) _ _ => apply post_deref; intros ? ?
  | |- SoList.post (SoList.store _ _) _ _ => apply post_store
  | |- SoList.post (SoList.new_bucket _) _ _ => apply post_new_bucket
  | |- SoList.post (SoList.delete_bucket _) _ _ =>
      apply post_delete_bucket; [intros ?|intros ? ?]
  | |- SoList.post (SoList.bucket_at _) _ _ => apply post_bucket_at; intros ?
  | |- SoList.post (SoList.set_bucket _ _) _ _ => apply post_set_bucket; intros ?
  | |- SoList.post SoList.inc_item_count _ _ => apply post_inc_item_count; intros ?
  | |- SoList.post SoList.dec_item_count _ _ => apply post_dec_item_count; intros ?
  | |- SoList.post (SoList.expand _) _ _ => apply post_expand; [|intros ?]
  | |- SoList.post (SoList.set_cursor _ _ _) _ _ => apply post_set_cursor; intros ?
  | |- SoList.post (SoList.set_next_field _) _ _ => apply post_set_next_field; intros ?
  | |- SoList.post (SoList.set_steps _) _ _ => apply post_set_steps; intros ?
  | |- SoList.post SoList.zap _ _ => apply post_zap; intros ?
  | |- SoList.post (SoList.walk_while _ _ _) _ _ => apply post_walk_while; intros ?
  | |- SoList.post (if ?b then _ else _) _ _ => destruct b eqn:?
  | |- SoList.post (let '(_, _) := ?x in _) _ _ => destruct x as [? ?] eqn:?
  end.

(** The invariant [fields_kept] through the state changes of a run. *)
Ltac fk_done :=
  cbv beta;
  repeat lazymatch goal with
  | H : SoList.fields_kept ?w0 _ ?w |- SoList.fields_kept ?w0 _ ?w => exact H
  | |- SoList.fields_kept _ _ (SoList.set_acc _ _) =>
      apply fields_kept_set_acc
  | |- SoList.fields_kept _ _ (SoList.set_list _ _) =>
      apply fields_kept_set_list
  | |- SoList.fields_kept _ _ (SoList.set_heap _ _) =>
      eapply fields_kept_store; [|simpl; eassumption]
  | |- SoList.fields_kept _ _ (SoList.mk_state (delete _ _) _ _ _ _) =>
      apply fields_kept_delete
  | |- SoList.fields_kept _ _ (SoList.mk_state (<[_ := _]> _) _ _ _ _) =>
      apply fields_kept_new
  end.

Section FrameOps.
Import SoList.
Context {T : Type}.
Implicit Types (w : state T).

Lemma post_advance w (Q : unit → state T → Prop) :
  (∀ a, Q tt (set_acc w a)) → post advance w Q.
Proof.
  intros HQ. unfold advance. repeat mstep; rewrite ?set_acc_set_acc; apply HQ.
Qed.

Lemma post_get_parent fuel slot K w (Q : unit → state T → Prop) :
  (∀ a, Q tt (set_acc w a)) → post (get_parent fuel slot K) w Q.
Proof.
  intros HQ. unfold get_parent. repeat mstep; rewrite ?set_acc_set_acc; apply HQ.
Qed.

Lemma initialise_bucket_loop_frame w0 n slot node K :
  ∀ fuel w, fields_kept w0 n w →
    post (initialise_bucket_loop fuel slot node K) w
         (λ _ w', fields_kept w0 n w').
Proof.
  induction fuel as [|f IH]; intros w Hk; cbn [initialise_bucket_loop];
    [apply post_spin|].
  mstep. apply post_get_parent. intros a.
  repeat mstep;
    (lazymatch goal with
     | |- post _ _ _ => apply IH
     | _ => idtac
     end); fk_done.
Qed.

Lemma initialise_bucket_frame w0 n fuel slot w :
  fields_kept w0 n w →
  post (initialise_bucket fuel slot) w (λ _ w', fields_kept w0 (n + 1) w').
Proof.
  intros Hk. unfold initialise_bucket.
  do 7 mstep; [mstep; apply (fields_kept_weaken _ n); [done|lia]|].
  do 5 mstep.
  eapply post_conseq; [apply (initialise_bucket_loop_frame w0 (n + 1)); fk_done|].
  intros [] w1 Hk1. cbv beta in Hk1. repeat mstep; fk_done.
Qed.

Lemma find_node_frame w0 n fuel h w :
  fields_kept w0 n w →
  post (find_node fuel h) w (λ _ w', fields_kept w0 (n + 1) w').
Proof.
  intros Hk. unfold find_node.
  do 3 mstep; [mstep|]. do 3 mstep.
  assert (Hinit : post (if (p =? nullptr)%N then initialise_bucket fuel
                          (h mod so_size (so_list w)) else ret ()) w
                       (λ _ w', fields_kept w0 (n + 1) w')).
  { destruct (p =? nullptr)%N; [by apply initialise_bucket_frame|].
    apply post_ret. apply (fields_kept_weaken _ n); [done|lia]. }
  eapply post_conseq; [exact Hinit|]. intros [] w1 Hk1.
  repeat mstep; fk_done.
Qed.

(** [∃ n, fields_kept w0 n w]: some nodes were allocated, and every node of
    [w0] is freed or has its fields. *)
Lemma insert_loop_frame w0 h dnode :
  ∀ fuel n w, fields_kept w0 n w →
    post (insert_loop fuel h dnode) w (λ _ w', ∃ n', fields_kept w0 n' w').
Proof.
  induction fuel as [|f IH]; intros n w Hk; cbn [insert_loop]; [apply post_spin|].
  mstep. eapply post_conseq; [by apply (find_node_frame w0 n)|].
  intros found w1 Hk1. cbv beta in Hk1.
  repeat mstep;
    (lazymatch goal with
     | |- post _ _ _ => eapply IH
     | |- ex _ => eexists
     | _ => idtac
     end); fk_done.
Qed.

Lemma insert_node_frame w0 n fuel h v w :
  fields_kept w0 n w →
  post (insert_node fuel h v) w (λ _ w', ∃ n', fields_kept w0 n' w').
Proof.
  intros Hk. unfold insert_node. do 7 mstep.
  eapply post_conseq; [eapply (insert_loop_frame w0); fk_done|].
  intros result w1 Hk1. cbv beta in Hk1. destruct Hk1 as [n1 Hk1].
  repeat mstep;
    try (lazymatch goal with
         | |- post (initialise_bucket _ _) _ _ =>
             eapply post_conseq;
             [eapply (initialise_bucket_frame w0); fk_done|];
             intros [] ? Hk5; cbv beta in Hk5; repeat mstep
         end);
    (lazymatch goal with |- ex _ => eexists | _ => idtac end); fk_done.
Qed.

Lemma delete_loop_frame w0 h :
  ∀ fuel n w, fields_kept w0 n w →
    post (delete_loop fuel h) w (λ _ w', ∃ n', fields_kept w0 n' w').
Proof.
  induction fuel as [|f IH]; intros n w Hk; cbn [delete_loop]; [apply post_spin|].
  mstep. eapply post_conseq; [by apply (find_node_frame w0 n)|].
  intros found w1 Hk1. cbv beta in Hk1.
  repeat mstep;
    (lazymatch goal with
     | |- post _ _ _ => eapply IH
     | |- ex _ => eexists
     | _ => idtac
     end); fk_done.
Qed.

Lemma delete_node_frame w0 n fuel h w :
  fields_kept w0 n w →
  post (delete_node fuel h) w (λ _ w', ∃ n', fields_kept w0 n' w').
Proof.
  intros Hk. unfold delete_node. mstep.
  eapply post_conseq; [by eapply (delete_loop_frame w0)|].
  intros result w1 Hk1. cbv beta in Hk1. destruct Hk1 as [n1 Hk1]. repeat mstep. eexists. fk_done.
Qed.

End FrameOps.

(** ** The operations return on a well-formed list *)

Section Totality.
Import SoList.
Context {T : Type}.
Implicit Types (w : state T) (l : list (N * solist_bucket T)).

Lemma bind_done {A B} (m : M T A) (k : A → M T B) w a w1 :
  m w = Done (a, w1) → bind m k w = k a w1.
Proof. intros Hm. unfold bind. by rewrite Hm. Qed.

Lemma walk_while_total cond count :
  ∀ rest fuel w c bc,
    cur (acc w) = c → next (acc w) = mp_ptr (b_next bc) →
    lseg (heap w) c nullptr ((c, bc) :: rest) →
    length rest < fuel →
    ∃ w', walk_while fuel cond count w = Done (tt, w').
Proof.
  induction rest as [|[n2 b2] rest IH]; intros fuel w c bc Hc Hn Hl Hfuel;
    (destruct fuel as [|f]; [simpl in Hfuel; lia|]);
    inversion Hl as [|? ? ? ? Hc0 Hbc Hrest]; subst;
    cbn [walk_while]; unfold bind at 1, get.
  - pose proof (lseg_next _ _ _ [] (cur (acc w), bc) [] Hl) as Hnull.
    simpl in Hnull. rewrite Hn, Hnull, N.eqb_refl. by eexists.
  - inversion Hrest as [|? ? ? ? Hn2 Hb2 Hrest2]; subst.
    rewrite Hn. destruct (N.eqb_spec (mp_ptr (b_next bc)) nullptr) as [|_]; [done|].
    unfold bind at 1, deref. rewrite Hb2.
    destruct (cond b2); [|by eexists].
    rewrite (bind_done _ _ _ _ _ (advance_run w _ b2 Hn Hn2 Hb2)).
    destruct count.
    + unfold bind at 1. unfold bind at 1, get, set_steps. cbn [acc set_acc].
      rewrite set_acc_set_acc.
      apply (IH f _ (mp_ptr (b_next bc)) b2); [done|done|done|simpl in Hfuel; lia].
    + unfold bind at 1, ret.
      apply (IH f _ (mp_ptr (b_next bc)) b2); [done|done|done|simpl in Hfuel; lia].
Qed.

Lemma get_parent_total fuel slot K w l :
  wf w l → N.to_nat slot ≤ length (so_buckets (so_list w)) →
  length l ≤ fuel →
  ∃ w', get_parent fuel slot K w = Done (tt, w').
Proof.
  intros Hwf Hslot Hfuel.
  destruct (wf_head _ _ Hwf) as (b0 & nb0 & rest & H0 & Hb0 & -> & Hnb0 & _).
  assert (Hscan : get_parent_scan (N.to_nat slot) (so_buckets (so_list w)) b0
                  = Done b0).
  { destruct (N.to_nat slot) as [|s]; [done|].
    by apply get_parent_scan_reaches_head. }
  unfold get_parent, bind, bucket_at, get, lift, deref, set_cursor.
  change (N.to_nat 0) with 0. rewrite H0, Hscan, Hnb0.
  destruct (wf_chain _ _ Hwf) as (b0' & H0' & _ & Hl). simplify_eq.
  eapply (walk_while_total _ _ rest fuel _ b0 nb0); [done|done|done|].
  simpl in Hfuel. lia.
Qed.

Lemma initialise_bucket_loop_total fuel slot node K w1 l nb :
  wf w1 l →
  N.to_nat slot < length (so_buckets (so_list w1)) →
  so_buckets (so_list w1) !! N.to_nat slot = Some nullptr →
  heap w1 !! node = Some nb → node ∉ l.*1 →
  length l < fuel →
  ∃ w', initialise_bucket_loop fuel slot node K w1 = Done (tt, w').
Proof.
  intros Hwf Hslot Hbucket Hnode Hfresh Hfuel.
  destruct fuel as [|f]; [lia|]. cbn [initialise_bucket_loop].
  destruct (get_parent_total f slot K w1 l Hwf) as (w2 & Hgp); [lia|lia|].
  rewrite (bind_done _ _ _ _ _ Hgp).
  apply (get_parent_spec _ _ _ _ _ l Hwf) in Hgp
    as (pre & x & post & a' & -> & -> & Hc & Hn & Hall & Hpost); [|lia].
  destruct (wf_next _ _ _ _ Hwf) as [Hnext Hmark].
  destruct (wf_lookup _ _ x.1 x.2 Hwf) as [Hx Hx0]; [destruct x; apply elem_of_mid|].
  assert (Hxn : x.1 ≠ node).
  { intros Heq. apply Hfresh. rewrite <- Heq, fmap_app, fmap_cons. apply elem_of_mid. }
  unfold bind at 1, get. unfold bind at 1, deref.
  simpl. rewrite Hnode.
  unfold bind at 1, store. unfold bind at 1, bucket_at.
  simpl. rewrite Hbucket. simpl.
  rewrite Hn. unfold bind at 1.
  destruct post as [|y post].
  - rewrite Hnext. simpl.
    unfold ret at 1. unfold bind at 1, deref. simpl.
    rewrite Hc. rewrite lookup_insert_ne by done.
    rewrite Hx. unfold mp_CAS.
    rewrite Hnext, Hmark. simpl.
    unfold bind, store, ret. simpl. by eexists.
  - destruct (wf_lookup _ _ y.1 y.2 Hwf) as [Hy Hy0];
      [destruct y; apply elem_of_mid2|].
    assert (Hyn : y.1 ≠ node).
    { intros Heq. apply Hfresh. rewrite <- Heq, fmap_app, !fmap_cons. apply elem_of_mid2. }
    rewrite Hnext.
    destruct (N.eqb_spec y.1 nullptr) as [|_]; [done|].
    unfold bind at 1, deref. simpl.
    rewrite lookup_insert_ne by done. rewrite Hy.
    unfold ret at 1.
    destruct (N.eqb_spec (b_key y.2) K) as [HyK|HyK].
    + unfold ret. by eexists.
    + unfold bind at 1, deref. simpl.
      rewrite Hc. rewrite lookup_insert_ne by done.
      rewrite Hx. unfold mp_CAS.
      rewrite Hnext, N.eqb_refl, Hmark. simpl.
      unfold bind, store, ret. simpl. by eexists.
Qed.

Lemma sol_bucket_key_small slot :
  (slot < 2147483648)%N →
  N.land (reverse_hasht_bits slot) DATABIT = 0%N ∧
  sol_bucket_key slot = Done (reverse_hasht_bits slot).
Proof.
  intros Hslot. pose proof (testbit_31_small slot Hslot) as Hbit. split.
  - rewrite land_databit, reverse_hasht_bits_testbit.
    destruct (decide _); [|lia]. change (31 - 0)%N with 31%N. by rewrite Hbit.
  - by rewrite sol_bucket_key_run, Hbit.
Qed.

Lemma initialise_bucket_total fuel slot w l :
  wf w l → (slot < so_size (so_list w))%N → length l < fuel →
  ∃ w', initialise_bucket fuel slot w = Done (tt, w').
Proof.
  intros Hwf Hslot Hfuel.
  unfold initialise_bucket. unfold bind at 1, get.
  unfold bind at 1, assert.
  destruct (N.ltb_spec slot (so_size (so_list w))) as [_|]; [|lia].
  unfold ret at 1. unfold bind at 1, bucket_at.
  pose proof (wf_len _ _ Hwf) as Hlen.
  destruct (lookup_lt_is_Some_2 (so_buckets (so_list w)) (N.to_nat slot))
    as [b Hb]; [lia|].
  rewrite Hb.
  destruct (N.eqb_spec b nullptr) as [Hbn|Hbn]; simpl; [|by eexists].
  rewrite Hbn in Hb. clear b Hbn.
  pose proof (wf_size_bounds _ _ Hwf) as Hsize.
  destruct (sol_bucket_key_small slot) as [Heven Hkey]; [lia|].
  unfold bind at 1, lift, solist_bucket_ctor. rewrite Hkey.
  set (K := reverse_hasht_bits slot) in *.
  set (nb := {| b_hashv := slot; b_key := K; b_next := mp_of nullptr;
                b_payload := None |}) in *.
  unfold bind at 1, new_bucket.
  destruct (wf_new_bucket w l nb Hwf) as (Hwf1 & Hfresh & Hnode0 & Hnone).
  set (w1 := {| heap := <[brk w:=nb]> (heap w); brk := (brk w + 1)%N;
                freed := freed w; so_list := so_list w; acc := acc w |}) in *.
  destruct (initialise_bucket_loop_total fuel slot (brk w) (b_key nb) w1 l nb Hwf1)
    as (w2 & Hloop); [simpl; lia|done|by apply lookup_insert_eq|done|done|].
  rewrite (bind_done _ _ _ _ _ Hloop).
  apply (initialise_bucket_loop_spec _ _ _ _ _ _ l nb Hwf1) in Hloop
    as (pre & x & post & a' & -> & Hc & Hn & Hall & Hcases);
    [|simpl; lia|done|by apply lookup_insert_eq|done].
  destruct (wf_next _ _ _ _ Hwf1) as [Hnext Hmark].
  destruct (wf_lookup _ _ x.1 x.2 Hwf1) as [Hx Hx0]; [destruct x; apply elem_of_mid|].
  assert (Hxn : x.1 ≠ brk w).
  { intros Heq. apply Hfresh. rewrite <- Heq, fmap_app, fmap_cons. apply elem_of_mid. }
  simpl in Hcases.
  destruct Hcases as [(y & post' & -> & HyK & ->)|[Hpost ->]].
  - destruct (wf_lookup _ _ y.1 y.2 Hwf1) as [Hy Hy0]; [destruct y; apply elem_of_mid2|].
    assert (Hyn : y.1 ≠ brk w).
    { intros Heq. apply Hfresh. rewrite <- Heq, fmap_app, !fmap_cons. apply elem_of_mid2. }
    simpl in Hnext.
    unfold bind at 1, bucket_at. simpl. rewrite Hb.
    simpl. unfold bind at 1.
    unfold bind at 1, get. unfold bind at 1, deref.
    simpl. rewrite Hc.
    rewrite lookup_insert_ne by done. simpl in Hx. rewrite Hx.
    rewrite Hnext.
    destruct (N.eqb_spec y.1 (brk w)) as [|_]; [done|].
    unfold bind at 1, set_bucket. simpl.
    destruct (Nat.ltb_spec (N.to_nat slot) (length (so_buckets (so_list w))))
      as [_|]; [|lia].
    unfold bind at 1, deref. simpl.
    rewrite Hn, Hnext.
    rewrite lookup_insert_ne by done. simpl in Hy. rewrite Hy.
    unfold bind at 1, assert. rewrite HyK, N.eqb_refl.
    unfold ret at 1. unfold delete_bucket. simpl.
    destruct (N.eqb_spec (brk w) nullptr) as [|_]; [done|].
    rewrite lookup_insert_eq.
    unfold bind at 1, bucket_at. simpl.
    rewrite list_lookup_insert_eq by lia.
    unfold bind at 1, assert.
    destruct (N.eqb_spec y.1 nullptr) as [|_]; [done|]. simpl.
    unfold ret at 1. unfold bind at 1, deref. simpl.
    rewrite !delete_insert_eq, delete_id by done.
    assert (Hyw : heap w !! y.1 = Some y.2).
    { subst w1. simpl in Hy. by rewrite lookup_insert_ne in Hy. }
    rewrite Hyw, HyK, N.eqb_refl.
    unfold ret. by eexists.
  - unfold bind at 1, bucket_at. simpl. rewrite Hb.
    simpl. unfold bind at 1.
    unfold bind at 1, get. unfold bind at 1, deref.
    simpl. rewrite Hc.
    rewrite lookup_insert_eq. simpl.
    rewrite N.eqb_refl.
    unfold bind at 1, set_bucket. simpl.
    destruct (Nat.ltb_spec (N.to_nat slot) (length (so_buckets (so_list w))))
      as [_|]; [|lia].
    unfold set_next_field. simpl.
    unfold bind at 1, bucket_at. simpl.
    rewrite list_lookup_insert_eq by lia.
    unfold bind at 1, assert.
    destruct (N.eqb_spec (brk w) nullptr) as [|_]; [done|]. simpl.
    unfold ret at 1. unfold bind at 1, deref. simpl.
    rewrite lookup_insert_ne by done.
    rewrite lookup_insert_eq. simpl.
    rewrite N.eqb_refl. unfold ret. by eexists.
Qed.

End Totality.
Section ListUse.
Import SoList.
Context {T : Type}.
Implicit Types (w : state T) (l : list (N * solist_bucket T)).

Lemma data_items_keys l c k : (c, k) ∈ data_items l → k ∈ keys l.
Proof.
  intros Hin. destruct (elem_of_data_items _ _ _ Hin) as (b & Hb & <- & _).
  by apply (elem_of_keys l (c, b)).
Qed.

Lemma data_items_intro l c b :
  (c, b) ∈ l → is_node b = true → (c, b_key b) ∈ data_items l.
Proof.
  intros Hin Hnode. unfold data_items.
  apply list_elem_of_fmap. exists (c, b). split; [done|].
  apply list_elem_of_filter. split; [|done]. simpl. by rewrite Hnode.
Qed.

Lemma is_node_key (b : solist_bucket T) h :
  b_key b = sol_node_key h → is_node b = true.
Proof.
  intros Hk. unfold is_node. rewrite Hk, sol_node_key_odd. done.
Qed.

(** In a strictly sorted chain a key between the key of [x] and the key of
    the node after [x] is not there. *)
Lemma sorted_gap l pre x post K :
  l = pre ++ x :: post → StronglySorted N.lt (keys l) →
  (b_key x.2 < K)%N →
  match post with [] => True | y :: _ => (K < b_key y.2)%N end →
  K ∉ keys l.
Proof.
  intros -> Hs Hx Hpost Hin.
  rewrite keys_app, keys_cons in Hs, Hin.
  pose proof (sorted_before _ _ _ Hs) as Hbefore.
  pose proof (sorted_after _ _ _ Hs) as Hafter.
  rewrite list.Forall_forall in Hbefore, Hafter.
  apply elem_of_app in Hin as [Hin|Hin].
  - apply Hbefore in Hin. lia.
  - apply elem_of_cons in Hin as [->|Hin]; [lia|].
    destruct post as [|y post]; [by apply elem_of_nil in Hin|].
    rewrite keys_cons in Hs, Hin.
    apply elem_of_cons in Hin as [->|Hin]; [lia|].
    replace (keys pre ++ b_key x.2 :: b_key y.2 :: keys post)
      with ((keys pre ++ [b_key x.2]) ++ b_key y.2 :: keys post) in Hs
      by (by rewrite <- app_assoc).
    pose proof (sorted_after _ _ _ Hs) as Hy.
    rewrite list.Forall_forall in Hy. apply Hy in Hin. lia.
Qed.

Lemma find_node_answer fuel h w l r w' :
  wf w l → find_node fuel h w = Done (r, w') →
  ∃ l', wf w' l' ∧ data_items l' = data_items l ∧
    (if r then ∃ b, (cur (acc w'), b) ∈ l' ∧ b_key b = sol_node_key h ∧
                    (cur (acc w'), sol_node_key h) ∈ data_items l
     else sol_node_key h ∉ keys l').
Proof.
  intros Hwf Hfind.
  destruct (find_node_spec _ _ _ _ _ _ Hwf Hfind)
    as (l' & pre & x & post & Hwf' & Hsame & _ & Hl' & Hc & _ & Hpost & Hr).
  exists l'. split; [done|]. split; [exact (si_items _ _ _ _ Hsame)|].
  destruct r.
  - destruct Hr as [HxK _]. exists x.2.
    assert (Hin : (cur (acc w'), x.2) ∈ l').
    { rewrite Hc, Hl'. destruct x. apply elem_of_mid. }
    split; [done|]. split; [done|].
    rewrite <- (si_items _ _ _ _ Hsame), <- HxK.
    apply data_items_intro; [done|]. by eapply is_node_key.
  - eapply sorted_gap; [exact Hl'|exact (wf_sorted _ _ Hwf')|done|done].
Qed.

End ListUse.
Section Totality2.
Import SoList.
Context {T : Type}.
Implicit Types (w : state T) (l : list (N * solist_bucket T)).

(** The nodes of the chain are distinct addresses below the allocation
    mark: the chain is shorter than the mark. *)
Lemma chain_length_brk w l : wf w l → length l < N.to_nat (brk w).
Proof.
  intros Hwf. pose proof (wf_NoDup _ _ Hwf) as Hnd.
  assert (Hsub : l.*1 ⊆+ (N.of_nat <$> seq 1 (N.to_nat (brk w) - 1))).
  { apply NoDup_submseteq; [done|]. intros p Hp.
    destruct (wf_addr_lt _ _ _ Hwf Hp) as [Hlt Hnz].
    apply list_elem_of_fmap. exists (N.to_nat p). split; [lia|].
    apply elem_of_seq. unfold nullptr in Hnz. lia. }
  apply submseteq_length in Hsub.
  rewrite !length_fmap, length_seq in Hsub.
  destruct (wf_brk _ _ Hwf) as [Hpos _]. lia.
Qed.

Lemma find_node_total fuel h w l :
  wf w l → N.to_nat (brk w) < fuel →
  ∃ r w', find_node fuel h w = Done (r, w') ∧ (brk w' ≤ brk w + 1)%N.
Proof.
  intros Hwf Hfuel.
  pose proof (chain_length_brk _ _ Hwf) as Hlenl.
  pose proof (wf_size_bounds _ _ Hwf) as Hsize.
  unfold find_node. unfold bind at 1, get.
  destruct (N.eqb_spec (so_size (so_list w)) 0) as [|_]; [lia|].
  set (slot := (h mod so_size (so_list w))%N) in *.
  set (K := sol_node_key h) in *.
  assert (Hslot : (slot < so_size (so_list w))%N) by (apply N.mod_lt; lia).
  unfold bind at 1, bucket_at.
  pose proof (wf_len _ _ Hwf) as Hlen.
  destruct (lookup_lt_is_Some_2 (so_buckets (so_list w)) (N.to_nat slot))
    as [b Hb]; [lia|].
  rewrite Hb. unfold bind at 1.
  assert (∃ w1 l1 p,
    wf w1 l1 ∧ (brk w1 ≤ brk w + 1)%N ∧
    so_buckets (so_list w1) !! N.to_nat slot = Some p ∧ p ≠ nullptr ∧
    (if (b =? nullptr)%N then initialise_bucket fuel slot else ret ()) w
    = Done (tt, w1)) as (w1 & l1 & p & Hwf1 & Hbrk & Hp & Hp0 & Hinit).
  { destruct (N.eqb_spec b nullptr) as [Hb0|Hb0].
    - destruct (initialise_bucket_total fuel slot w l Hwf Hslot) as (w1 & Hinit);
        [lia|].
      destruct (initialise_bucket_spec _ _ _ _ _ Hwf Hinit)
        as (l1 & Hwf1 & _ & _ & _ & p & Hp & Hp0).
      destruct (initialise_bucket_frame w 0 fuel slot w (fields_kept_refl w)
                  tt w1 Hinit) as [Hbrk _].
      exists w1, l1, p. split; [done|]. split; [lia|]. done.
    - exists w, l, b. split; [done|]. split; [lia|]. done. }
  rewrite Hinit. clear Hinit.
  unfold bind at 1, bucket_at. rewrite Hp.
  destruct (wf_buckets _ _ Hwf1 _ _ Hp Hp0) as (np & Hin & Hkey & Hdummy).
  destruct (wf_lookup _ _ _ _ Hwf1 Hin) as [Hnp _].
  unfold bind at 1, deref. rewrite Hnp.
  unfold bind at 1, set_cursor. unfold bind at 1, set_steps.
  pose proof (chain_length_brk _ _ Hwf1) as Hlen1.
  apply list_elem_of_split in Hin as (l0 & rest & ->).
  destruct (wf_chain _ _ Hwf1) as (b0 & _ & _ & Hl).
  apply lseg_split in Hl as (q & _ & Hl).
  destruct (lseg_head _ _ _ _ _ Hl) as [Hq _]. simpl in Hq. subst q.
  rewrite length_app in Hlen1. simpl in Hlen1.
  match goal with
  | |- context [bind (walk_while ?f ?c ?k) _ ?s] =>
      destruct (walk_while_total c k rest f s p np eq_refl eq_refl Hl)
        as (w2 & Hwalk); [lia|];
      rewrite (bind_done _ _ _ _ _ Hwalk);
      destruct (walk_while_spec _ _ _ s w2 p np rest eq_refl eq_refl Hl Hwalk)
        as (pre2 & x & post & a' & Hsplit & -> & Hc & Hn & Hprev & Hall & Hpost)
  end.
  rewrite set_acc_set_acc.
  assert (Hl1 : l0 ++ (p, np) :: rest = (l0 ++ pre2) ++ x :: post)
    by (by rewrite Hsplit, <- app_assoc).
  rewrite Hl1 in Hwf1.
  destruct (wf_lookup _ _ x.1 x.2 Hwf1) as [Hx Hx0];
    [destruct x; apply elem_of_mid|].
  unfold bind at 1, get. simpl. rewrite Hc.
  destruct (N.eqb_spec x.1 nullptr) as [|_]; [done|].
  unfold bind at 1, deref. simpl. rewrite Hx.
  destruct (negb _); unfold ret; eexists _, _; (split; [done|]); simpl; lia.
Qed.

Lemma insert_loop_total fuel h dnode d w l :
  wf w l → heap w !! dnode = Some d → dnode ∉ l.*1 → dnode ≠ nullptr →
  N.to_nat (brk w) + 1 < fuel →
  ∃ r w', insert_loop fuel h dnode w = Done (r, w') ∧ (brk w' ≤ brk w + 1)%N ∧
          (r = false ↔ sol_node_key h ∈ (data_items l).*2).
Proof.
  intros Hwf Hd Hfresh Hdn0 Hfuel.
  destruct fuel as [|f]; [lia|]. cbn [insert_loop].
  destruct (find_node_total f h w l Hwf) as (found & w1 & Hfind & Hbrk); [lia|].
  rewrite (bind_done _ _ _ _ _ Hfind).
  destruct (find_node_answer _ _ _ _ _ _ Hwf Hfind) as (la & Hwfa & Hia & Hans).
  destruct (find_node_spec _ _ _ _ _ _ Hwf Hfind)
    as (l1 & pre & x & post & Hwf1 & Hsame & Hsz & -> & Hc & Hn & Hpost & Hr).
  destruct (si_outside _ _ _ _ Hsame _ _ Hd Hfresh) as [Hd1 Hfresh1].
  destruct found.
  { unfold ret. eexists _, _. split; [done|]. split; [done|].
    split; [intros _|done]. destruct Hans as (b & _ & _ & Hin).
    apply list_elem_of_fmap. by eexists (_, _). }
  assert (Hno : sol_node_key h ∉ (data_items l).*2).
  { rewrite <- Hia. intros Hin.
    apply list_elem_of_fmap in Hin as ([c k] & Heq & Hin).
    simpl in Heq. subst k. by apply data_items_keys in Hin. }
  destruct (wf_next _ _ _ _ Hwf1) as [Hnext Hmark].
  destruct (wf_lookup _ _ x.1 x.2 Hwf1) as [Hx Hx0];
    [destruct x; apply elem_of_mid|].
  assert (Hxn : x.1 ≠ dnode).
  { intros Heq. apply Hfresh1. rewrite <- Heq, fmap_app, fmap_cons.
    apply elem_of_mid. }
  unfold bind at 1, get. unfold bind at 1, deref.
  rewrite Hd1. unfold bind at 1, store.
  unfold bind at 1, deref. simpl.
  rewrite Hc. rewrite lookup_insert_ne by done.
  rewrite Hx. unfold mp_CAS.
  rewrite Hn, N.eqb_refl, Hmark. simpl.
  unfold bind, store, inc_item_count, ret. simpl. eexists _, _.
  split; [done|]. split; [done|]. split; [done|]. intros Hin. by destruct Hno.
Qed.

Lemma delete_loop_total fuel h w l :
  wf w l → N.to_nat (brk w) + 1 < fuel →
  ∃ r w', delete_loop fuel h w = Done (r, w') ∧
          (r = true ↔ sol_node_key h ∈ (data_items l).*2).
Proof.
  intros Hwf Hfuel.
  destruct fuel as [|f]; [lia|]. cbn [delete_loop].
  destruct (find_node_total f h w l Hwf) as (found & w1 & Hfind & _); [lia|].
  rewrite (bind_done _ _ _ _ _ Hfind).
  destruct (find_node_answer _ _ _ _ _ _ Hwf Hfind) as (la & Hwfa & Hia & Hans).
  destruct (find_node_spec _ _ _ _ _ _ Hwf Hfind)
    as (l1 & pre & x & post & Hwf1 & Hsame & Hsz & -> & Hc & Hn & Hpost & Hr).
  destruct found; simpl.
  2:{ unfold ret. eexists _, _. split; [done|]. split; [done|].
      rewrite <- Hia. intros Hin.
      apply list_elem_of_fmap in Hin as ([c k] & Heq & Hin).
      simpl in Heq. subst k. by apply data_items_keys in Hin. }
  assert (Hyes : sol_node_key h ∈ (data_items l).*2).
  { destruct Hans as (b & _ & _ & Hin).
    apply list_elem_of_fmap. by eexists (_, _). }
  destruct Hr as (HxK & pre' & pv & -> & Hp).
  rewrite <- app_assoc in Hwf1, Hsame. simpl in Hwf1, Hsame.
  pose proof (wf_NoDup _ _ Hwf1) as Hnd.
  rewrite fmap_app, !fmap_cons in Hnd.
  apply list.NoDup_app in Hnd as (_ & _ & Hnd).
  apply list.NoDup_cons in Hnd as [Hpvx _].
  apply not_elem_of_cons in Hpvx as [Hpvx _].
  destruct (wf_lookup _ _ x.1 x.2 Hwf1) as [Hx Hx0];
    [destruct x; apply elem_of_mid2|].
  destruct (wf_lookup _ _ pv.1 pv.2 Hwf1) as [Hpv Hpv0];
    [destruct pv; apply elem_of_mid|].
  destruct (wf_next _ _ _ _ Hwf1) as [Hpvnext Hpvmark]. simpl in Hpvnext.
  unfold bind at 1, get. unfold bind at 1, deref.
  rewrite Hc, Hx. unfold mp_CAS_mark.
  rewrite Hn, N.eqb_refl.
  unfold bind at 1, store. simpl.
  unfold bind at 1, deref. simpl.
  rewrite Hp. rewrite lookup_insert_ne by done.
  rewrite Hpv. unfold mp_CAS.
  rewrite Hpvnext, N.eqb_refl, Hpvmark. simpl.
  unfold bind at 1, store. simpl.
  unfold bind at 1, dec_item_count. simpl.
  unfold bind at 1, delete_bucket. simpl.
  destruct (N.eqb_spec x.1 nullptr) as [|_]; [done|].
  rewrite lookup_insert_ne by done.
  rewrite lookup_insert_eq. unfold ret. by eexists _, _.
Qed.

Lemma delete_node_total fuel h w l :
  wf w l → N.to_nat (brk w) + 1 < fuel →
  ∃ r w', delete_node fuel h w = Done (r, w') ∧
          (r = true ↔ sol_node_key h ∈ (data_items l).*2).
Proof.
  intros Hwf Hfuel. unfold delete_node.
  destruct (delete_loop_total fuel h w l Hwf Hfuel) as (r & w1 & Hloop & Hr).
  rewrite (bind_done _ _ _ _ _ Hloop).
  unfold bind, zap, set_cursor, ret. by eexists _, _.
Qed.

Lemma expand_run w l :
  wf w l → (so_size (so_list w) < 2147483648)%N →
  ∃ w1, expand (so_size (so_list w)) w = Done (tt, w1) ∧
        so_size (so_list w1) = (2 * so_size (so_list w))%N ∧
        acc w1 = acc w ∧ brk w1 = brk w ∧ heap w1 = heap w.
Proof.
  intros Hwf Hsize. unfold expand.
  destruct (N.ltb_spec (so_size (so_list w)) (so_size (so_list w))) as [|_]; [lia|].
  assert (Hu : u32 (so_size (so_list w) * 2) = (2 * so_size (so_list w))%N)
    by (unfold u32; rewrite N.mod_small; lia).
  rewrite Hu.
  destruct (N.ltb_spec (2 * so_size (so_list w)) (so_size (so_list w))) as [|_]; [lia|].
  pose proof (wf_len _ _ Hwf) as Hlen.
  destruct (Nat.ltb_spec (length (so_buckets (so_list w)))
              (N.to_nat (so_size (so_list w)))) as [|_]; [lia|].
  simpl. by eexists.
Qed.

Lemma insert_node_total fuel h v w l :
  wf w l → N.testbit h 31 = false →
  (so_size (so_list w) < 2147483648)%N →
  (so_size (so_list w) = 1 ∨ h mod so_size (so_list w) < so_size (so_list w) / 2)%N →
  N.to_nat (brk w) + 2 < fuel →
  ∃ r w', insert_node fuel h v w = Done (r, w') ∧
          (r = true ↔ sol_node_key h ∉ (data_items l).*2) ∧
          (brk w' ≤ brk w + 3)%N.
Proof.
  intros Hwf Hbit Hsize Hslot Hfuel. unfold insert_node.
  unfold bind at 1, get.
  unfold bind at 1, lift, solist_node_ctor, solist_bucket_ctor.
  rewrite sol_bucket_key_run, Hbit.
  set (d := {| b_hashv := h; b_key := N.lor (reverse_hasht_bits h) DATABIT;
               b_next := mp_of nullptr; b_payload := Some v |}) in *.
  cbn [b_hashv b_key b_next]. fold d.
  unfold bind at 1, new_bucket.
  destruct (wf_new_bucket w l d Hwf) as (Hwf1 & Hfresh & Hnode0 & Hnone).
  set (w1 := {| heap := <[brk w:=d]> (heap w); brk := (brk w + 1)%N;
                freed := freed w; so_list := so_list w; acc := acc w |}) in *.
  destruct (insert_loop_total fuel h (brk w) d w1 l Hwf1 (lookup_insert_eq _ _ _)
              Hfresh Hnode0) as (result & w2 & Hloop & Hbrk2 & Hres);
    [simpl; lia|].
  rewrite (bind_done _ _ _ _ _ Hloop).
  destruct (insert_loop_spec _ _ _ d _ _ _ l Hwf1 (lookup_insert_eq _ _ _)
              Hfresh Hnode0 eq_refl Hloop) as (Hsz & Hmax & Hcase).
  unfold bind at 1.
  destruct result; cbn [negb].
  - destruct Hcase as (pre & x & post & Hitems & Hwf2 & Hc).
    set (l2 := pre ++ (x.1, set_next x.2 (mp_of (brk w)))
               :: (brk w, set_next d (mp_of (mp_ptr (b_next x.2)))) :: post) in *.
    destruct (wf_lookup _ _ x.1 (set_next x.2 (mp_of (brk w))) Hwf2) as [Hx _];
      [apply elem_of_mid|].
    unfold bind at 1, get. unfold bind at 1, deref.
    rewrite Hc, Hx. unfold bind at 1, set_next_field.
    pose proof (chain_length_brk _ _ Hwf2) as Hlen2. simpl in Hbrk2.
    destruct (wf_chain _ _ Hwf2) as (b0 & _ & _ & Hl).
    apply lseg_split in Hl as (q & _ & Hl).
    destruct (lseg_head _ _ _ _ _ Hl) as [Hq _]. simpl in Hq. subst q.
    unfold l2 in Hlen2. rewrite length_app in Hlen2. simpl in Hlen2.
    match goal with
    | |- context [bind (walk_while ?f ?c ?k) _ ?s] =>
        destruct (walk_while_total c k _ f s x.1
                    (set_next x.2 (mp_of (brk w))) Hc eq_refl Hl)
          as (w3 & Hwalk); [simpl; lia|];
        rewrite (bind_done _ _ _ _ _ Hwalk);
        destruct (walk_while_acc _ _ _ _ _ Hwalk) as (a3 & ->)
    end.
    rewrite set_acc_set_acc.
    unfold bind at 1, get.
    pose proof (wf_set_acc _ _ a3 Hwf2) as Hwf3.
    assert (Htail : ∃ w4,
      (let l0 := so_list (set_acc w2 a3) in
       if (so_max_bucket_length l0 <? steps (acc (set_acc w2 a3)))%N then
         if (so_size l0 =? 0)%N then fail DivByZero
         else
           let slot := (h mod so_size l0)%N in
           if (u32 (so_max_bucket_length l0 * 2) <=? steps (acc (set_acc w2 a3)))%N
              || (u32 (so_max_bucket_length l0 * so_size l0) <=? so_n_items l0)%N
           then
             bind (expand (so_size (so_list w)))
                  (λ _, initialise_bucket fuel (u32 (slot + so_size (so_list w))))
           else
             initialise_bucket fuel (u32 (slot + so_size (so_list w) / 2))
       else ret tt) (set_acc w2 a3) = Done (tt, w4) ∧
      (brk w4 ≤ brk w2 + 1)%N).
    { cbv zeta. cbn [so_list set_acc acc]. rewrite Hsz. cbn [so_list w1].
      pose proof (wf_size_bounds _ _ Hwf) as Hbounds.
      destruct (_ <? _)%N; [|eexists; split; [done|simpl; lia]].
      destruct (N.eqb_spec (so_size (so_list w)) 0) as [|_]; [lia|].
      assert (Hmod : (h mod so_size (so_list w) < so_size (so_list w))%N)
        by (apply N.mod_lt; lia).
      assert (Hhalf : (so_size (so_list w) = 1 ∧ h mod so_size (so_list w) = 0
                       ∨ 2 * (h mod so_size (so_list w)) + 2
                         ≤ so_size (so_list w))%N).
      { destruct Hslot as [H1|Hlt].
        - left. split; [done|]. rewrite H1. apply N.mod_1_r.
        - right. pose proof (N.div_mod' (so_size (so_list w)) 2) as Hdm.
          generalize dependent (h mod so_size (so_list w))%N.
          generalize dependent (so_size (so_list w) / 2)%N.
          generalize dependent (so_size (so_list w) mod 2)%N.
          intros. lia. }
      clear Hslot.
      generalize dependent (h mod so_size (so_list w))%N. intros m Hmod Hhalf.
      destruct (_ || _).
      - destruct (expand_run (set_acc w2 a3) l2 Hwf3)
          as (w4 & Hexp & Hsz4 & _ & Hbrk4 & _).
        { cbn [so_list set_acc]. rewrite Hsz. done. }
        cbn [so_list set_acc] in Hexp, Hsz4. rewrite Hsz in Hexp, Hsz4.
        cbn [so_list w1] in Hexp, Hsz4.
        rewrite (bind_done _ _ _ _ _ Hexp).
        destruct (expand_spec _ _ _ _ Hwf3 Hexp) as [Hwf4 _].
        destruct (initialise_bucket_total fuel
                    (u32 (m + so_size (so_list w))) w4 l2 Hwf4)
          as (w5 & Hinit).
        + rewrite Hsz4. unfold u32. rewrite N.mod_small; lia.
        + unfold l2. rewrite length_app. simpl. lia.
        + exists w5. split; [done|].
          destruct (initialise_bucket_frame w4 0 fuel _ w4 (fields_kept_refl w4)
                      tt w5 Hinit) as [Hb5 _].
          rewrite Hbrk4 in Hb5. simpl in Hb5. lia.
      - destruct (initialise_bucket_total fuel
                    (u32 (m + so_size (so_list w) / 2)) (set_acc w2 a3) l2 Hwf3)
          as (w5 & Hinit); cycle 2.
        { exists w5. split; [done|].
          destruct (initialise_bucket_frame (set_acc w2 a3) 0 fuel _ _
                      (fields_kept_refl _) tt w5 Hinit) as [Hb5 _].
          simpl in Hb5. lia. }
        + cbn [so_list set_acc]. rewrite Hsz. cbn [so_list w1].
          destruct Hhalf as [[H1 ->]|Hlt].
          * rewrite H1. by vm_compute.
          * pose proof (N.div_mod' (so_size (so_list w)) 2) as Hdm.
            pose proof (N.mod_lt (so_size (so_list w)) 2 ltac:(done)) as Hml.
            generalize dependent (so_size (so_list w) / 2)%N.
            generalize dependent (so_size (so_list w) mod 2)%N.
            intros r Hr q Hq.
            unfold u32. rewrite N.mod_small; lia.
        + unfold l2. rewrite length_app. simpl. lia. }
    destruct Htail as (w4 & Htail & Hbrk4). cbv zeta in Htail.
    cbn [so_list set_acc acc] in Htail |- *.
    rewrite Htail. unfold bind, zap, set_cursor, ret. eexists _, _.
    split; [done|]. split.
    + split; [intros _|done]. intros Hin. by apply Hres in Hin.
    + simpl. lia.
  - destruct Hcase as (l2 & Hwf2 & Hsame2 & Hd2).
    unfold delete_bucket.
    destruct (N.eqb_spec (brk w) nullptr) as [|_]; [done|].
    rewrite Hd2.
    unfold bind, zap, set_cursor, ret. eexists _, _.
    split; [done|]. split.
    + split; [done|]. intros Hno. destruct Hno. by apply Hres.
    + simpl in Hbrk2 |- *. lia.
Qed.

End Totality2.

(** ** The list as its user sees it: lemmas *)

Section ListLemmas.
Import SoList.
Context {T : Type}.
Implicit Types (w : state T) (l : list (N * solist_bucket T)).

Lemma data_keys_sorted l :
  StronglySorted N.lt (keys l) → StronglySorted N.lt (data_items l).*2.
Proof.
  induction l as [|x l IH]; intros Hs; [constructor|].
  rewrite keys_cons in Hs. apply StronglySorted_inv in Hs as [Hs Hall].
  rewrite data_items_cons. destruct (is_node x.2); [|by apply IH].
  cbn [app]. rewrite fmap_cons. constructor; [by apply IH|]. simpl.
  rewrite List.Forall_forall in Hall. apply List.Forall_forall.
  intros k Hk. apply Hall. apply list_elem_of_In in Hk. apply list_elem_of_In.
  apply list_elem_of_fmap in Hk as ([c k'] & -> & Hin).
  by eapply data_items_keys.
Qed.

Lemma sorted_lt_NoDup (ks : list N) : StronglySorted N.lt ks → NoDup ks.
Proof.
  induction 1 as [|k ks Hs IH Hall]; [constructor|].
  apply list.NoDup_cons. split; [|done]. intros Hin.
  rewrite list.Forall_forall in Hall. apply Hall in Hin. lia.
Qed.

Lemma data_keys_NoDup w l : wf w l → NoDup (data_items l).*2.
Proof.
  intros Hwf. apply sorted_lt_NoDup, data_keys_sorted, (wf_sorted _ _ Hwf).
Qed.

Lemma mid_key_absent (i1 i2 : list (N * N)) c K :
  NoDup (i1 ++ (c, K) :: i2).*2 → K ∉ (i1 ++ i2).*2.
Proof.
  rewrite !fmap_app, fmap_cons. simpl. intros Hnd Hin.
  apply list.NoDup_app in Hnd as (Hnd1 & Hdis & Hnd2).
  apply list.NoDup_cons in Hnd2 as [Hni _].
  apply elem_of_app in Hin as [Hin|Hin]; [|done].
  apply (Hdis _ Hin). left.
Qed.

Lemma mid_others (i1 i2 : list (N * N)) c K c' k :
  k ≠ K → ((c', k) ∈ i1 ++ (c, K) :: i2 ↔ (c', k) ∈ i1 ++ i2).
Proof.
  intros Hk. rewrite !elem_of_app, elem_of_cons. split.
  - intros [?|[?|?]]; [by left|simplify_eq|by right].
  - intros [?|?]; [by left|by right; right].
Qed.

Lemma solist_node_ctor_fields (v : T) h d :
  solist_node_ctor v h = Done d →
  b_key d = sol_node_key h ∧ b_hashv d = h ∧ b_payload d = Some v.
Proof.
  unfold solist_node_ctor, solist_bucket_ctor, sol_bucket_key.
  destruct (_ =? _)%N; [|done]. intros [= <-]. done.
Qed.

(** The node made by [insert_node] sits at the address [new] handed out; the
    rest of the operation frees it or leaves its key, hash and payload. *)
Lemma insert_node_new_fields fuel h v w :
  post (insert_node fuel h v) w (λ _ w',
    heap w' !! brk w = None ∨
    ∃ b, heap w' !! brk w = Some b ∧ b_key b = sol_node_key h ∧
         b_hashv b = h ∧ b_payload b = Some v).
Proof.
  unfold insert_node. do 6 mstep.
  match goal with |- post _ ?s _ => remember s as w1 eqn:Hw1 end.
  match goal with H : solist_node_ctor _ _ = Done ?a |- _ =>
    rename H into Hctor; rename a into d end.
  assert (Hd : heap w1 !! brk w = Some d)
    by (subst w1; apply lookup_insert_eq).
  assert (Hb : (brk w < brk w1)%N) by (subst w1; simpl; lia).
  clear Hw1.
  pose proof (fields_kept_refl w1) as Hk.
  eapply (post_conseq _ _ (λ _ w', ∃ n', fields_kept w1 n' w')).
  - mstep.
    eapply post_conseq; [eapply (insert_loop_frame w1); fk_done|].
    intros result w2 Hk1. cbv beta in Hk1. destruct Hk1 as [n1 Hk1].
    repeat mstep;
      try (lazymatch goal with
           | |- post (initialise_bucket _ _) _ _ =>
               eapply post_conseq;
               [eapply (initialise_bucket_frame w1); fk_done|];
               intros [] ? Hk5; cbv beta in Hk5; repeat mstep
           end);
      (lazymatch goal with |- ex _ => eexists | _ => idtac end); fk_done.
  - intros r w' [n' [_ Hkept]].
    destruct (Hkept _ _ Hb Hd) as [Hnone|(b' & Hb' & Hk' & Hh' & Hp')];
      [by left|].
    right. exists b'. split; [done|].
    destruct (solist_node_ctor_fields _ _ _ Hctor) as (Hk0 & Hh0 & Hp0).
    rewrite Hk', Hh', Hp'. done.
Qed.

Lemma same_key_same_node (i : list (N * N)) c c' k :
  NoDup i.*2 → (c, k) ∈ i → (c', k) ∈ i → c = c'.
Proof.
  induction i as [|[a b] i IH]; intros Hnd H1 H2; [by apply elem_of_nil in H1|].
  rewrite fmap_cons in Hnd. apply list.NoDup_cons in Hnd as [Hni Hnd].
  simpl in Hni.
  apply elem_of_cons in H1 as [H1|H1]; apply elem_of_cons in H2 as [H2|H2].
  - congruence.
  - simplify_eq. destruct Hni. apply list_elem_of_fmap. by exists (c', b).
  - simplify_eq. destruct Hni. apply list_elem_of_fmap. by exists (c, b).
  - by apply IH.
Qed.

End ListLemmas.

(** ** The list as its user sees it *)

Section ListUse.
Import SoList.
Context {T : Type}.
Implicit Types (w : state T) (l : list (N * solist_bucket T)).

(** X16: on a well-formed list [find_node], given fuel beyond the number of
    nodes ever allocated, returns; it answers true exactly when the key of
    the hash is the key of a data node of the chain, and it leaves the data
    nodes of the chain as they were (it may only add the dummy of the
    bucket). *)
Theorem find_node_decides_membership fuel h w l :
  wf w l → N.to_nat (brk w) < fuel →
  ∃ r w' l', find_node fuel h w = Done (r, w') ∧ wf w' l' ∧
    data_items l' = data_items l ∧
    (r = true ↔ sol_node_key h ∈ (data_items l).*2).
Proof.
  intros Hwf Hfuel.
  destruct (find_node_total fuel h w l Hwf Hfuel) as (r & w' & Hfind & _).
  destruct (find_node_answer _ _ _ _ _ _ Hwf Hfind) as (l' & Hwf' & Hi & Hans).
  exists r, w', l'. split; [done|]. split; [done|]. split; [done|].
  destruct r.
  - split; [intros _|done]. destruct Hans as (b & _ & _ & Hin).
    apply list_elem_of_fmap. by eexists (_, _).
  - split; [done|]. rewrite <- Hi. intros Hin.
    apply list_elem_of_fmap in Hin as ([c k] & Heq & Hin).
    simpl in Heq. subst k. by apply data_items_keys in Hin.
Qed.


(** X17: on a well-formed list [delete_node] returns; it answers true
    exactly when the key of the hash was the key of a data node; afterwards
    no data node has that key, and the data nodes with other keys are the
    same as before. *)
Theorem delete_node_removes_the_key fuel h w l :
  wf w l → N.to_nat (brk w) + 1 < fuel →
  ∃ r w' l', delete_node fuel h w = Done (r, w') ∧ wf w' l' ∧
    (r = true ↔ sol_node_key h ∈ (data_items l).*2) ∧
    (sol_node_key h ∉ (data_items l').*2) ∧
    (∀ c k, k ≠ sol_node_key h →
       ((c, k) ∈ data_items l' ↔ (c, k) ∈ data_items l)).
Proof.
  intros Hwf Hfuel.
  destruct (delete_node_total fuel h w l Hwf Hfuel) as (r & w' & Hdel & Hr).
  destruct (delete_node_spec _ _ _ _ _ _ Hwf Hdel) as (l' & Hwf' & Hcase).
  exists r, w', l'. split; [done|]. split; [done|]. split; [done|].
  pose proof (data_keys_NoDup _ _ Hwf) as Hnd.
  destruct r.
  - destruct Hcase as (i1 & i2 & c & Hl & Hl' & _).
    rewrite Hl in Hnd |- *. rewrite Hl'. split.
    + by apply (mid_key_absent _ _ c).
    + intros c' k Hk. symmetry. by apply mid_others.
  - rewrite Hcase. split; [|done]. intros Hin. apply Hr in Hin. done.
Qed.


(** X18: on a well-formed list [insert_node] returns when the hash has bit
    31 clear, the table can still double and the slot that a bucket split
    would initialise, [slot + nbuckets/2], lies in the table. It answers
    true exactly when no data node had the key of the hash; afterwards a
    data node has that key, and the data nodes with other keys are the same
    as before. *)
Theorem insert_node_adds_the_key fuel h v w l :
  wf w l → N.testbit h 31 = false →
  (so_size (so_list w) < 2147483648)%N →
  (h mod so_size (so_list w) + so_size (so_list w) / 2
   < so_size (so_list w))%N →
  N.to_nat (brk w) + 2 < fuel →
  ∃ r w' l', insert_node fuel h v w = Done (r, w') ∧ wf w' l' ∧
    (r = true ↔ sol_node_key h ∉ (data_items l).*2) ∧
    sol_node_key h ∈ (data_items l').*2 ∧
    (∀ c k, k ≠ sol_node_key h →
       ((c, k) ∈ data_items l' ↔ (c, k) ∈ data_items l)).
Proof.
  intros Hwf Hbit Hsize Hslot Hfuel.
  destruct (insert_node_total fuel h v w l Hwf Hbit Hsize)
    as (r & w' & Hins & Hr & _); [|done|].
  { destruct (wf_size _ _ Hwf) as (k & Hk & Hs).
    destruct (N.eq_dec k 0%N) as [->|Hk0]; [by left|]. right.
    assert (Hdouble : so_size (so_list w) = (2 * 2 ^ (k - 1))%N).
    { rewrite Hs, <- N.pow_succ_r'. f_equal. lia. }
    rewrite Hdouble in Hslot |- *.
    rewrite (N.mul_comm 2), N.div_mul in Hslot |- * by done. lia. }
  destruct (insert_node_spec _ _ _ _ _ _ _ Hwf Hins) as (l' & Hwf' & Hcase).
  exists r, w', l'. split; [done|]. split; [done|]. split; [done|].
  destruct r.
  - destruct Hcase as (i1 & i2 & c & Hl & Hl').
    rewrite Hl, Hl'. split.
    + rewrite fmap_app, fmap_cons. apply elem_of_app. right. left.
    + intros c' k Hk. by apply mid_others.
  - rewrite Hcase. split; [|done].
    destruct (decide (sol_node_key h ∈ (data_items l).*2)) as [|Hno]; [done|].
    by apply Hr in Hno.
Qed.


(** X19: what [insert_node] stores [find_item_node] finds: after the insert
    of a hash whose key was absent, [find_item_node] of that hash returns
    the node made by the insert, which holds the hash and the payload. *)
Theorem find_item_node_returns_inserted fuel h v w l :
  wf w l → N.testbit h 31 = false →
  (so_size (so_list w) < 2147483648)%N →
  (h mod so_size (so_list w) + so_size (so_list w) / 2
   < so_size (so_list w))%N →
  sol_node_key h ∉ (data_items l).*2 →
  N.to_nat (brk w) + 3 < fuel →
  ∃ w1 c w2 b,
    insert_node fuel h v w = Done (true, w1) ∧
    find_item_node fuel h w1 = Done (c, w2) ∧
    heap w2 !! c = Some b ∧ b_hashv b = h ∧ b_payload b = Some v.
Proof.
  intros Hwf Hbit Hsize Hslot Habsent Hfuel.
  destruct (insert_node_total fuel h v w l Hwf Hbit Hsize)
    as (r & w1 & Hins & Hr & Hbrk1); [|lia|].
  { destruct (wf_size _ _ Hwf) as (k & Hk & Hs).
    destruct (N.eq_dec k 0%N) as [->|Hk0]; [by left|]. right.
    assert (Hdouble : so_size (so_list w) = (2 * 2 ^ (k - 1))%N).
    { rewrite Hs, <- N.pow_succ_r'. f_equal. lia. }
    rewrite Hdouble in Hslot |- *.
    rewrite (N.mul_comm 2), N.div_mul in Hslot |- * by done. lia. }
  apply Hr in Habsent. subst r.
  destruct (insert_node_spec_at _ _ _ _ _ _ _ Hwf Hins)
    as (l1 & Hwf1 & i1 & i2 & Hl & Hl1).
  assert (Hnew : (brk w, sol_node_key h) ∈ data_items l1)
    by (rewrite Hl1; apply elem_of_mid).
  destruct (elem_of_data_items _ _ _ Hnew) as (b1 & Hin1 & _ & _).
  destruct (wf_lookup _ _ _ _ Hwf1 Hin1) as [Hb1 _].
  destruct (insert_node_new_fields fuel h v w _ _ Hins)
    as [Hnone|(b1' & Hb1' & _ & Hh1 & Hp1)]; [congruence|].
  assert (b1' = b1) by congruence. subst b1'.
  destruct (find_node_total fuel h w1 l1 Hwf1) as (r2 & w2 & Hfind & _); [lia|].
  destruct (find_node_answer _ _ _ _ _ _ Hwf1 Hfind) as (l2 & Hwf2 & Hi2 & Hans).
  destruct r2.
  2:{ destruct Hans. rewrite <- Hi2 in Hnew. by eapply data_items_keys. }
  destruct Hans as (b2 & Hin2 & _ & Hcur).
  assert (Hc : cur (acc w2) = brk w).
  { eapply same_key_same_node; [exact (data_keys_NoDup _ _ Hwf1)|done|done]. }
  destruct (wf_lookup _ _ _ _ Hwf2 Hin2) as [Hb2 _].
  assert (Hlt : (brk w < brk w1)%N).
  { apply (wf_addr_lt _ _ _ Hwf1). apply list_elem_of_fmap. by exists (brk w, b1). }
  destruct (find_node_frame w1 0 fuel h w1 (fields_kept_refl w1) _ _ Hfind)
    as [_ Hkept].
  destruct (Hkept _ _ Hlt Hb1) as [Hnone|(b2' & Hb2' & _ & Hh2 & Hp2)];
    [rewrite Hc in Hb2; congruence|].
  rewrite Hc in Hb2. assert (b2' = b2) by congruence. subst b2'.
  exists w1, (brk w), w2, b2. split; [done|]. split.
  - unfold find_item_node. rewrite (bind_done _ _ _ _ _ Hfind).
    unfold bind, get, deref. rewrite Hc, Hb2, Hp2, Hp1. done.
  - split; [done|]. split; congruence.
Qed.


(** X20: no operation rewrites a node: a node allocated before an
    [insert_node], [delete_node] or [initialise_bucket] is afterwards either
    freed or has the key, hash and payload it had; only [next] changes. *)
Theorem operations_keep_node_fields fuel (o : list_op (T:=T)) w l r w' p b :
  wf w l → run_op fuel o w = Done (r, w') → heap w !! p = Some b →
  heap w' !! p = None ∨
  ∃ b', heap w' !! p = Some b' ∧ b_key b' = b_key b ∧
        b_hashv b' = b_hashv b ∧ b_payload b' = b_payload b.
Proof.
  intros Hwf Hrun Hp.
  assert (Hlt : (p < brk w)%N).
  { destruct (wf_brk _ _ Hwf) as [_ Hout].
    destruct (N.lt_ge_cases p (brk w)) as [|Hge]; [done|].
    rewrite (Hout _ Hge) in Hp. done. }
  assert (Hkept : ∃ n, fields_kept w n w').
  { destruct o as [h v|h|slot]; simpl in Hrun.
    - exact (insert_node_frame w 0 fuel h v w (fields_kept_refl w) _ _ Hrun).
    - exact (delete_node_frame w 0 fuel h w (fields_kept_refl w) _ _ Hrun).
    - unfold bind in Hrun.
      destruct (initialise_bucket fuel slot w) as [[[] w1]| |] eqn:Hinit;
        try done.
      unfold ret in Hrun. injection Hrun as <- <-. eexists.
      exact (initialise_bucket_frame w 0 fuel slot w (fields_kept_refl w)
               _ _ Hinit). }
  destruct Hkept as (n & _ & Hkept). exact (Hkept _ _ Hlt Hp).
Qed.


(** X21: [initialise_bucket] of a slot of the table returns; afterwards
    [buckets[slot]] points to a dummy node with the key [reverse(slot)], the
    data nodes of the chain are as before, and a second call changes
    nothing. *)
Theorem initialise_bucket_makes_the_dummy fuel slot w l :
  wf w l → (slot < so_size (so_list w))%N → N.to_nat (brk w) < fuel →
  ∃ w' l' p b,
    initialise_bucket fuel slot w = Done (tt, w') ∧ wf w' l' ∧
    data_items l' = data_items l ∧
    so_buckets (so_list w') !! N.to_nat slot = Some p ∧ p ≠ nullptr ∧
    heap w' !! p = Some b ∧ b_key b = reverse_hasht_bits slot ∧
    is_node b = false ∧
    initialise_bucket fuel slot w' = Done (tt, w').
Proof.
  intros Hwf Hslot Hfuel.
  pose proof (chain_length_brk _ _ Hwf) as Hlen.
  destruct (initialise_bucket_total fuel slot w l Hwf Hslot) as (w' & Hinit);
    [lia|].
  destruct (initialise_bucket_spec _ _ _ _ _ Hwf Hinit)
    as (l' & Hwf' & Hsame & Hsz & _ & p & Hp & Hp0).
  destruct (wf_buckets _ _ Hwf' _ _ Hp Hp0) as (b & Hin & Hkey & Hdummy).
  destruct (wf_lookup _ _ _ _ Hwf' Hin) as [Hb _].
  exists w', l', p, b. split; [done|]. split; [done|].
  split; [exact (si_items _ _ _ _ Hsame)|]. split; [done|]. split; [done|].
  split; [done|]. split; [by rewrite Hkey, N2Nat.id|]. split; [done|].
  unfold initialise_bucket, bind, get, assert, bucket_at.
  rewrite Hsz. destruct (N.ltb_spec slot (so_size (so_list w))) as [_|]; [|lia].
  unfold ret. rewrite Hp.
  destruct (N.eqb_spec p nullptr) as [|_]; [done|]. done.
Qed.

Lemma solist_dtor_loop_spec l :
  ∀ fuel w c, lseg (heap w) c nullptr l → NoDup l.*1 → length l < fuel →
    ∃ w', solist_dtor_loop fuel c w = Done (tt, w') ∧
      freed w' = freed w ++ l.*1 ∧
      (∀ p, p ∈ l.*1 → heap w' !! p = None) ∧
      (∀ p, p ∉ l.*1 → heap w' !! p = heap w !! p) ∧
      so_list w' = so_list w ∧ brk w' = brk w.
Proof.
  induction l as [|[a b] l IH]; intros fuel w c Hl Hnd Hfuel;
    (destruct fuel as [|f]; [simpl in Hfuel; lia|]); cbn [solist_dtor_loop].
  - inversion Hl; subst. change (nullptr =? nullptr)%N with true.
    unfold ret. eexists. split; [done|]. split; [by rewrite app_nil_r|].
    split; [intros p Hp; by apply elem_of_nil in Hp|]. done.
  - inversion Hl as [|? ? ? ? Hc Hb Hrest]; subst.
    destruct (N.eqb_spec a nullptr) as [|_]; [done|].
    unfold bind at 1, deref. rewrite Hb.
    unfold bind at 1, delete_bucket.
    destruct (N.eqb_spec a nullptr) as [|_]; [done|]. rewrite Hb.
    rewrite fmap_cons in Hnd. apply list.NoDup_cons in Hnd as [Hni Hnd].
    simpl in Hni.
    match goal with |- context [solist_dtor_loop f _ ?s] =>
      destruct (IH f s (mp_ptr (b_next b))) as (w' & Hrun & Hfr & Hgone & Hrest' & Hsl & Hbrk)
    end.
    + simpl. by apply lseg_frame_delete.
    + done.
    + simpl in Hfuel. lia.
    + exists w'. split; [done|]. simpl in Hfr, Hrest', Hsl, Hbrk.
      split; [by rewrite Hfr, <- app_assoc|]. split; [|split; [|done]].
      * intros p Hp. rewrite fmap_cons in Hp. simpl in Hp.
        apply elem_of_cons in Hp as [->|Hp]; [|by apply Hgone].
        rewrite (Hrest' _ Hni). apply lookup_delete_eq.
      * intros p Hp. rewrite fmap_cons in Hp. simpl in Hp.
        apply not_elem_of_cons in Hp as [Hpa Hp].
        rewrite (Hrest' _ Hp). by apply lookup_delete_ne.
Qed.


(** X22: the destructor of a well-formed list returns and hands to [delete]
    exactly the nodes of the chain from [buckets[0]], each once and in chain
    order; the nodes outside the chain stay as they were. *)
Theorem solist_dtor_frees_the_chain fuel w l :
  wf w l → N.to_nat (brk w) ≤ fuel →
  ∃ w', solist_dtor fuel w = Done (tt, w') ∧
    freed w' = freed w ++ l.*1 ∧
    (∀ p, p ∈ l.*1 → heap w' !! p = None) ∧
    (∀ p, p ∉ l.*1 → heap w' !! p = heap w !! p).
Proof.
  intros Hwf Hfuel.
  pose proof (chain_length_brk _ _ Hwf) as Hlen.
  destruct (wf_chain _ _ Hwf) as (b0 & H0 & _ & Hl).
  unfold solist_dtor, bind, bucket_at. change (N.to_nat 0) with 0. rewrite H0.
  destruct (solist_dtor_loop_spec l fuel w b0 Hl (wf_NoDup _ _ Hwf))
    as (w' & Hrun & Hfr & Hgone & Hrest & _); [lia|].
  by exists w'.
Qed.


End ListUse.

Section ListUseWitnesses.
Import SoList.

Lemma find_node_decides_membership_witness :
  ∃ (w : state unit) l, one_inserted = Done (true, w) ∧ wf w l ∧
    ∃ r w' l', find_node 20 5 w = Done (r, w') ∧ wf w' l' ∧
      data_items l' = data_items l ∧
      (r = true ↔ sol_node_key 5 ∈ (data_items l).*2).
Proof.
  destruct one_inserted_wf as (w & l & Hw & Hwf).
  exists w, l. split; [exact Hw|]. split; [exact Hwf|].
  apply (find_node_decides_membership 20 5 w l Hwf).
  vm_compute in Hw. injection Hw as <-. simpl. lia.
Defined.

Lemma delete_node_removes_the_key_witness :
  ∃ (w : state unit) l, one_inserted = Done (true, w) ∧ wf w l ∧
    ∃ r w' l', delete_node 20 5 w = Done (r, w') ∧ wf w' l' ∧
      (r = true ↔ sol_node_key 5 ∈ (data_items l).*2) ∧
      (sol_node_key 5 ∉ (data_items l').*2) ∧
      (∀ c k, k ≠ sol_node_key 5 →
         ((c, k) ∈ data_items l' ↔ (c, k) ∈ data_items l)).
Proof.
  destruct one_inserted_wf as (w & l & Hw & Hwf).
  exists w, l. split; [exact Hw|]. split; [exact Hwf|].
  apply (delete_node_removes_the_key 20 5 w l Hwf).
  vm_compute in Hw. injection Hw as <-. simpl. lia.
Defined.

Lemma insert_node_adds_the_key_witness :
  ∃ (w : state unit) l, one_inserted = Done (true, w) ∧ wf w l ∧
    ∃ r w' l', insert_node 20 7 () w = Done (r, w') ∧ wf w' l' ∧
      (r = true ↔ sol_node_key 7 ∉ (data_items l).*2) ∧
      sol_node_key 7 ∈ (data_items l').*2 ∧
      (∀ c k, k ≠ sol_node_key 7 →
         ((c, k) ∈ data_items l' ↔ (c, k) ∈ data_items l)).
Proof.
  destruct one_inserted_wf as (w & l & Hw & Hwf).
  exists w, l. split; [exact Hw|]. split; [exact Hwf|].
  apply (insert_node_adds_the_key 20 7 () w l Hwf).
  - reflexivity.
  - vm_compute in Hw. injection Hw as <-. simpl. lia.
  - vm_compute in Hw. injection Hw as <-. vm_compute. reflexivity.
  - vm_compute in Hw. injection Hw as <-. simpl. lia.
Defined.

Lemma find_item_node_returns_inserted_witness :
  ∃ (w0 w1 w2 : state unit) c b,
    solist_new 1 4 = Done w0 ∧
    insert_node 20 5 () w0 = Done (true, w1) ∧
    find_item_node 20 5 w1 = Done (c, w2) ∧
    heap w2 !! c = Some b ∧ b_hashv b = 5%N ∧ b_payload b = Some ().
Proof.
  destruct (solist_new (T:=unit) 1 4) as [w0| |] eqn:Hnew;
    [|by vm_compute in Hnew..].
  destruct (solist_new_wf 1 4 0 w0) as (l0 & Hwf0 & Hempty); [lia|done|done|].
  destruct (find_item_node_returns_inserted 20 5 () w0 l0 Hwf0)
    as (w1 & c & w2 & b & Hins & Hfind & Hb & Hh & Hp).
  - reflexivity.
  - vm_compute in Hnew. injection Hnew as <-. simpl. lia.
  - vm_compute in Hnew. injection Hnew as <-. vm_compute. reflexivity.
  - rewrite Hempty. apply not_elem_of_nil.
  - vm_compute in Hnew. injection Hnew as <-. simpl. lia.
  - by exists w0, w1, w2, c, b.
Defined.

Lemma operations_keep_node_fields_witness :
  ∃ (w : state unit) r w' b,
    one_inserted = Done (true, w) ∧
    run_op 20 (OpInsert 7 ()) w = Done (r, w') ∧
    heap w !! 2%N = Some b ∧
    (heap w' !! 2%N = None ∨
     ∃ b', heap w' !! 2%N = Some b' ∧ b_key b' = b_key b ∧
           b_hashv b' = b_hashv b ∧ b_payload b' = b_payload b).
Proof.
  destruct one_inserted_wf as (w & l & Hw & Hwf).
  pose proof (operations_keep_node_fields 20 (OpInsert 7 ()) w l) as Hthm.
  vm_compute in Hw. injection Hw as <-.
  eexists _, _, _, _. split; [vm_compute; reflexivity|].
  split; [vm_compute; reflexivity|]. split; [vm_compute; reflexivity|].
  eapply (Hthm _ _ 2%N _ Hwf); vm_compute; reflexivity.
Defined.

Lemma initialise_bucket_makes_the_dummy_witness :
  ∃ (w : state unit) w' l' p b,
    solist_new 2 4 = Done w ∧
    initialise_bucket 20 1 w = Done (tt, w') ∧ wf w' l' ∧
    so_buckets (so_list w') !! 1 = Some p ∧ p ≠ nullptr ∧
    heap w' !! p = Some b ∧ b_key b = reverse_hasht_bits 1 ∧
    is_node b = false ∧
    initialise_bucket 20 1 w' = Done (tt, w').
Proof.
  destruct (solist_new (T:=unit) 2 4) as [w| |] eqn:Hnew;
    [|by vm_compute in Hnew..].
  destruct (solist_new_wf 2 4 1 w) as (l & Hwf & _); [lia|done|done|].
  destruct (initialise_bucket_makes_the_dummy 20 1 w l Hwf)
    as (w' & l' & p & b & Hinit & Hwf' & _ & Hp & Hp0 & Hb & Hk & Hd & Hagain).
  - vm_compute in Hnew. injection Hnew as <-. simpl. lia.
  - vm_compute in Hnew. injection Hnew as <-. simpl. lia.
  - by exists w, w', l', p, b.
Defined.

Lemma solist_dtor_frees_the_chain_witness :
  ∃ (w : state unit) l w', one_inserted = Done (true, w) ∧ wf w l ∧
    solist_dtor 20 w = Done (tt, w') ∧
    freed w' = freed w ++ l.*1 ∧
    (∀ p, p ∈ l.*1 → heap w' !! p = None) ∧
    (∀ p, p ∉ l.*1 → heap w' !! p = heap w !! p).
Proof.
  destruct one_inserted_wf as (w & l & Hw & Hwf).
  destruct (solist_dtor_frees_the_chain 20 w l Hwf) as (w' & Hrun).
  - vm_compute in Hw. injection Hw as <-. simpl. lia.
  - by exists w, l, w'.
Defined.

End ListUseWitnesses.
